(** * Market-data feed: wire codec, stream parser, symbol cache, latency
    histogram, client manager and memory pool.

    A shallow embedding of the C++ sources.  Fixed-width unsigned integers are
    [Z] with their wrap-around written out, bytes are [Byte.byte], the packed
    little-endian structs are serialised with [le_split]/[le_combine], and
    [double] is the primitive binary64 [float] wherever the code computes with
    it.  Code that mutates an object threads the object explicitly. *)

From Stdlib Require Import ZArith Lia List Bool.
From Stdlib Require Import Floats.PrimFloat Floats.SpecFloat Floats.FloatOps.
From coqutil Require Import Byte Word.LittleEndianList.
From stdpp Require Import base option list gmap sorting.
Import ListNotations.
Local Open Scope Z_scope.

(** ** Fixed-width arithmetic *)

Definition wrap16 (z : Z) : Z := z mod 2 ^ 16.
Definition wrap32 (z : Z) : Z := z mod 2 ^ 32.
Definition wrap64 (z : Z) : Z := z mod 2 ^ 64.

Definition UINT64_MAX : Z := 2 ^ 64 - 1.

(** ** Proof steps used throughout *)

(** Split a conjunction into its parts, without unfolding anything. *)
Ltac conjs := repeat match goal with |- _ /\ _ => split end.

(** Decide one integer comparison of the goal. *)
Ltac zcase :=
  first
    [ match goal with |- context [Z.eqb ?a ?b] => destruct (Z.eqb_spec a b) end
    | match goal with |- context [Z.ltb ?a ?b] => destruct (Z.ltb_spec a b) end
    | match goal with |- context [Z.leb ?a ?b] => destruct (Z.leb_spec a b) end ].

Ltac zcases := repeat zcase.

(** [len] of a byte range, as a [size_t]. *)
Definition size (bs : list byte) : Z := Z.of_nat (length bs).

(** * protocol.h *)
Module Protocol.

(** [enum class MessageType : uint16_t] *)
Definition TRADE : Z := 1.
Definition QUOTE : Z := 2.
Definition HEARTBEAT : Z := 3.

Definition HEADER_SIZE : Z := 16.
Definition TRADE_PAYLOAD_SIZE : Z := 12.
Definition QUOTE_PAYLOAD_SIZE : Z := 24.
Definition CHECKSUM_SIZE : Z := 4.

Definition TRADE_MSG_SIZE : Z := HEADER_SIZE + TRADE_PAYLOAD_SIZE + CHECKSUM_SIZE.
Definition QUOTE_MSG_SIZE : Z := HEADER_SIZE + QUOTE_PAYLOAD_SIZE + CHECKSUM_SIZE.
Definition HEARTBEAT_MSG_SIZE : Z := HEADER_SIZE + CHECKSUM_SIZE.

(** [struct MessageHeader], packed: uint16, uint32, uint64, uint16. *)
Record MessageHeader : Type := mkHeader {
  message_type : Z;
  sequence_number : Z;
  timestamp_ns : Z;
  symbol_id : Z
}.

(** [struct TradePayload], packed: double, uint32.  The codec only copies the
    double, so it is held here by its 64-bit object representation. *)
Record TradePayload : Type := mkTrade {
  price : Z;
  quantity : Z
}.

(** [struct QuotePayload], packed: double, uint32, double, uint32. *)
Record QuotePayload : Type := mkQuote {
  bid_price : Z;
  bid_quantity : Z;
  ask_price : Z;
  ask_quantity : Z
}.

(** A value fits its C++ type. *)
Definition fits (bits : Z) (v : Z) : Prop := 0 <= v < 2 ^ bits.

Definition header_fits (h : MessageHeader) : Prop :=
  fits 16 (message_type h) /\ fits 32 (sequence_number h) /\
  fits 64 (timestamp_ns h) /\ fits 16 (symbol_id h).

Definition trade_fits (p : TradePayload) : Prop :=
  fits 64 (price p) /\ fits 32 (quantity p).

Definition quote_fits (p : QuotePayload) : Prop :=
  fits 64 (bid_price p) /\ fits 32 (bid_quantity p) /\
  fits 64 (ask_price p) /\ fits 32 (ask_quantity p).

(** The object representation of the packed structs on the little-endian
    target: what [memcpy(out, &header, sizeof(header))] writes. *)
Definition header_bytes (h : MessageHeader) : list byte :=
  le_split 2 (message_type h) ++ le_split 4 (sequence_number h) ++
  le_split 8 (timestamp_ns h) ++ le_split 2 (symbol_id h).

Definition trade_bytes (p : TradePayload) : list byte :=
  le_split 8 (price p) ++ le_split 4 (quantity p).

Definition quote_bytes (p : QuotePayload) : list byte :=
  le_split 8 (bid_price p) ++ le_split 4 (bid_quantity p) ++
  le_split 8 (ask_price p) ++ le_split 4 (ask_quantity p).

(** Bytes [off, off+n) of a range. *)
Definition slice (off n : nat) (bs : list byte) : list byte :=
  firstn n (skipn off bs).

(** What [reinterpret_cast<const MessageHeader*>(p)] reads at [p]. *)
Definition view_header (bs : list byte) : MessageHeader :=
  {| message_type := le_combine (slice 0 2 bs);
     sequence_number := le_combine (slice 2 4 bs);
     timestamp_ns := le_combine (slice 6 8 bs);
     symbol_id := le_combine (slice 14 2 bs) |}.

Definition view_trade (bs : list byte) : TradePayload :=
  {| price := le_combine (slice 0 8 bs);
     quantity := le_combine (slice 8 4 bs) |}.

Definition view_quote (bs : list byte) : QuotePayload :=
  {| bid_price := le_combine (slice 0 8 bs);
     bid_quantity := le_combine (slice 8 4 bs);
     ask_price := le_combine (slice 12 8 bs);
     ask_quantity := le_combine (slice 20 4 bs) |}.

(** [calculate_checksum]: the second loop, over the bytes left after the last
    whole word; [i] is the index of the first of them. *)
Fixpoint checksum_tail (i : Z) (checksum : Z) (bytes : list byte) : Z :=
  match bytes with
  | [] => checksum
  | b :: rest =>
      checksum_tail (i + 1)
        (Z.lxor checksum (wrap32 (Z.shiftl (byte.unsigned b) ((i mod 4) * 8))))
        rest
  end.

(** [calculate_checksum]: the first loop XORs one 4-byte word per round
    while [i + 4 <= len]. *)
Fixpoint checksum_words (i : Z) (checksum : Z) (bytes : list byte) : Z :=
  match bytes with
  | b0 :: b1 :: b2 :: b3 :: rest =>
      checksum_words (i + 4) (Z.lxor checksum (le_combine [b0; b1; b2; b3])) rest
  | _ => checksum_tail i checksum bytes
  end.

Definition calculate_checksum (data : list byte) : Z :=
  checksum_words 0 0 data.

Definition get_message_size (type : Z) : Z :=
  if type =? TRADE then TRADE_MSG_SIZE
  else if type =? QUOTE then QUOTE_MSG_SIZE
  else if type =? HEARTBEAT then HEARTBEAT_MSG_SIZE
  else 0.

End Protocol.

(** * tick_generator.cpp: framing *)
Module TickGenerator.
Import Protocol.

(** The tail of both branches of [generate_tick_for_symbol] and of
    [generate_heartbeat]: header, then payload, then the checksum of the two
    appended. *)
Definition write_message (header_and_payload : list byte) : list byte :=
  header_and_payload ++ le_split 4 (calculate_checksum header_and_payload).

Definition trade_message (h : MessageHeader) (p : TradePayload) : list byte :=
  write_message (header_bytes h ++ trade_bytes p).

Definition quote_message (h : MessageHeader) (p : QuotePayload) : list byte :=
  write_message (header_bytes h ++ quote_bytes p).

Definition heartbeat_message (h : MessageHeader) : list byte :=
  write_message (header_bytes h).

(** What the random draws and the clock contribute to one tick. *)
Inductive Draw : Type :=
| DrawTrade (now : Z) (p : TradePayload)
| DrawQuote (now : Z) (p : QuotePayload).

(** [generate_tick_for_symbol]: the generator's [sequence_] is threaded; the
    price model only decides the payload values, which [Draw] supplies. *)
Definition generate_tick_for_symbol (num_symbols : Z) (sequence_ : Z)
    (symbol : Z) (d : Draw) : Z * list byte :=
  if num_symbols <=? symbol then (sequence_, [])
  else
    let sequence' := wrap32 (sequence_ + 1) in
    match d with
    | DrawTrade now p =>
        (sequence', trade_message (mkHeader TRADE sequence' now symbol) p)
    | DrawQuote now p =>
        (sequence', quote_message (mkHeader QUOTE sequence' now symbol) p)
    end.

Definition generate_heartbeat (sequence_ : Z) (now : Z) : Z * list byte :=
  let sequence' := wrap32 (sequence_ + 1) in
  (sequence', heartbeat_message (mkHeader HEARTBEAT sequence' now 0)).

End TickGenerator.

(** * parser.cpp *)
Module Parser.
Import Protocol.

Definition MAX_BUFFER_SIZE : Z := 16 * 1024 * 1024.
Definition INITIAL_BUFFER_SIZE : Z := 4 * 1024 * 1024.

Inductive ParseResult : Type :=
| SUCCESS
| NEED_MORE_DATA
| INVALID_MESSAGE
| CHECKSUM_ERROR
| SEQUENCE_GAP.

(** One invocation of a registered callback, with its arguments. *)
Inductive Call : Type :=
| OnTrade (header : MessageHeader) (payload : TradePayload)
| OnQuote (header : MessageHeader) (payload : QuotePayload)
| OnHeartbeat (header : MessageHeader)
| OnGap (expected received : Z).

(** Which of the four [std::function] members hold a target. *)
Record Callbacks : Type := mkCallbacks {
  trade_cb : bool;
  quote_cb : bool;
  heartbeat_cb : bool;
  gap_cb : bool
}.

(** The six [std::atomic<uint64_t>] statistics. *)
Record Stats : Type := mkStats {
  messages_parsed : Z;
  trades_parsed : Z;
  quotes_parsed : Z;
  checksum_errors : Z;
  sequence_gaps : Z;
  malformed_messages : Z
}.

(** [class MessageParser].  Of [buffer_] the model keeps its size and the
    live bytes [[read_pos_, write_pos_)], the only ones the code reads;
    [write_pos_] is [read_pos_] plus their number.  [calls] logs the
    callbacks invoked so far, oldest first. *)
Record MessageParser : Type := mkParser {
  buffer_size : Z;
  read_pos : Z;
  pending : list byte;
  expected_sequence : Z;
  first_message : bool;
  callbacks : Callbacks;
  stats : Stats;
  calls : list Call
}.

Definition write_pos (p : MessageParser) : Z := read_pos p + size (pending p).

Definition no_stats : Stats := mkStats 0 0 0 0 0 0.

(** [MessageParser::MessageParser()], followed by the [set_*_callback] calls
    that register [cbs]. *)
Definition new_parser (cbs : Callbacks) : MessageParser :=
  mkParser INITIAL_BUFFER_SIZE 0 [] 0 true cbs no_stats [].

Definition all_callbacks : Callbacks := mkCallbacks true true true true.

(** Field updates. *)
Definition with_stats (f : Stats -> Stats) (p : MessageParser) : MessageParser :=
  mkParser (buffer_size p) (read_pos p) (pending p) (expected_sequence p)
    (first_message p) (callbacks p) (f (stats p)) (calls p).

Definition invoke (c : Call) (p : MessageParser) : MessageParser :=
  mkParser (buffer_size p) (read_pos p) (pending p) (expected_sequence p)
    (first_message p) (callbacks p) (stats p) (calls p ++ [c]).

(** [read_pos_ += n] *)
Definition advance (n : Z) (p : MessageParser) : MessageParser :=
  mkParser (buffer_size p) (read_pos p + n) (skipn (Z.to_nat n) (pending p))
    (expected_sequence p) (first_message p) (callbacks p) (stats p) (calls p).

Definition expect (seq : Z) (p : MessageParser) : MessageParser :=
  mkParser (buffer_size p) (read_pos p) (pending p) seq false
    (callbacks p) (stats p) (calls p).

Definition add_messages_parsed (s : Stats) : Stats :=
  mkStats (wrap64 (messages_parsed s + 1)) (trades_parsed s) (quotes_parsed s)
    (checksum_errors s) (sequence_gaps s) (malformed_messages s).
Definition add_trades_parsed (s : Stats) : Stats :=
  mkStats (messages_parsed s) (wrap64 (trades_parsed s + 1)) (quotes_parsed s)
    (checksum_errors s) (sequence_gaps s) (malformed_messages s).
Definition add_quotes_parsed (s : Stats) : Stats :=
  mkStats (messages_parsed s) (trades_parsed s) (wrap64 (quotes_parsed s + 1))
    (checksum_errors s) (sequence_gaps s) (malformed_messages s).
Definition add_checksum_errors (s : Stats) : Stats :=
  mkStats (messages_parsed s) (trades_parsed s) (quotes_parsed s)
    (wrap64 (checksum_errors s + 1)) (sequence_gaps s) (malformed_messages s).
Definition add_sequence_gaps (s : Stats) : Stats :=
  mkStats (messages_parsed s) (trades_parsed s) (quotes_parsed s)
    (checksum_errors s) (wrap64 (sequence_gaps s + 1)) (malformed_messages s).
Definition add_malformed_messages (s : Stats) : Stats :=
  mkStats (messages_parsed s) (trades_parsed s) (quotes_parsed s)
    (checksum_errors s) (sequence_gaps s) (wrap64 (malformed_messages s + 1)).

(** [compact_buffer]: the live bytes move to offset 0. *)
Definition compact_buffer (p : MessageParser) : MessageParser :=
  if read_pos p =? 0 then p
  else mkParser (buffer_size p) 0 (pending p) (expected_sequence p)
         (first_message p) (callbacks p) (stats p) (calls p).

(** [std::memcpy(buffer_.data() + write_pos_, data, len); write_pos_ += len].
    [None] when the copy would run past [buffer_.size()], where C++ leaves
    the behaviour undefined. *)
Definition copy_in (p : MessageParser) (data : list byte) : option MessageParser :=
  if write_pos p + size data <=? buffer_size p then
    Some (mkParser (buffer_size p) (read_pos p) (pending p ++ data)
            (expected_sequence p) (first_message p) (callbacks p) (stats p) (calls p))
  else None.

Definition resize (new_size : Z) (p : MessageParser) : MessageParser :=
  mkParser new_size (read_pos p) (pending p) (expected_sequence p)
    (first_message p) (callbacks p) (stats p) (calls p).

(** [append_data]: the bytes consumed and the parser afterwards. *)
Definition append_data (p : MessageParser) (data : list byte)
    : option (Z * MessageParser) :=
  let len := size data in
  if len =? 0 then Some (0, p)
  else
    let available := buffer_size p - write_pos p in
    if available <? len then
      let p := compact_buffer p in
      let available := buffer_size p - write_pos p in
      if available <? len then
        let new_size := Z.min (buffer_size p * 2) MAX_BUFFER_SIZE in
        if new_size <=? buffer_size p then
          Some (0, with_stats add_malformed_messages p)
        else
          p' ← copy_in (resize new_size p) data; Some (len, p')
      else p' ← copy_in p data; Some (len, p')
    else p' ← copy_in p data; Some (len, p').

(** [validate_checksum(data, msg_len)], [data] being the bytes from
    [msg_start] on. *)
Definition validate_checksum (data : list byte) (msg_len : Z) : bool :=
  if msg_len <? CHECKSUM_SIZE then false
  else
    let data_len := msg_len - CHECKSUM_SIZE in
    let expected := calculate_checksum (firstn (Z.to_nat data_len) data) in
    let received := le_combine (slice (Z.to_nat data_len) 4 data) in
    expected =? received.

(** [check_sequence] *)
Definition check_sequence (p : MessageParser) (received_seq : Z)
    : bool * MessageParser :=
  if first_message p then
    (true, expect (wrap32 (received_seq + 1)) p)
  else if negb (received_seq =? expected_sequence p) then
    let p1 := if gap_cb (callbacks p)
              then invoke (OnGap (expected_sequence p) received_seq) p else p in
    let p2 := with_stats add_sequence_gaps p1 in
    (false, expect (wrap32 (received_seq + 1)) p2)
  else
    (true, expect (wrap32 (received_seq + 1)) p).

(** The [switch (type)] of [parse_one]. *)
Definition dispatch (type : Z) (msg_start : list byte) (p : MessageParser)
    : MessageParser :=
  let header := view_header msg_start in
  let payload := skipn (Z.to_nat HEADER_SIZE) msg_start in
  if type =? TRADE then
    with_stats add_trades_parsed
      (if trade_cb (callbacks p)
       then invoke (OnTrade header (view_trade payload)) p else p)
  else if type =? QUOTE then
    with_stats add_quotes_parsed
      (if quote_cb (callbacks p)
       then invoke (OnQuote header (view_quote payload)) p else p)
  else if type =? HEARTBEAT then
    (if heartbeat_cb (callbacks p) then invoke (OnHeartbeat header) p else p)
  else p.

(** [parse_one] *)
Definition parse_one (p : MessageParser) : ParseResult * MessageParser :=
  let available := write_pos p - read_pos p in
  if available <? HEADER_SIZE then (NEED_MORE_DATA, p)
  else
    let msg_start := pending p in
    let header := view_header msg_start in
    let type := message_type header in
    let msg_size := get_message_size type in
    if msg_size =? 0 then
      (INVALID_MESSAGE, with_stats add_malformed_messages (advance 1 p))
    else if available <? msg_size then (NEED_MORE_DATA, p)
    else if QUOTE_MSG_SIZE <? msg_size then
      (INVALID_MESSAGE, with_stats add_malformed_messages (advance 1 p))
    else if negb (validate_checksum msg_start msg_size) then
      (CHECKSUM_ERROR, with_stats add_checksum_errors (advance 1 p))
    else
      let '(in_order, p1) := check_sequence p (sequence_number header) in
      let has_gap := negb in_order in
      let p2 := dispatch type msg_start p1 in
      let p3 := advance msg_size (with_stats add_messages_parsed p2) in
      (if has_gap then SEQUENCE_GAP else SUCCESS, p3).

(** The [while (true)] of [parse_messages].  Every round that does not stop
    consumes at least one byte, so [fuel] above the number of live bytes is
    never used up ([parse_messages_returns]). *)
Fixpoint parse_loop (fuel : nat) (p : MessageParser) (count : Z)
    : option (Z * MessageParser) :=
  match fuel with
  | O => None
  | S fuel' =>
      let '(result, p') := parse_one p in
      match result with
      | NEED_MORE_DATA => Some (count, p')
      | SUCCESS | SEQUENCE_GAP => parse_loop fuel' p' (count + 1)
      | INVALID_MESSAGE | CHECKSUM_ERROR => parse_loop fuel' p' count
      end
  end.

Definition parse_messages (p : MessageParser) : option (Z * MessageParser) :=
  parse_loop (S (length (pending p))) p 0.

(** [FeedHandler::process_data] for one received chunk: append, then parse
    all complete messages; the number parsed is returned with the parser. *)
Definition feed (p : MessageParser) (chunk : list byte)
    : option (Z * MessageParser) :=
  '(_, p1) ← append_data p chunk; parse_messages p1.

(** The chunks of a stream fed in order; the counts are summed. *)
Fixpoint feed_all (p : MessageParser) (chunks : list (list byte))
    : option (Z * MessageParser) :=
  match chunks with
  | [] => Some (0, p)
  | chunk :: rest =>
      '(n, p1) ← feed p chunk;
      '(m, p2) ← feed_all p1 rest;
      Some (n + m, p2)
  end.

End Parser.

(** * Frames on the wire *)
Module Frames.
Import Protocol TickGenerator Parser.

(** A message of one of the three kinds, as the generator builds it. *)
Inductive Frame : Type :=
| TradeFrame (h : MessageHeader) (p : TradePayload)
| QuoteFrame (h : MessageHeader) (p : QuotePayload)
| HeartbeatFrame (h : MessageHeader).

Definition frame_header (f : Frame) : MessageHeader :=
  match f with
  | TradeFrame h _ | QuoteFrame h _ | HeartbeatFrame h => h
  end.

Definition frame_kind (f : Frame) : Z :=
  match f with
  | TradeFrame _ _ => TRADE
  | QuoteFrame _ _ => QUOTE
  | HeartbeatFrame _ => HEARTBEAT
  end.

Definition frame_seq (f : Frame) : Z := sequence_number (frame_header f).

Definition payload_bytes (f : Frame) : list byte :=
  match f with
  | TradeFrame _ p => trade_bytes p
  | QuoteFrame _ p => quote_bytes p
  | HeartbeatFrame _ => []
  end.

(** The bytes the generator emits for the frame. *)
Definition frame_bytes (f : Frame) : list byte :=
  match f with
  | TradeFrame h p => trade_message h p
  | QuoteFrame h p => quote_message h p
  | HeartbeatFrame h => heartbeat_message h
  end.

(** The fields fit their types and the header's kind is the payload's. *)
Definition frame_ok (f : Frame) : Prop :=
  header_fits (frame_header f) /\
  message_type (frame_header f) = frame_kind f /\
  match f with
  | TradeFrame _ p => trade_fits p
  | QuoteFrame _ p => quote_fits p
  | HeartbeatFrame _ => True
  end.

(** The kind-specific callback invocation that delivers the frame. *)
Definition frame_call (f : Frame) : Call :=
  match f with
  | TradeFrame h p => OnTrade h p
  | QuoteFrame h p => OnQuote h p
  | HeartbeatFrame h => OnHeartbeat h
  end.

(** The stream of a list of frames. *)
Definition stream (fs : list Frame) : list byte := concat (map frame_bytes fs).

(** Each frame carries the sequence number after its predecessor's. *)
Fixpoint consecutive (fs : list Frame) : Prop :=
  match fs with
  | f :: ((g :: _) as rest) => frame_seq g = wrap32 (frame_seq f + 1) /\ consecutive rest
  | _ => True
  end.

(** Whether accepting a frame numbered [seq] in state [p] reports a gap. *)
Definition is_gap (p : MessageParser) (seq : Z) : bool :=
  negb (first_message p) && negb (seq =? expected_sequence p).

(** The class invariant of [MessageParser]: the cursors stay inside a
    buffer whose size stays between the initial and the maximal one. *)
Definition parser_ok (p : MessageParser) : Prop :=
  INITIAL_BUFFER_SIZE <= buffer_size p <= MAX_BUFFER_SIZE /\
  0 <= read_pos p /\ write_pos p <= buffer_size p.

(** [p'] is [p] after one more frame [f] was accepted, [rest] staying
    unread. *)
Definition accepted (p : MessageParser) (f : Frame) (rest : list byte)
    (p' : MessageParser) : Prop :=
  pending p' = rest /\
  write_pos p' = write_pos p /\
  buffer_size p' = buffer_size p /\
  callbacks p' = callbacks p /\
  first_message p' = false /\
  expected_sequence p' = wrap32 (frame_seq f + 1) /\
  calls p' =
    calls p ++
    (if is_gap p (frame_seq f) then [OnGap (expected_sequence p) (frame_seq f)] else []) ++
    [frame_call f] /\
  sequence_gaps (stats p') =
    (if is_gap p (frame_seq f) then wrap64 (sequence_gaps (stats p) + 1)
     else sequence_gaps (stats p)) /\
  messages_parsed (stats p') = wrap64 (messages_parsed (stats p) + 1) /\
  checksum_errors (stats p') = checksum_errors (stats p) /\
  malformed_messages (stats p') = malformed_messages (stats p).

(** The parser is ready for the frames [fs]: it has seen no frame yet, or it
    expects the number of the first of them. *)
Definition expects (p : MessageParser) (fs : list Frame) : Prop :=
  match fs with
  | [] => True
  | f :: _ => first_message p = true \/ expected_sequence p = frame_seq f
  end.

(** The unread bytes stop short of the next frame's end. *)
Definition short (p : MessageParser) (fs : list Frame) : Prop :=
  match fs with
  | [] => pending p = []
  | f :: _ => size (pending p) < size (frame_bytes f)
  end.

(** [p'] is [p] after the frames [done] at the read cursor were accepted in
    order, without a gap or an error. *)
Definition delivered (p : MessageParser) (done : list Frame) (p' : MessageParser)
    : Prop :=
  pending p = stream done ++ pending p' /\
  write_pos p' = write_pos p /\
  buffer_size p' = buffer_size p /\
  callbacks p' = callbacks p /\
  calls p' = calls p ++ map frame_call done /\
  sequence_gaps (stats p') = sequence_gaps (stats p) /\
  checksum_errors (stats p') = checksum_errors (stats p) /\
  malformed_messages (stats p') = malformed_messages (stats p).

(** The header a kind-specific callback was handed; none for [OnGap]. *)
Definition call_header (c : Call) : option MessageHeader :=
  match c with
  | OnTrade h _ | OnQuote h _ | OnHeartbeat h => Some h
  | OnGap _ _ => None
  end.

(** The message kind a callback serves. *)
Definition call_kind (c : Call) : option Z :=
  match c with
  | OnTrade _ _ => Some TRADE
  | OnQuote _ _ => Some QUOTE
  | OnHeartbeat _ => Some HEARTBEAT
  | OnGap _ _ => None
  end.

(** The header of the last frame delivered, read off the callback log. *)
Fixpoint last_accepted (cs : list Call) : option MessageHeader :=
  match cs with
  | [] => None
  | c :: rest =>
      match last_accepted rest with
      | Some h => Some h
      | None => call_header c
      end
  end.

(** The sequence invariant: before any frame is accepted the parser still
    waits for its first message; afterwards it expects the successor, modulo
    2^32, of the last accepted frame's number. *)
Definition sequence_tracked (p : MessageParser) : Prop :=
  match last_accepted (calls p) with
  | Some h =>
      first_message p = false /\
      expected_sequence p = wrap32 (sequence_number h + 1)
  | None => first_message p = true
  end.

(** The states a consumer drives the parser through: a new parser with the
    four callbacks registered, then any interleaving of [append_data],
    [parse_one] and [parse_messages]. *)
Inductive reachable : MessageParser -> Prop :=
| reach_new : reachable (new_parser all_callbacks)
| reach_append_data p data n p' :
    reachable p -> append_data p data = Some (n, p') -> reachable p'
| reach_parse_one p r p' :
    reachable p -> parse_one p = (r, p') -> reachable p'
| reach_parse_messages p n p' :
    reachable p -> parse_messages p = Some (n, p') -> reachable p'.

(** The largest chunk that fits next to a partial frame once the buffer has
    doubled from its initial size. *)
Definition MAX_CHUNK : Z := 2 * INITIAL_BUFFER_SIZE - (QUOTE_MSG_SIZE - 1).

(** Everything but the buffer is as before. *)
Definition same_session (p p' : MessageParser) : Prop :=
  expected_sequence p' = expected_sequence p /\
  first_message p' = first_message p /\
  callbacks p' = callbacks p /\
  stats p' = stats p /\
  calls p' = calls p.

(** The per-kind counter a frame bumps. *)
Definition count_kind (f : Frame) : Stats -> Stats :=
  match f with
  | TradeFrame _ _ => add_trades_parsed
  | QuoteFrame _ _ => add_quotes_parsed
  | HeartbeatFrame _ => fun s => s
  end.

(** What one [parse_one] does to the sequence state and the callback log. *)
Inductive parse_one_outcome (p : MessageParser) (r : ParseResult) (p' : MessageParser)
    : Prop :=
| outcome_wait : r = NEED_MORE_DATA -> p' = p -> parse_one_outcome p r p'
| outcome_skip :
    r = INVALID_MESSAGE \/ r = CHECKSUM_ERROR ->
    calls p' = calls p -> first_message p' = first_message p ->
    expected_sequence p' = expected_sequence p -> callbacks p' = callbacks p ->
    parse_one_outcome p r p'
| outcome_accept c :
    let h := view_header (pending p) in
    let gap := is_gap p (sequence_number h) in
    r = (if gap then SEQUENCE_GAP else SUCCESS) ->
    call_header c = Some h -> call_kind c = Some (message_type h) ->
    calls p' =
      calls p ++ (if gap then [OnGap (expected_sequence p) (sequence_number h)] else [])
        ++ [c] ->
    first_message p' = false ->
    expected_sequence p' = wrap32 (sequence_number h + 1) ->
    callbacks p' = callbacks p ->
    sequence_gaps (stats p') =
      (if gap then wrap64 (sequence_gaps (stats p) + 1) else sequence_gaps (stats p)) ->
    parse_one_outcome p r p'.

End Frames.

(** * cache.cpp: the symbol cache *)
Module Cache.

Definition MAX_SYMBOLS : Z := 500.

(** [struct MarketState]; the prices are binary64 values. *)
Record MarketState : Type := mkState {
  best_bid : float;
  best_ask : float;
  bid_quantity : Z;
  ask_quantity : Z;
  last_traded_price : float;
  last_traded_quantity : Z;
  last_update_time : Z;
  update_count : Z;
  opening_price : float
}.

(** [MarketState{}] *)
Definition empty_state : MarketState :=
  mkState PrimFloat.zero PrimFloat.zero 0 0 PrimFloat.zero 0 0 0 PrimFloat.zero.

(** [struct SymbolEntry]: the seqlock counter and the state it guards. *)
Record SymbolEntry : Type := mkEntry {
  sequence : Z;
  state : MarketState
}.

(** [class SymbolCache]: [entries_] is the array of [MAX_SYMBOLS] entries. *)
Record SymbolCache : Type := mkCache {
  num_symbols : Z;
  entries : list SymbolEntry
}.

(** [entries_[symbol_id]] read; out of range only outside the guards. *)
Definition entry (c : SymbolCache) (symbol_id : Z) : SymbolEntry :=
  default (mkEntry 0 empty_state) (entries c !! Z.to_nat symbol_id).

Definition with_entry (f : SymbolEntry -> SymbolEntry) (symbol_id : Z)
    (c : SymbolCache) : SymbolCache :=
  mkCache (num_symbols c) (alter f (Z.to_nat symbol_id) (entries c)).

(** [reset]: every counter to 0, every state to [MarketState{}]. *)
Definition reset (c : SymbolCache) : SymbolCache :=
  mkCache (num_symbols c) (replicate (Z.to_nat MAX_SYMBOLS) (mkEntry 0 empty_state)).

(** [SymbolCache::SymbolCache(num_symbols)] *)
Definition new_cache (n : Z) : SymbolCache :=
  reset (mkCache (Z.min n MAX_SYMBOLS) []).

(** [entry.sequence.store(seq + 1)] of [begin_write] and of [end_write]. *)
Definition bump_sequence (e : SymbolEntry) : SymbolEntry :=
  mkEntry (wrap64 (sequence e + 1)) (state e).

Definition begin_write (c : SymbolCache) (symbol_id : Z) : SymbolCache :=
  if num_symbols c <=? symbol_id then c else with_entry bump_sequence symbol_id c.

Definition end_write (c : SymbolCache) (symbol_id : Z) : SymbolCache :=
  if num_symbols c <=? symbol_id then c else with_entry bump_sequence symbol_id c.

(** One assignment to a field of [entries_[symbol_id].state]. *)
Definition store (f : MarketState -> MarketState) (symbol_id : Z)
    (c : SymbolCache) : SymbolCache :=
  with_entry (fun e => mkEntry (sequence e) (f (state e))) symbol_id c.

Definition set_best_bid (v : float) (s : MarketState) : MarketState :=
  mkState v (best_ask s) (bid_quantity s) (ask_quantity s) (last_traded_price s)
    (last_traded_quantity s) (last_update_time s) (update_count s) (opening_price s).
Definition set_best_ask (v : float) (s : MarketState) : MarketState :=
  mkState (best_bid s) v (bid_quantity s) (ask_quantity s) (last_traded_price s)
    (last_traded_quantity s) (last_update_time s) (update_count s) (opening_price s).
Definition set_bid_quantity (v : Z) (s : MarketState) : MarketState :=
  mkState (best_bid s) (best_ask s) v (ask_quantity s) (last_traded_price s)
    (last_traded_quantity s) (last_update_time s) (update_count s) (opening_price s).
Definition set_ask_quantity (v : Z) (s : MarketState) : MarketState :=
  mkState (best_bid s) (best_ask s) (bid_quantity s) v (last_traded_price s)
    (last_traded_quantity s) (last_update_time s) (update_count s) (opening_price s).
Definition set_last_traded_price (v : float) (s : MarketState) : MarketState :=
  mkState (best_bid s) (best_ask s) (bid_quantity s) (ask_quantity s) v
    (last_traded_quantity s) (last_update_time s) (update_count s) (opening_price s).
Definition set_last_traded_quantity (v : Z) (s : MarketState) : MarketState :=
  mkState (best_bid s) (best_ask s) (bid_quantity s) (ask_quantity s)
    (last_traded_price s) v (last_update_time s) (update_count s) (opening_price s).
Definition set_last_update_time (v : Z) (s : MarketState) : MarketState :=
  mkState (best_bid s) (best_ask s) (bid_quantity s) (ask_quantity s)
    (last_traded_price s) (last_traded_quantity s) v (update_count s) (opening_price s).
(** [state.update_count++] *)
Definition count_update (s : MarketState) : MarketState :=
  mkState (best_bid s) (best_ask s) (bid_quantity s) (ask_quantity s)
    (last_traded_price s) (last_traded_quantity s) (last_update_time s)
    (wrap64 (update_count s + 1)) (opening_price s).
(** [if (state.opening_price == 0.0) state.opening_price = v;] *)
Definition open_at (v : float) (s : MarketState) : MarketState :=
  if PrimFloat.eqb (opening_price s) PrimFloat.zero then
    mkState (best_bid s) (best_ask s) (bid_quantity s) (ask_quantity s)
      (last_traded_price s) (last_traded_quantity s) (last_update_time s)
      (update_count s) v
  else s.

(** The cache after each step of a write in progress: [c] itself, which
    [begin_write] left, then the cache after each of the [stores] in turn. *)
Fixpoint during (symbol_id : Z) (stores : list (MarketState -> MarketState))
    (c : SymbolCache) : list SymbolCache :=
  match stores with
  | [] => [c]
  | f :: rest => c :: during symbol_id rest (store f symbol_id c)
  end.

Definition run_stores (symbol_id : Z) (stores : list (MarketState -> MarketState))
    (c : SymbolCache) : SymbolCache :=
  fold_left (fun c f => store f symbol_id c) stores c.

(** The shape shared by the four writers: range guard, [begin_write], the
    assignments, [end_write]. *)
Definition write (symbol_id : Z) (stores : list (MarketState -> MarketState))
    (c : SymbolCache) : SymbolCache :=
  if num_symbols c <=? symbol_id then c
  else end_write (run_stores symbol_id stores (begin_write c symbol_id)) symbol_id.

Definition quote_stores (bid_price : float) (bid_qty : Z) (ask_price : float)
    (ask_qty : Z) (timestamp : Z) : list (MarketState -> MarketState) :=
  [set_best_bid bid_price; set_bid_quantity bid_qty; set_best_ask ask_price;
   set_ask_quantity ask_qty; set_last_update_time timestamp; count_update;
   open_at (PrimFloat.div (PrimFloat.add bid_price ask_price) 2%float)].

Definition trade_stores (price : float) (quantity : Z) (timestamp : Z)
    : list (MarketState -> MarketState) :=
  [set_last_traded_price price; set_last_traded_quantity quantity;
   set_last_update_time timestamp; count_update; open_at price].

Definition bid_stores (price : float) (quantity : Z) (timestamp : Z)
    : list (MarketState -> MarketState) :=
  [set_best_bid price; set_bid_quantity quantity; set_last_update_time timestamp;
   count_update].

Definition ask_stores (price : float) (quantity : Z) (timestamp : Z)
    : list (MarketState -> MarketState) :=
  [set_best_ask price; set_ask_quantity quantity; set_last_update_time timestamp;
   count_update].

Definition update_quote (c : SymbolCache) (symbol_id : Z) (bid_price : float)
    (bid_qty : Z) (ask_price : float) (ask_qty : Z) (timestamp : Z) : SymbolCache :=
  write symbol_id (quote_stores bid_price bid_qty ask_price ask_qty timestamp) c.

Definition update_trade (c : SymbolCache) (symbol_id : Z) (price : float)
    (quantity : Z) (timestamp : Z) : SymbolCache :=
  write symbol_id (trade_stores price quantity timestamp) c.

Definition update_bid (c : SymbolCache) (symbol_id : Z) (price : float)
    (quantity : Z) (timestamp : Z) : SymbolCache :=
  write symbol_id (bid_stores price quantity timestamp) c.

Definition update_ask (c : SymbolCache) (symbol_id : Z) (price : float)
    (quantity : Z) (timestamp : Z) : SymbolCache :=
  write symbol_id (ask_stores price quantity timestamp) c.

(** One call of a writer, with its arguments. *)
Inductive Update : Type :=
| Quote (bid_price : float) (bid_qty : Z) (ask_price : float) (ask_qty : Z) (timestamp : Z)
| Trade (price : float) (quantity : Z) (timestamp : Z)
| Bid (price : float) (quantity : Z) (timestamp : Z)
| Ask (price : float) (quantity : Z) (timestamp : Z).

Definition stores_of (u : Update) : list (MarketState -> MarketState) :=
  match u with
  | Quote bp bq ap aq ts => quote_stores bp bq ap aq ts
  | Trade p q ts => trade_stores p q ts
  | Bid p q ts => bid_stores p q ts
  | Ask p q ts => ask_stores p q ts
  end.

Definition apply_update (c : SymbolCache) (symbol_id : Z) (u : Update) : SymbolCache :=
  match u with
  | Quote bp bq ap aq ts => update_quote c symbol_id bp bq ap aq ts
  | Trade p q ts => update_trade c symbol_id p q ts
  | Bid p q ts => update_bid c symbol_id p q ts
  | Ask p q ts => update_ask c symbol_id p q ts
  end.

Definition timestamp_of (u : Update) : Z :=
  match u with
  | Quote _ _ _ _ ts | Trade _ _ ts | Bid _ _ ts | Ask _ _ ts => ts
  end.

(** The caches the single writer leaves between calls: a new cache, then any
    completed writer calls. *)
Inductive quiescent : SymbolCache -> Prop :=
| quiescent_new n : quiescent (new_cache n)
| quiescent_update c symbol_id u :
    quiescent c -> 0 <= symbol_id < 2 ^ 16 ->
    quiescent (apply_update c symbol_id u).

(** The array holds an entry for every symbol the guards let through. *)
Definition cache_ok (c : SymbolCache) : Prop :=
  num_symbols c <= Z.of_nat (length (entries c)).

(** The assignments of one writer, applied to the state in order. *)
Definition assign (stores : list (MarketState -> MarketState)) (s : MarketState)
    : MarketState :=
  fold_left (fun s f => f s) stores s.

End Cache.

(** * cache.cpp: the latency tracker *)
Module Latency.

Definition RING_BUFFER_SIZE : Z := 2 ^ 20.
Definition NUM_BUCKETS : Z := 1000.
Definition BUCKET_WIDTH_NS : Z := 1000.
Definition MAX_TRACKED_NS : Z := NUM_BUCKETS * BUCKET_WIDTH_NS.

(** [struct LatencyStats] *)
Record LatencyStats : Type := mkLatencyStats {
  min : Z;
  max : Z;
  mean : Z;
  p50 : Z;
  p95 : Z;
  p99 : Z;
  p999 : Z;
  sample_count : Z
}.

(** The default member initialisers of [LatencyStats]. *)
Definition default_stats : LatencyStats :=
  mkLatencyStats UINT64_MAX 0 0 0 0 0 0 0.

(** [class LatencyTracker].  The ring buffer is kept as the map of the slots
    written since the last reset, the others holding 0. *)
Record LatencyTracker : Type := mkTracker {
  ring_buffer : gmap Z Z;
  write_index : Z;
  histogram : list Z;
  overflow_count : Z;
  sample_count_ : Z;
  sum_ : Z;
  min_ : Z;
  max_ : Z
}.

(** [reset] *)
Definition reset (t : LatencyTracker) : LatencyTracker :=
  mkTracker ∅ 0 (replicate (Z.to_nat NUM_BUCKETS) 0) 0 0 0 UINT64_MAX 0.

(** [LatencyTracker::LatencyTracker()] *)
Definition new_tracker : LatencyTracker :=
  reset (mkTracker ∅ 0 [] 0 0 0 UINT64_MAX 0).

(** [record]; the compare-exchange loops are the single writer's. *)
Definition record (t : LatencyTracker) (latency_ns : Z) : LatencyTracker :=
  let sample_count' := wrap64 (sample_count_ t + 1) in
  let sum' := wrap64 (sum_ t + latency_ns) in
  let min' := if latency_ns <? min_ t then latency_ns else min_ t in
  let max' := if max_ t <? latency_ns then latency_ns else max_ t in
  let histogram' :=
    if latency_ns <? MAX_TRACKED_NS then
      alter (fun n => wrap64 (n + 1)) (Z.to_nat (latency_ns / BUCKET_WIDTH_NS))
        (histogram t)
    else histogram t in
  let overflow' :=
    if latency_ns <? MAX_TRACKED_NS then overflow_count t
    else wrap64 (overflow_count t + 1) in
  let idx := write_index t in
  mkTracker (<[idx mod RING_BUFFER_SIZE := latency_ns]> (ring_buffer t))
    (wrap64 (idx + 1)) histogram' overflow' sample_count' sum' min' max'.

(** The conversion of a [uint64_t] to [double]: round to nearest, ties to
    even. *)
Definition double_of_uint64 (n : Z) : float :=
  SF2Prim (binary_normalize 53 1024 n 0 false).

(** [static_cast<uint64_t>] of a [double]: the fractional part is dropped.
    C++ defines it for finite values in [0, 2^64) only; [get_stats] stays
    inside that range, and the model answers 0 for a negative value, an
    infinity or a NaN. *)
Definition uint64_of_double (f : float) : Z :=
  match Prim2SF f with
  | S754_finite false m e =>
      if 0 <=? e then Z.pos m * 2 ^ e else Z.pos m / 2 ^ (- e)
  | _ => 0
  end.

(** [static_cast<uint64_t>((percentile / 100.0) * total)] *)
Definition target_count (percentile : float) (total : Z) : Z :=
  uint64_of_double
    (PrimFloat.mul (PrimFloat.div percentile 100%float) (double_of_uint64 total)).

(** The [for] loop of [percentile_from_histogram] from bucket [i] on, with
    the count accumulated so far, and its fall-through to [max_]. *)
Fixpoint scan (target max_seen : Z) (i cumulative : Z) (buckets : list Z) : Z :=
  match buckets with
  | [] => max_seen
  | count :: rest =>
      let cumulative := wrap64 (cumulative + count) in
      if target <=? cumulative then i * BUCKET_WIDTH_NS + BUCKET_WIDTH_NS / 2
      else scan target max_seen (i + 1) cumulative rest
  end.

(** [percentile_from_histogram] *)
Definition percentile_from_histogram (t : LatencyTracker) (percentile : float) : Z :=
  let total := sample_count_ t in
  if total =? 0 then 0
  else scan (target_count percentile total) (max_ t) 0 0 (histogram t).

(** 99.9, the nearest binary64 value, as the compiler reads the literal. *)
Definition pct_99_9 : float := 0x1.8f9999999999ap+6%float.

(** [get_stats] *)
Definition get_stats (t : LatencyTracker) : LatencyStats :=
  let stats := default_stats in
  let count := sample_count_ t in
  if count =? 0 then
    mkLatencyStats 0 (max stats) (mean stats) (p50 stats) (p95 stats) (p99 stats)
      (p999 stats) count
  else
    mkLatencyStats (min_ t) (max_ t) (sum_ t / count)
      (percentile_from_histogram t 50%float)
      (percentile_from_histogram t 95%float)
      (percentile_from_histogram t 99%float)
      (percentile_from_histogram t pct_99_9)
      count.

(** The count accumulated by the loop when it has added bucket [i]. *)
Definition cumulative (buckets : list Z) (i : nat) : Z :=
  fold_left (fun acc count => wrap64 (acc + count)) (firstn (S i) buckets) 0.

(** The percentile as the specification words it: the target count is
    ⌈p · total⌉, here for p = [num] / [den] percent, and the answer is the
    midpoint of the first bucket at which the cumulative count reaches it,
    or the observed maximum if that is the overflow bucket. *)
Definition ceiling_target (num den total : Z) : Z :=
  (num * total + 100 * den - 1) / (100 * den).

Definition nearest_rank_percentile (t : LatencyTracker) (num den : Z) : Z :=
  scan (ceiling_target num den (sample_count_ t)) (max_ t) 0 0 (histogram t).

(** The count accumulated from [start] over [buckets]. *)
Definition accumulate (start : Z) (buckets : list Z) : Z :=
  fold_left (fun acc count => wrap64 (acc + count)) buckets start.

End Latency.

(** * The kernel side of a subscriber's socket *)
Module Kernel.

(** A connected, non-blocking TCP socket as the publisher sees it: the
    bytes queued in the send buffer and not yet taken by the peer (what
    [TIOCOUTQ] reports), the size of the send buffer, whether the
    connection is still up, and the byte ranges [send] accepted so far,
    oldest first. *)
Record Socket : Type := mkSocket {
  outq : Z;
  sndbuf : Z;
  connected : bool;
  accepted : list (list byte)
}.

(** The sockets of the process, by descriptor.  Between two calls of the
    publisher the peers may drain any of the queues. *)
Abbreviation Sockets := (gmap Z Socket).

(** What [::send(fd, data, len, MSG_NOSIGNAL)] returns. *)
Inductive SendResult : Type :=
| Sent (n : Z)
| WouldBlock
| SendError.

(** [ioctl(fd, TIOCOUTQ, &pending)]: the queue depth, or failure. *)
Definition tiocoutq (k : Sockets) (fd : Z) : option Z :=
  s ← k !! fd; if connected s then Some (outq s) else None.

(** A non-blocking [send]: an error on a dead socket, [EAGAIN] when the
    send buffer is full, and otherwise as many bytes as fit are queued. *)
Definition send (k : Sockets) (fd : Z) (data : list byte) : SendResult * Sockets :=
  match k !! fd with
  | None => (SendError, k)
  | Some s =>
      if negb (connected s) then (SendError, k)
      else
        let room := sndbuf s - outq s in
        if room <=? 0 then (WouldBlock, k)
        else
          let n := Z.min (size data) room in
          (Sent n,
           <[fd := mkSocket (outq s + n) (sndbuf s) (connected s)
                     (accepted s ++ [firstn (Z.to_nat n) data])]> k)
  end.

End Kernel.

(** * The client manager *)
Module ClientManager.
Import Kernel.

Definition MAX_SEND_BUFFER_SIZE : Z := 4 * 1024 * 1024.
Definition SLOW_CONSUMER_THRESHOLD : Z := 1 * 1024 * 1024.

(** [struct ClientConnection]; the time points are clock readings. *)
Record ClientConnection : Type := mkClient {
  fd : Z;
  address : list byte;
  port : Z;
  subscribed_symbols : gset Z;
  subscribe_all : bool;
  pending_bytes : Z;
  slow_consumer_count : Z;
  is_slow : bool;
  messages_sent : Z;
  bytes_sent : Z;
  connect_time : Z;
  last_activity : Z
}.

(** [class ClientManager] *)
Record ClientManager : Type := mkManager {
  clients : gmap Z ClientConnection;
  slow_threshold : Z;
  total_messages_sent : Z;
  total_bytes_sent : Z
}.

Definition new_manager : ClientManager :=
  mkManager ∅ SLOW_CONSUMER_THRESHOLD 0 0.

Definition with_clients (f : gmap Z ClientConnection -> gmap Z ClientConnection)
    (cm : ClientManager) : ClientManager :=
  mkManager (f (clients cm)) (slow_threshold cm) (total_messages_sent cm)
    (total_bytes_sent cm).

Definition set_pending_bytes (v : Z) (c : ClientConnection) : ClientConnection :=
  mkClient (fd c) (address c) (port c) (subscribed_symbols c) (subscribe_all c) v
    (slow_consumer_count c) (is_slow c) (messages_sent c) (bytes_sent c)
    (connect_time c) (last_activity c).

(** [is_slow = true; slow_consumer_count++] *)
Definition marked_slow (c : ClientConnection) : ClientConnection :=
  mkClient (fd c) (address c) (port c) (subscribed_symbols c) (subscribe_all c)
    (pending_bytes c) (wrap64 (slow_consumer_count c + 1)) true (messages_sent c)
    (bytes_sent c) (connect_time c) (last_activity c).

(** [is_slow = false] *)
Definition cleared_slow (c : ClientConnection) : ClientConnection :=
  mkClient (fd c) (address c) (port c) (subscribed_symbols c) (subscribe_all c)
    (pending_bytes c) (slow_consumer_count c) false (messages_sent c)
    (bytes_sent c) (connect_time c) (last_activity c).

(** [messages_sent++; bytes_sent += len; last_activity = now] *)
Definition counted_send (len now : Z) (c : ClientConnection) : ClientConnection :=
  mkClient (fd c) (address c) (port c) (subscribed_symbols c) (subscribe_all c)
    (pending_bytes c) (slow_consumer_count c) (is_slow c)
    (wrap64 (messages_sent c + 1)) (wrap64 (bytes_sent c + len))
    (connect_time c) now.

(** [add_client], after the socket options are set. *)
Definition add_client (cm : ClientManager) (fd : Z) (address : list byte)
    (port : Z) (now : Z) : bool * ClientManager :=
  match clients cm !! fd with
  | Some _ => (false, cm)
  | None =>
      (true,
       with_clients
         (insert fd (mkClient fd address port ∅ true 0 0 false 0 0 now now)) cm)
  end.

Definition mark_slow_consumer (cm : ClientManager) (fd : Z) : ClientManager :=
  with_clients (alter marked_slow fd) cm.

Definition clear_slow_status (cm : ClientManager) (fd : Z) : ClientManager :=
  with_clients (alter cleared_slow fd) cm.

(** [get_pending_bytes] *)
Definition get_pending_bytes (k : Sockets) (fd : Z) : Z :=
  match tiocoutq k fd with
  | None => 0
  | Some pending => pending
  end.

(** [send_to_client] *)
Definition send_to_client (cm : ClientManager) (k : Sockets) (fd : Z)
    (data : list byte) : bool * ClientManager * Sockets :=
  match clients cm !! fd with
  | None => (false, cm, k)
  | Some _ =>
      let pending := get_pending_bytes k fd in
      let cm := with_clients (alter (set_pending_bytes pending) fd) cm in
      if slow_threshold cm <? pending then (false, mark_slow_consumer cm fd, k)
      else
        match send k fd data with
        | (WouldBlock, k') => (false, mark_slow_consumer cm fd, k')
        | (SendError, k') => (false, cm, k')
        | (Sent sent, k') =>
            if sent <? size data then (false, mark_slow_consumer cm fd, k')
            else
              let slow := match clients cm !! fd with
                          | Some client => is_slow client
                          | None => false
                          end in
              if slow && (pending <? slow_threshold cm / 2)
              then (true, clear_slow_status cm fd, k')
              else (true, cm, k')
        end
  end.

(** [get_all_client_fds] *)
Definition get_all_client_fds (cm : ClientManager) : list Z :=
  (map_to_list (clients cm)).*1.

(** The body of the loop of [broadcast] for the entry of [fd]. *)
Definition broadcast_one (data : list byte) (symbol_id now : Z)
    (acc : Z * ClientManager * Sockets) (fd : Z) : Z * ClientManager * Sockets :=
  let '(count, cm, k) := acc in
  match clients cm !! fd with
  | None => acc
  | Some client =>
      if is_slow client then acc
      else if negb (subscribe_all client)
              && negb (bool_decide (symbol_id ∈ subscribed_symbols client))
      then acc
      else
        let '(ok, cm', k') := send_to_client cm k fd data in
        if ok then
          (count + 1, with_clients (alter (counted_send (size data) now) fd) cm', k')
        else (count, cm', k')
  end.

(** [broadcast]: the entries are visited in the order of the table. *)
Definition broadcast (cm : ClientManager) (k : Sockets) (data : list byte)
    (symbol_id now : Z) : Z * ClientManager * Sockets :=
  let '(count, cm', k') :=
    fold_left (broadcast_one data symbol_id now) (get_all_client_fds cm) (0, cm, k) in
  (count,
   mkManager (clients cm') (slow_threshold cm')
     (wrap64 (total_messages_sent cm' + count))
     (wrap64 (total_bytes_sent cm' + count * size data)),
   k').

(** The loop body of [ExchangeSimulator::send_heartbeat]: the return value
    of [send_to_client] is dropped. *)
Definition heartbeat_one (heartbeat : list byte) (acc : ClientManager * Sockets)
    (fd : Z) : ClientManager * Sockets :=
  let '(_, cm', k') := send_to_client acc.1 acc.2 fd heartbeat in (cm', k').

(** [ExchangeSimulator::send_heartbeat], for the heartbeat the generator
    wrote: [send_to_client] for every descriptor of [get_all_client_fds]. *)
Definition send_heartbeat (cm : ClientManager) (k : Sockets) (heartbeat : list byte)
    : ClientManager * Sockets :=
  fold_left (heartbeat_one heartbeat) (get_all_client_fds cm) (cm, k).

(** The sockets [k'] differ from [k] only by byte ranges of [data] that
    were accepted in between: nothing else was handed to any socket. *)
Definition hands_only (data : list byte) (k k' : Sockets) : Prop :=
  forall fd s',
    k' !! fd = Some s' ->
    exists s extra,
      k !! fd = Some s /\ accepted s' = accepted s ++ extra /\
      Forall (fun range => exists n, range = firstn n data) extra.

End ClientManager.

(** * memory_pool.cpp *)
Module MemoryPool.

Definition DEFAULT_BLOCK_SIZE : Z := 4096.
Definition DEFAULT_POOL_SIZE : Z := 1024.
Definition CACHE_LINE_SIZE : Z := 64.

(** [sizeof(FreeNode)]: one pointer, aligned to the cache line. *)
Definition SIZEOF_FREE_NODE : Z := 64.

(** The size of a pointer: the bytes the [next] field of a node takes. *)
Definition SIZEOF_POINTER : Z := 8.

(** Pointers are addresses; [nullptr] is 0. *)
Definition nullptr : Z := 0.

(** [class MemoryPool].  [next_of] holds the links the pool has stored and
    that are still whole, by the address of the node: what
    [node->next.load()] returns there. *)
Record MemoryPool : Type := mkPool {
  block_size : Z;
  num_blocks : Z;
  aligned_base : Z;
  next_of : gmap Z Z;
  free_list : Z;
  allocated_count : Z
}.

(** [node->next.store(v)]: the 8 bytes from [node] on now hold [v].  A link
    stored less than 8 bytes away shares some of them; it is overwritten in
    part and no longer held. *)
Definition store_next (links : gmap Z Z) (node v : Z) : gmap Z Z :=
  <[node := v]> (filter (fun link => SIZEOF_POINTER <= Z.abs (link.1 - node)) links).

(** [(x + CACHE_LINE_SIZE - 1) & ~(CACHE_LINE_SIZE - 1)] on 64 bits. *)
Definition align_up (x : Z) : Z :=
  Z.land (wrap64 (x + CACHE_LINE_SIZE - 1)) (wrap64 (Z.lnot (CACHE_LINE_SIZE - 1))).

(** [block_size_ * num_blocks_], a [size_t] product. *)
Definition arena_size (pool : MemoryPool) : Z :=
  wrap64 (block_size pool * num_blocks pool).

(** [aligned_base_ + (block_size_ * num_blocks_)]: one past the last byte of
    the arena.  The pointer sum is taken as it is: a sum that left the
    address space would be undefined. *)
Definition arena_end (pool : MemoryPool) : Z :=
  aligned_base pool + arena_size pool.

(** [total_size] of the constructor: the bytes of storage it asks for. *)
Definition total_size (pool : MemoryPool) : Z :=
  wrap64 (arena_size pool + CACHE_LINE_SIZE).

(** [aligned_base_ + (i * block_size_)]: the address of block [i], the
    product again in [size_t]. *)
Definition block_at (base size i : Z) : Z := base + wrap64 (i * size).

Definition block (pool : MemoryPool) (i : Z) : Z :=
  block_at (aligned_base pool) (block_size pool) i.

(** The loop of [reset]: block [i] is pushed in front of [head]. *)
Definition push_block (base size : Z) (acc : gmap Z Z * Z) (i : Z) : gmap Z Z * Z :=
  let node := block_at base size i in
  (store_next acc.1 node acc.2, node).

(** [reset] *)
Definition reset (pool : MemoryPool) : MemoryPool :=
  let built :=
    fold_left (push_block (aligned_base pool) (block_size pool))
      (seqZ 0 (num_blocks pool)) (next_of pool, nullptr) in
  mkPool (block_size pool) (num_blocks pool) (aligned_base pool) built.1 built.2 0.

(** [MemoryPool::MemoryPool(block_size, num_blocks)], [make_unique] having
    returned the address [storage] for [total_size] bytes.  The sizes are
    computed as the code computes them; where they wrap, the blocks [reset]
    links need not lie inside those bytes. *)
Definition new_pool (size count storage : Z) : MemoryPool :=
  reset (mkPool (align_up (Z.max size SIZEOF_FREE_NODE)) count (align_up storage)
           ∅ nullptr 0).

(** [allocate]: the head of the free list, or [nullptr]; the
    compare-exchange succeeds at once in the absence of other threads.
    [None] where the head is a node whose link the pool does not hold
    whole: the load then returns bytes the model has no account of. *)
Definition allocate (pool : MemoryPool) : option (Z * MemoryPool) :=
  let node := free_list pool in
  if node =? nullptr then Some (nullptr, pool)
  else
    next ← next_of pool !! node;
    Some (node,
          mkPool (block_size pool) (num_blocks pool) (aligned_base pool) (next_of pool)
            next (wrap64 (allocated_count pool + 1))).

(** [deallocate] *)
Definition deallocate (pool : MemoryPool) (ptr : Z) : MemoryPool :=
  if ptr =? nullptr then pool
  else if (ptr <? aligned_base pool) || (arena_end pool <=? ptr) then pool
  else
    mkPool (block_size pool) (num_blocks pool) (aligned_base pool)
      (store_next (next_of pool) ptr (free_list pool)) ptr
      (wrap64 (allocated_count pool - 1)).

(** [get_allocated_count], [get_available_count] *)
Definition get_allocated_count (pool : MemoryPool) : Z := allocated_count pool.

Definition get_available_count (pool : MemoryPool) : Z :=
  wrap64 (num_blocks pool - get_allocated_count pool).

End MemoryPool.

(** * The parser between reads *)

Module ParserSession.
Import Protocol Parser.

(** [MessageParser::reset]: positions, expected sequence and statistics go
    back to their initial values; the buffer keeps its size and the
    callbacks stay registered. *)
Definition reset (p : MessageParser) : MessageParser :=
  mkParser (buffer_size p) 0 [] 0 true (callbacks p) no_stats (calls p).

(** The bytes the statistics stand for: a whole frame for each message
    counted, one byte for each checksum error and each malformed message. *)
Definition accounted (s : Stats) : Z :=
  TRADE_MSG_SIZE * trades_parsed s + QUOTE_MSG_SIZE * quotes_parsed s +
  HEARTBEAT_MSG_SIZE * (messages_parsed s - trades_parsed s - quotes_parsed s) +
  checksum_errors s + malformed_messages s.

(** The results [parse_messages] counts. *)
Definition is_delivery (r : ParseResult) : bool :=
  match r with SUCCESS | SEQUENCE_GAP => true | _ => false end.

End ParserSession.

Module FeedHandler.
Import Protocol Parser Frames.

(** [FeedHandler::RECV_BUFFER_SIZE] *)
Definition RECV_BUFFER_SIZE : Z := 4 * 1024 * 1024.

(** The parser as [process_data] finds it before each [receive]: less than
    one quote frame unread, the buffer at its initial size or grown once. *)
Definition handler_ok (p : MessageParser) : Prop :=
  parser_ok p /\ size (pending p) < QUOTE_MSG_SIZE /\
  (buffer_size p = INITIAL_BUFFER_SIZE \/ buffer_size p = 2 * INITIAL_BUFFER_SIZE).

End FeedHandler.

(** * The client socket: retry policy and subscription request *)
Module Socket.

(** [MarketDataSocket::MAX_RETRY_COUNT] *)
Definition MAX_RETRY_COUNT : Z := 5.

(** [class MarketDataSocket]: the members the retry policy reads and writes.
    [slept] logs the arguments of [sleep_for], in milliseconds, oldest
    first. *)
Record MarketDataSocket : Type := mkSocketState {
  connected_ : bool;
  reconnect_count_ : Z;
  current_backoff_ms_ : Z;
  slept : list Z
}.

(** [do_connect]: [connected_] is cleared, and set again when every step of
    the connection attempt succeeds, which [outcome] tells. *)
Definition do_connect (s : MarketDataSocket) (outcome : bool) : bool * MarketDataSocket :=
  (outcome,
   mkSocketState outcome (reconnect_count_ s) (current_backoff_ms_ s) (slept s)).

(** [connect]; [event_ok] is the result of [init_event_system]. *)
Definition connect (s : MarketDataSocket) (event_ok outcome : bool)
    : bool * MarketDataSocket :=
  let s := mkSocketState (connected_ s) 0 100 (slept s) in
  if negb event_ok then (false, s) else do_connect s outcome.

(** [reconnect] *)
Definition reconnect (s : MarketDataSocket) (outcome : bool) : bool * MarketDataSocket :=
  if MAX_RETRY_COUNT <=? reconnect_count_ s then (false, s)
  else
    let s := mkSocketState (connected_ s) (wrap32 (reconnect_count_ s + 1))
               (Z.min (wrap32 (current_backoff_ms_ s * 2)) 30000)
               (slept s ++ [current_backoff_ms_ s]) in
    let '(ok, s) := do_connect s outcome in
    if ok then
      (true, mkSocketState (connected_ s) (reconnect_count_ s) 100 (slept s))
    else (false, s).

(** Successive calls of [reconnect], the attempts ending as [outcomes] tell. *)
Fixpoint reconnect_all (s : MarketDataSocket) (outcomes : list bool)
    : list bool * MarketDataSocket :=
  match outcomes with
  | [] => ([], s)
  | outcome :: rest =>
      let '(ok, s1) := reconnect s outcome in
      let '(oks, s2) := reconnect_all s1 rest in
      (ok :: oks, s2)
  end.

(** [send_subscription]: the request written to the socket. *)
Definition subscription_request (symbol_ids : list Z) : list byte :=
  [Byte.xff] ++ le_split 2 (wrap16 (Z.of_nat (length symbol_ids))) ++
  concat (map (le_split 2) symbol_ids).

(** What [connect] and [reconnect] keep: at most five attempts counted, and
    a delay between 100 ms and 100 ms doubled once per attempt. *)
Definition budget_ok (s : MarketDataSocket) : Prop :=
  0 <= reconnect_count_ s <= 5 /\
  100 <= current_backoff_ms_ s <= 100 * 2 ^ reconnect_count_ s.

End Socket.


(** * The client manager: table and subscriptions *)

Module ClientTable.
Import Kernel ClientManager.

(** [remove_client]: the descriptor is closed and the entry erased. *)
Definition remove_client (cm : ClientManager) (k : Sockets) (fd : Z)
    : ClientManager * Sockets :=
  match clients cm !! fd with
  | Some _ => (with_clients (delete fd) cm, delete fd k)
  | None => (cm, k)
  end.

(** [has_client] *)
Definition has_client (cm : ClientManager) (fd : Z) : bool :=
  match clients cm !! fd with Some _ => true | None => false end.

(** [get_client]: the entry, or [nullptr]. *)
Definition get_client (cm : ClientManager) (fd : Z) : option ClientConnection :=
  clients cm !! fd.

(** [client_count]: [clients_.size()] *)
Definition client_count (cm : ClientManager) : Z :=
  Z.of_nat (length (map_to_list (clients cm))).

(** [subscribed_symbols.clear(); subscribe_all = (count == 0);] and the
    inserts. *)
Definition subscribed (symbol_ids : list Z) (c : ClientConnection) : ClientConnection :=
  mkClient (fd c) (address c) (port c) (list_to_set symbol_ids)
    (Z.of_nat (length symbol_ids) =? 0) (pending_bytes c) (slow_consumer_count c)
    (is_slow c) (messages_sent c) (bytes_sent c) (connect_time c) (last_activity c).

(** [handle_subscription] *)
Definition handle_subscription (cm : ClientManager) (fd : Z) (symbol_ids : list Z)
    : bool * ClientManager :=
  match clients cm !! fd with
  | None => (false, cm)
  | Some _ => (true, with_clients (alter (subscribed symbol_ids) fd) cm)
  end.

(** [get_slow_clients] *)
Definition get_slow_clients (cm : ClientManager) : list Z :=
  (filter (fun entry => is_slow entry.2 = true) (map_to_list (clients cm))).*1.

(** [set_slow_threshold] *)
Definition set_slow_threshold (cm : ClientManager) (bytes : Z) : ClientManager :=
  mkManager (clients cm) bytes (total_messages_sent cm) (total_bytes_sent cm).

(** Whether [broadcast] tries the subscriber at all. *)
Definition eligible (symbol_id : Z) (c : ClientConnection) : bool :=
  negb (is_slow c) && (subscribe_all c || bool_decide (symbol_id ∈ subscribed_symbols c)).

(** What the loop body of [broadcast] adds to the count for [fd]. *)
Definition credited (cm : ClientManager) (k : Sockets) (data : list byte)
    (symbol_id : Z) (fd : Z) : bool :=
  match clients cm !! fd with
  | Some c => eligible symbol_id c && (send_to_client cm k fd data).1.1
  | None => false
  end.

(** The entry [c'] differs from [c] in the flow-control fields at most. *)
Definition same_statistics (c c' : ClientConnection) : Prop :=
  messages_sent c' = messages_sent c /\ bytes_sent c' = bytes_sent c /\
  last_activity c' = last_activity c /\ connect_time c' = connect_time c /\
  subscribed_symbols c' = subscribed_symbols c /\ subscribe_all c' = subscribe_all c.

(** [cm'] has the totals of [cm], and each of its subscribers the
    statistics it had in [cm]. *)
Definition statistics_kept (cm cm' : ClientManager) : Prop :=
  total_messages_sent cm' = total_messages_sent cm /\
  total_bytes_sent cm' = total_bytes_sent cm /\
  forall fd, option_Forall2 same_statistics (clients cm !! fd) (clients cm' !! fd).

End ClientTable.

(** * The server: requests from subscribers *)
Module ExchangeSimulator.
Import Protocol Kernel ClientManager ClientTable.

(** [SUBSCRIBE_CMD] of protocol.h *)
Definition SUBSCRIBE_CMD : Z := 0xFF.

(** What a subscriber's socket holds for [recv(fd, buffer, 1024,
    MSG_DONTWAIT)]: bytes queued by the peer, the end of the stream, nothing
    yet, or an error. *)
Inductive Incoming : Type :=
| Queued (bytes : list byte)
| Closed
| Nothing
| Failed.

(** [handle_client_disconnect], as far as the client table and the
    descriptors go. *)
Definition handle_client_disconnect (cm : ClientManager) (k : Sockets) (client_fd : Z)
    : ClientManager * Sockets :=
  remove_client cm k client_fd.

(** [process_subscription]: [buffer] holds the [n] bytes [recv] copied, at
    most 1024 of those queued. *)
Definition process_subscription (cm : ClientManager) (k : Sockets) (client_fd : Z)
    (incoming : Incoming) : bool * (ClientManager * Sockets) :=
  match incoming with
  | Closed | Failed => (false, handle_client_disconnect cm k client_fd)
  | Nothing => (false, (cm, k))
  | Queued [] => (false, handle_client_disconnect cm k client_fd)
  | Queued bytes =>
      let buffer := firstn 1024 bytes in
      let n := size buffer in
      if (le_combine (slice 0 1 buffer) =? SUBSCRIBE_CMD) && (3 <=? n) then
        let count := le_combine (slice 1 2 buffer) in
        if 3 + count * 2 <=? n then
          let symbols :=
            map (fun i => le_combine (slice (3 + i * 2) 2 buffer))
              (seq 0 (Z.to_nat count)) in
          (true, ((handle_subscription cm client_fd symbols).2, k))
        else (false, (cm, k))
      else (false, (cm, k))
  end.

End ExchangeSimulator.

(** * The cache: readers *)
Module CacheReader.
Import Cache.

(** The reader's loads interleave with the writer's stores.  [views] lists
    the cache as it stands at each successive load of the reader, in the
    order of the loads. *)

(** [while (seq1 & 1) seq1 = entry.sequence.load();] after the first load:
    the first even counter seen, and the views left. *)
Fixpoint await_even (symbol_id : Z) (views : list SymbolCache)
    : option (Z * list SymbolCache) :=
  match views with
  | [] => None
  | v :: rest =>
      let seq1 := sequence (entry v symbol_id) in
      if Z.odd seq1 then await_even symbol_id rest else Some (seq1, rest)
  end.

(** [snapshot = entry.state]: the struct is copied member by member, each
    member read from the cache as it stands at that load. *)
Definition copy_state (symbol_id : Z) (views : list SymbolCache)
    : option (MarketState * list SymbolCache) :=
  match views with
  | v1 :: v2 :: v3 :: v4 :: v5 :: v6 :: v7 :: v8 :: v9 :: rest =>
      let field {A} (f : MarketState -> A) (v : SymbolCache) := f (state (entry v symbol_id)) in
      Some (mkState (field best_bid v1) (field best_ask v2) (field bid_quantity v3)
              (field ask_quantity v4) (field last_traded_price v5)
              (field last_traded_quantity v6) (field last_update_time v7)
              (field update_count v8) (field opening_price v9),
            rest)
  | _ => None
  end.

(** One round of the [do ... while (seq1 != seq2)] loop: the snapshot if the
    counter did not move, and the views left. *)
Definition read_once (symbol_id : Z) (views : list SymbolCache)
    : option (option MarketState * list SymbolCache) :=
  '(seq1, views) ← await_even symbol_id views;
  '(snapshot, views) ← copy_state symbol_id views;
  match views with
  | [] => None
  | v :: rest =>
      let seq2 := sequence (entry v symbol_id) in
      Some (if seq1 =? seq2 then Some snapshot else None, rest)
  end.

Fixpoint read_loop (fuel : nat) (symbol_id : Z) (views : list SymbolCache)
    : option MarketState :=
  match fuel with
  | O => None
  | S fuel' =>
      '(result, rest) ← read_once symbol_id views;
      match result with
      | Some snapshot => Some snapshot
      | None => read_loop fuel' symbol_id rest
      end
  end.

(** [get_snapshot]: [None] while the views given do not let it return. *)
Definition get_snapshot (num_symbols : Z) (symbol_id : Z) (views : list SymbolCache)
    : option MarketState :=
  if num_symbols <=? symbol_id then Some empty_state
  else read_loop (length views) symbol_id views.

(** [get_snapshot] with no writer running: every load sees [c]. *)
Definition snapshot_of (c : SymbolCache) (symbol_id : Z) : option MarketState :=
  get_snapshot (num_symbols c) symbol_id (replicate 11 c).

(** [get_total_updates], with no writer running. *)
Definition get_total_updates (c : SymbolCache) : option Z :=
  foldl (fun total i =>
           total ← total; s ← snapshot_of c i; Some (wrap64 (total + update_count s)))
    (Some 0) (seqZ 0 (num_symbols c)).

(** The writer's atomic steps in one call: the cache after [begin_write],
    after each assignment, and after [end_write]. *)
Definition steps_of (c : SymbolCache) (symbol_id : Z) (u : Update) : list SymbolCache :=
  if num_symbols c <=? symbol_id then []
  else during symbol_id (stores_of u) (begin_write c symbol_id)
         ++ [apply_update c symbol_id u].

(** The cache after each atomic step of a run of writer calls. *)
Fixpoint steps_all (c : SymbolCache) (calls : list (Z * Update)) : list SymbolCache :=
  match calls with
  | [] => []
  | (symbol_id, u) :: rest =>
      steps_of c symbol_id u ++ steps_all (apply_update c symbol_id u) rest
  end.

(** The cache at every instant of the run, the start included. *)
Definition history (c : SymbolCache) (calls : list (Z * Update)) : list SymbolCache :=
  c :: steps_all c calls.

(** The cache when the first [n] of the calls have returned. *)
Definition committed (c : SymbolCache) (calls : list (Z * Update)) (n : nat) : SymbolCache :=
  fold_left (fun c call => apply_update c call.1 call.2) (firstn n calls) c.

(** [views] are taken from the instants of [h], in order; two loads may see
    the same instant. *)
Fixpoint sampled (h : list SymbolCache) (views : list SymbolCache) : Prop :=
  match views with
  | [] => True
  | v :: rest => exists t : nat, h !! t = Some v /\ sampled (skipn t h) rest
  end.

(** ** What the reader can rely on *)

(** How the entry of one symbol moves in one atomic step of the writer. *)
Definition entry_step (e e' : SymbolEntry) : Prop :=
  (sequence e' = sequence e + 1 /\ state e' = state e) \/
  (sequence e' = sequence e /\ Z.odd (sequence e) = true) \/
  e' = e.

(** Any number of such steps. *)
Inductive reach : SymbolEntry -> SymbolEntry -> Prop :=
| reach_refl e : reach e e
| reach_step e e1 e' : entry_step e e1 -> reach e1 e' -> reach e e'.

(** Successive views of the entry of [symbol_id], each reached from the one
    before; [e] is the entry before the first of them. *)
Fixpoint linked (symbol_id : Z) (e : SymbolEntry) (views : list SymbolCache) : Prop :=
  match views with
  | [] => True
  | v :: rest => reach e (entry v symbol_id) /\ linked symbol_id (entry v symbol_id) rest
  end.

(** The entry as the last of the views shows it. *)
Definition entry_after (id : Z) (e : SymbolEntry) (views : list SymbolCache) : SymbolEntry :=
  match last views with
  | Some v => entry v id
  | None => e
  end.

(** The sum [get_total_updates] forms, from [start], of [f] over [ids]. *)
Definition tally (f : Z -> Z) (ids : list Z) (start : Z) : Z :=
  foldl (fun total i => wrap64 (total + f i)) start ids.

End CacheReader.

(** * The latency tracker over a run of samples *)

Module LatencyRuns.
Import Latency.

(** The tracker after [record] was called with each of [samples] in turn. *)
Definition recorded (samples : list Z) : LatencyTracker :=
  fold_left record samples new_tracker.

(** The bucket a sample is counted in; none for the overflow counter. *)
Definition bucket_of (latency_ns : Z) : option nat :=
  if latency_ns <? MAX_TRACKED_NS then Some (Z.to_nat (latency_ns / BUCKET_WIDTH_NS))
  else None.

(** The folds [record] keeps in [min_], [max_] and [sum_], before any
    wrap-around. *)
Definition lowest (samples : list Z) : Z := fold_left Z.min samples UINT64_MAX.
Definition highest (samples : list Z) : Z := fold_left Z.max samples 0.
Definition total (samples : list Z) : Z := fold_left Z.add samples 0.

(** How many of the samples satisfy [P]. *)
Definition how_many (P : Z -> Prop) `{forall x, Decision (P x)} (samples : list Z) : Z :=
  Z.of_nat (length (filter P samples)).

(** What the members hold after a run of [record]. *)
Definition tracks (t : LatencyTracker) (samples : list Z) : Prop :=
  sample_count_ t = wrap64 (Z.of_nat (length samples)) /\
  sum_ t = wrap64 (total samples) /\
  min_ t = lowest samples /\ max_ t = highest samples /\
  length (histogram t) = Z.to_nat NUM_BUCKETS /\
  (forall i : nat, (i < Z.to_nat NUM_BUCKETS)%nat ->
     histogram t !! i = Some (wrap64 (how_many (fun x => bucket_of x = Some i) samples))) /\
  overflow_count t = wrap64 (how_many (fun x => bucket_of x = None) samples).

End LatencyRuns.

(** * The memory pool over a run of calls *)

Module MemoryPoolRuns.
Import MemoryPool.

(** [k] calls of [allocate] in a row: the pointers returned, in order. *)
Fixpoint allocate_n (k : nat) (pool : MemoryPool) : option (list Z * MemoryPool) :=
  match k with
  | O => Some ([], pool)
  | S k' =>
      '(ptr, pool) ← allocate pool;
      '(ptrs, pool) ← allocate_n k' pool;
      Some (ptr :: ptrs, pool)
  end.

(** The free list read as a chain: from [head], the nodes of [l] in order,
    each non-null and linked to the next, and then [tail]. *)
Fixpoint chained (next : gmap Z Z) (head : Z) (l : list Z) (tail : Z) : Prop :=
  match l with
  | [] => head = tail
  | p :: l' =>
      head = p /\ p <> nullptr /\
      exists after, next !! p = Some after /\ chained next after l' tail
  end.

(** A pointer [deallocate] accepts. *)
Definition in_arena (pool : MemoryPool) (ptr : Z) : Prop :=
  ptr <> nullptr /\ aligned_base pool <= ptr < arena_end pool.

(** The address of one of the pool's blocks. *)
Definition is_block (pool : MemoryPool) (ptr : Z) : Prop :=
  exists i, 0 <= i < num_blocks pool /\ ptr = block pool i.

End MemoryPoolRuns.

(** * The server: ticks on their way out *)

Module TickLoop.
Import Protocol TickGenerator Frames Kernel ClientManager.

(** One call on the generator: [generate_tick], with the symbol it draws
    and what else the draws and the clock contribute, or
    [generate_heartbeat]. *)
Inductive Emission : Type :=
| Tick (symbol : Z) (d : Draw)
| Beat (now : Z).

Definition emit (num_symbols sequence_ : Z) (e : Emission) : Z * list byte :=
  match e with
  | Tick symbol d => generate_tick_for_symbol num_symbols sequence_ symbol d
  | Beat now => generate_heartbeat sequence_ now
  end.

(** Successive calls on the generator: the counter afterwards and the
    messages written, in order. *)
Fixpoint emit_all (num_symbols sequence_ : Z) (es : list Emission)
    : Z * list (list byte) :=
  match es with
  | [] => (sequence_, [])
  | e :: rest =>
      let '(sequence1, message) := emit num_symbols sequence_ e in
      let '(sequence2, messages) := emit_all num_symbols sequence1 rest in
      (sequence2, message :: messages)
  end.

(** The message an emission stands for when it is numbered [seq]. *)
Definition frame_of (seq : Z) (e : Emission) : Frame :=
  match e with
  | Tick symbol (DrawTrade now p) => TradeFrame (mkHeader TRADE seq now symbol) p
  | Tick symbol (DrawQuote now p) => QuoteFrame (mkHeader QUOTE seq now symbol) p
  | Beat now => HeartbeatFrame (mkHeader HEARTBEAT seq now 0)
  end.

(** The messages of a run numbered one after the other from [sequence_ + 1]
    on. *)
Fixpoint frames_of (sequence_ : Z) (es : list Emission) : list Frame :=
  match es with
  | [] => []
  | e :: rest =>
      let seq := wrap32 (sequence_ + 1) in
      frame_of seq e :: frames_of seq rest
  end.

(** The symbol drawn is one of the generator's, and the clock and the
    payload values fit their fields. *)
Definition emission_ok (num_symbols : Z) (e : Emission) : Prop :=
  match e with
  | Tick symbol (DrawTrade now p) =>
      fits 16 symbol /\ symbol < num_symbols /\ fits 64 now /\ trade_fits p
  | Tick symbol (DrawQuote now p) =>
      fits 16 symbol /\ symbol < num_symbols /\ fits 64 now /\ quote_fits p
  | Beat now => fits 64 now
  end.

(** The members of [ExchangeSimulator] that [generate_and_broadcast_tick]
    reads and writes, with the [sequence_] of its generator. *)
Record Simulator : Type := mkSimulator {
  num_symbols_ : Z;
  sequence_ : Z;
  fault_injection_ : bool;
  fault_skip_counter_ : Z;
  client_mgr_ : ClientManager;
  messages_sent_ : Z;
  bytes_sent_ : Z
}.

(** [enable_fault_injection] *)
Definition enable_fault_injection (sim : Simulator) (enable : bool) : Simulator :=
  mkSimulator (num_symbols_ sim) (sequence_ sim) enable 0 (client_mgr_ sim)
    (messages_sent_ sim) (bytes_sent_ sim).

(** What one call of [generate_and_broadcast_tick] takes from outside: the
    draws of the tick that is generated and thrown away when a sequence
    number is skipped, the draws of the tick that is sent, and the clock of
    [broadcast]. *)
Record TickInput : Type := mkTickInput {
  skipped_symbol : Z;
  skipped_draw : Draw;
  tick_symbol : Z;
  tick_draw : Draw;
  sent_at : Z
}.

(** [generate_and_broadcast_tick]: the simulator and the sockets
    afterwards, and the message handed to [broadcast]. *)
Definition generate_and_broadcast_tick (sim : Simulator) (k : Sockets) (i : TickInput)
    : Simulator * Sockets * list byte :=
  let counter :=
    if fault_injection_ sim then wrap32 (fault_skip_counter_ sim + 1)
    else fault_skip_counter_ sim in
  let sequence1 :=
    if fault_injection_ sim && (counter mod 100 =? 0) then
      (generate_tick_for_symbol (num_symbols_ sim) (sequence_ sim)
         (skipped_symbol i) (skipped_draw i)).1
    else sequence_ sim in
  let '(sequence2, buffer) :=
    generate_tick_for_symbol (num_symbols_ sim) sequence1 (tick_symbol i) (tick_draw i) in
  let '(sent, cm, k') := broadcast (client_mgr_ sim) k buffer (tick_symbol i) (sent_at i) in
  (mkSimulator (num_symbols_ sim) sequence2 (fault_injection_ sim) counter cm
     (wrap64 (messages_sent_ sim + sent))
     (wrap64 (bytes_sent_ sim + sent * size buffer)),
   k', buffer).

(** Successive calls: the messages handed to [broadcast], in order. *)
Fixpoint run_ticks (sim : Simulator) (k : Sockets) (inputs : list TickInput)
    : Simulator * Sockets * list (list byte) :=
  match inputs with
  | [] => (sim, k, [])
  | i :: rest =>
      let '(sim1, k1, buffer) := generate_and_broadcast_tick sim k i in
      let '(sim2, k2, buffers) := run_ticks sim1 k1 rest in
      (sim2, k2, buffer :: buffers)
  end.

(** The symbols drawn are the generator's and the values fit. *)
Definition input_ok (num_symbols : Z) (i : TickInput) : Prop :=
  emission_ok num_symbols (Tick (skipped_symbol i) (skipped_draw i)) /\
  emission_ok num_symbols (Tick (tick_symbol i) (tick_draw i)).

End TickLoop.

(** * The cache: the most updated symbols *)

Module CacheRanking.
Import Cache CacheReader.

(** [std::greater<std::pair<uint64_t, uint16_t>>]: [a > b] is [b < a], the
    pairs compared by update count first and symbol second. *)
Definition greater (a b : Z * Z) : bool :=
  (b.1 <? a.1) || (negb (a.1 <? b.1) && (b.2 <? a.2)).

(** The order [std::partial_sort] leaves with that comparison: no element
    is greater than one before it. *)
Definition ranks_before (a b : Z * Z) : Prop := greater b a = false.

#[global] Instance ranks_before_dec : RelDecision ranks_before.
Proof. intros a b. unfold ranks_before. apply bool_eq_dec. Defined.

(** The first loop of [get_top_symbols], with no writer running: the
    symbols that have updates, with their counts, in index order. *)
Definition collect (c : SymbolCache) : option (list (Z * Z)) :=
  foldl (fun acc i =>
           symbols ← acc; s ← snapshot_of c i;
           Some (if 0 <? update_count s then symbols ++ [(update_count s, i)]
                 else symbols))
    (Some []) (seqZ 0 (num_symbols c)).

(** [get_top_symbols], with no writer running: the [count] slots of
    [out_ids] and [out_states].  [std::partial_sort] puts the [n] greatest
    pairs first, in descending order; the pairs being distinct, these are
    the first [n] of the sorted list. *)
Definition get_top_symbols (c : SymbolCache) (count : Z)
    : option (list (Z * MarketState)) :=
  symbols ← collect c;
  let n := Z.min count (Z.of_nat (length symbols)) in
  let top := firstn (Z.to_nat n) (merge_sort ranks_before symbols) in
  found ← mapM (fun p => s ← snapshot_of c p.2; Some (p.2, s)) top;
  Some (found ++ replicate (Z.to_nat (count - n)) (0, empty_state)).

(** The symbols of the cache that have updates, in index order. *)
Definition updated (c : SymbolCache) : list Z :=
  filter (fun i => 0 < update_count (state (entry c i))) (seqZ 0 (num_symbols c)).

(** The pair [get_top_symbols] sorts for symbol [i]. *)
Definition counted (c : SymbolCache) (i : Z) : Z * Z :=
  (update_count (state (entry c i)), i).

(** Symbol [a] has more updates than [b], or as many and the larger
    index. *)
Definition outranks (c : SymbolCache) (a b : Z) : Prop :=
  update_count (state (entry c b)) < update_count (state (entry c a)) \/
  (update_count (state (entry c b)) = update_count (state (entry c a)) /\ b < a).

End CacheRanking.

(** * Concrete inputs *)

Module ParserScenarios.
Import Protocol TickGenerator Parser Frames.

(** The quote of the codec test vector: sequence 7, symbol 42, bid 100.25 x
    1000, ask 100.75 x 2000, the prices as binary64 bit patterns. *)
Definition quote7 : Frame :=
  QuoteFrame (mkHeader QUOTE 7 1000000000 42)
    (mkQuote 0x4059100000000000 1000 0x4059300000000000 2000).

Definition trade8 : Frame :=
  TradeFrame (mkHeader TRADE 8 1000000001 42) (mkTrade 0x4059200000000000 500).

Definition beat9 : Frame := HeartbeatFrame (mkHeader HEARTBEAT 9 1000000002 0).

Definition beat11 : Frame := HeartbeatFrame (mkHeader HEARTBEAT 11 1000000003 0).

(** A stream cut into one-byte chunks. *)
Definition bytewise (bs : list byte) : list (list byte) := map (fun b => [b]) bs.

(** The parser holding [data], appended to [p]. *)
Definition holding (p : MessageParser) (data : list byte) : MessageParser :=
  match append_data p data with
  | Some (_, p') => p'
  | None => p
  end.

(** A parser that accepted [quote7] and has [beat11] unread. *)
Definition before_gap : MessageParser :=
  snd (parse_one (holding (new_parser all_callbacks)
                    (frame_bytes quote7 ++ frame_bytes beat11))).

(** Heartbeat number [i]. *)
Definition beat (i : Z) : Frame := HeartbeatFrame (mkHeader HEARTBEAT (wrap32 i) 0 0).

(** [n] heartbeats numbered from [first] on. *)
Fixpoint beats (first : Z) (n : nat) : list Frame :=
  match n with
  | O => []
  | S n' => beat first :: beats (first + 1) n'
  end.

(** Frame counts of three chunks of 4194320, 8388620 and 16777220 bytes. *)
Definition frames1 : nat := Z.to_nat 209716.
Definition frames2 : nat := Z.to_nat 419431.
Definition frames3 : nat := Z.to_nat 838861.

(** 1468008 heartbeats numbered from 1, and their stream cut after the
    first 209716 and the next 419431 of them. *)
Definition many_beats : list Frame := beats 1 (frames1 + frames2 + frames3).

Definition big_chunks : list (list byte) :=
  [stream (beats 1 frames1);
   stream (beats (1 + Z.of_nat frames1) frames2);
   stream (beats (1 + Z.of_nat frames1 + Z.of_nat frames2) frames3)].

End ParserScenarios.

Module CacheScenarios.
Import Cache.

(** The cache of the unit tests after their first quote on symbol 0. *)
Definition quoted : SymbolCache :=
  update_quote (new_cache 100) 0 100%float 1000 100.5%float 2000 1234567890.

End CacheScenarios.

Module LatencyScenarios.
Import Latency.

(** One sample of 5000 ns. *)
Definition one_sample : LatencyTracker := record new_tracker 5000.

(** The samples of the unit test: 1000, 2000 and 3000 ns. *)
Definition three_samples : LatencyTracker :=
  record (record (record new_tracker 1000) 2000) 3000.

End LatencyScenarios.

Module ClientManagerScenarios.
Import Kernel ClientManager.

(** A heartbeat frame, 20 bytes. *)
Definition heartbeat : list byte :=
  TickGenerator.heartbeat_message (Protocol.mkHeader Protocol.HEARTBEAT 1 0 0).

(** Subscribers 7 and 8, of which 7 has been marked slow. *)
Definition subscriber7 : ClientConnection :=
  marked_slow (mkClient 7 [] 5000 ∅ true 0 0 false 0 0 0 0).

Definition subscribers : ClientManager :=
  mark_slow_consumer
    (add_client (add_client new_manager 7 [] 5000 0).2 8 [] 5001 0).2 7.

(** Their sockets: 7 with 524287 bytes still queued, one byte less than half
    the threshold; 8 with an empty queue. *)
Definition sockets : Sockets :=
  <[7 := mkSocket 524287 MAX_SEND_BUFFER_SIZE true []]>
    (<[8 := mkSocket 0 MAX_SEND_BUFFER_SIZE true []]> ∅).

(** The same with the queue of 7 drained. *)
Definition drained : Sockets :=
  <[7 := mkSocket 0 MAX_SEND_BUFFER_SIZE true []]>
    (<[8 := mkSocket 0 MAX_SEND_BUFFER_SIZE true []]> ∅).

End ClientManagerScenarios.

Module MemoryPoolScenarios.
Import MemoryPool.

(** Four blocks of 4096 bytes in storage allocated at address 1000: the
    arena is [1024, 17408). *)
Definition small_pool : MemoryPool := new_pool 4096 4 1000.

(** The pool with its first block handed out. *)
Definition one_out : MemoryPool := from_option snd small_pool (allocate small_pool).

End MemoryPoolScenarios.

Module ParserSessionScenarios.
Import Protocol TickGenerator Parser Frames ParserScenarios.

(** [quote7] on the wire with byte 21, the sixth of the bid price, changed
    from 0x10 to 0x11. *)
Definition corrupted_quote : MessageParser :=
  holding (new_parser all_callbacks) (<[21%nat := Byte.x11]> (frame_bytes quote7)).

(** More bytes than a new parser can take in one call. *)
Definition flood : list byte := replicate (Z.to_nat 8388609) Byte.x00.

End ParserSessionScenarios.

Module SubscriberScenarios.
Import Kernel ClientManager ClientManagerScenarios.

(** The entry of subscriber 8 in [subscribers]. *)
Definition subscriber8 : ClientConnection :=
  mkClient 8 [] 5001 ∅ true 0 0 false 0 0 0 0.

(** A request for 511 symbols. *)
Definition too_many : list Z := replicate 511 0.

End SubscriberScenarios.

Module CacheReaderScenarios.
Import Cache CacheReader CacheScenarios.

(** A trade on symbol 0 after the quote. *)
Definition trade_call : list (Z * Update) :=
  [(0, Trade 100.25%float 500 1234567891)].

Definition traded : SymbolCache := update_trade quoted 0 100.25%float 500 1234567891.

(** A reader that loads the counter before the trade begins, copies the
    state while the trade is being written, finds the counter moved, and
    goes round again after the trade. *)
Definition torn_views : list SymbolCache :=
  quoted :: replicate 9 (begin_write quoted 0) ++ replicate 12 traded.

End CacheReaderScenarios.

Module LatencyRunScenarios.

(** The samples of the unit test. *)
Definition unit_samples : list Z := [1000; 2000; 3000].

End LatencyRunScenarios.

Module MemoryPoolRunScenarios.
Import MemoryPool MemoryPoolRuns MemoryPoolScenarios.

(** [small_pool] with its first two blocks, 13312 and 9216, handed out. *)
Definition two_out : MemoryPool := from_option snd small_pool (allocate_n 2 small_pool).

End MemoryPoolRunScenarios.

Module TickLoopScenarios.
Import Protocol TickGenerator Frames TickLoop.

(** A quote, a trade and a heartbeat as the generator may be asked for
    them. *)
Definition three_emissions : list Emission :=
  [Tick 42 (DrawQuote 1000000000 (mkQuote 0x4059100000000000 1000 0x4059300000000000 2000));
   Tick 42 (DrawTrade 1000000001 (mkTrade 0x4059200000000000 500));
   Beat 1000000002].

(** A simulator of 100 symbols that has sent nothing yet, with no
    subscribers. *)
Definition idle : Simulator := mkSimulator 100 0 false 0 ClientManager.new_manager 0 0.

(** The draws of one call, and a hundred calls with them. *)
Definition quote_input : TickInput :=
  mkTickInput 7 (DrawTrade 1000000001 (mkTrade 0x4059200000000000 500))
    42 (DrawQuote 1000000000 (mkQuote 0x4059100000000000 1000 0x4059300000000000 2000))
    5.

Definition hundred_ticks : list TickInput := replicate 100 quote_input.

End TickLoopScenarios.

Module CacheRankingScenarios.
Import Cache CacheScenarios.

(** Symbol 0 quoted once, symbol 3 traded twice, symbol 5 traded once. *)
Definition busy : SymbolCache :=
  update_trade
    (update_trade
       (update_trade quoted 3 10%float 1 1234567891) 5 20%float 2 1234567892)
    3 11%float 3 1234567893.

End CacheRankingScenarios.

(** * Properties *)

(** * Codec facts *)
Module ProtocolFacts.
Import Protocol TickGenerator.

Lemma size_app (a b : list byte) : size (a ++ b) = size a + size b.
Proof. unfold size. rewrite length_app. lia. Qed.

Lemma size_nonneg (a : list byte) : 0 <= size a.
Proof. unfold size. lia. Qed.

Lemma size_header_bytes h : size (header_bytes h) = HEADER_SIZE.
Proof. reflexivity. Qed.

Lemma size_trade_message h p : size (trade_message h p) = TRADE_MSG_SIZE.
Proof. reflexivity. Qed.

Lemma size_quote_message h p : size (quote_message h p) = QUOTE_MSG_SIZE.
Proof. reflexivity. Qed.

Lemma size_heartbeat_message h : size (heartbeat_message h) = HEARTBEAT_MSG_SIZE.
Proof. reflexivity. Qed.

Lemma le_combine_split_fits (n : nat) (bits v : Z) :
  bits = Z.of_nat n * 8 -> fits bits v -> le_combine (le_split n v) = v.
Proof.
  intros -> Hv. rewrite le_combine_split. apply Z.mod_small. exact Hv.
Qed.

(** Reading back a header that was copied out gives the same fields. *)
Lemma view_header_bytes h rest :
  header_fits h -> view_header (header_bytes h ++ rest) = h.
Proof.
  destruct h as [t s ts sym]. intros (Ht & Hs & Hts & Hsym). cbn in *.
  unfold view_header. f_equal.
  - change (slice 0 2 _) with (le_split 2 t).
    now apply (le_combine_split_fits 2 16).
  - change (slice 2 4 _) with (le_split 4 s).
    now apply (le_combine_split_fits 4 32).
  - change (slice 6 8 _) with (le_split 8 ts).
    now apply (le_combine_split_fits 8 64).
  - change (slice 14 2 _) with (le_split 2 sym).
    now apply (le_combine_split_fits 2 16).
Qed.

Lemma view_trade_bytes p rest :
  trade_fits p -> view_trade (trade_bytes p ++ rest) = p.
Proof.
  destruct p as [px q]. intros (Hpx & Hq). cbn in *.
  unfold view_trade. f_equal.
  - change (slice 0 8 _) with (le_split 8 px).
    now apply (le_combine_split_fits 8 64).
  - change (slice 8 4 _) with (le_split 4 q).
    now apply (le_combine_split_fits 4 32).
Qed.

Lemma view_quote_bytes p rest :
  quote_fits p -> view_quote (quote_bytes p ++ rest) = p.
Proof.
  destruct p as [bp bq ap aq]. intros (Hbp & Hbq & Hap & Haq). cbn in *.
  unfold view_quote. f_equal.
  - change (slice 0 8 _) with (le_split 8 bp).
    now apply (le_combine_split_fits 8 64).
  - change (slice 8 4 _) with (le_split 4 bq).
    now apply (le_combine_split_fits 4 32).
  - change (slice 12 8 _) with (le_split 8 ap).
    now apply (le_combine_split_fits 8 64).
  - change (slice 20 4 _) with (le_split 4 aq).
    now apply (le_combine_split_fits 4 32).
Qed.

(** XOR keeps 32-bit values 32-bit. *)
Lemma lxor_fits (bits a b : Z) :
  0 < bits -> fits bits a -> fits bits b -> fits bits (Z.lxor a b).
Proof.
  unfold fits. intros Hbits Ha Hb.
  assert (Hnn : 0 <= Z.lxor a b) by (apply Z.lxor_nonneg; lia).
  split; [exact Hnn|].
  destruct (Z.eq_dec (Z.lxor a b) 0) as [->|Hne].
  - apply Z.pow_pos_nonneg; lia.
  - apply Z.log2_lt_pow2; [lia|].
    eapply Z.le_lt_trans; [apply Z.log2_lxor; lia|].
    apply Z.max_lub_lt.
    + destruct (Z.eq_dec a 0) as [->|]; [cbn; lia|]. apply Z.log2_lt_pow2; lia.
    + destruct (Z.eq_dec b 0) as [->|]; [cbn; lia|]. apply Z.log2_lt_pow2; lia.
Qed.

Lemma checksum_tail_fits bytes : forall i c,
  fits 32 c -> fits 32 (checksum_tail i c bytes).
Proof.
  induction bytes as [|b rest IH]; intros i c Hc; cbn; [exact Hc|].
  apply IH. apply lxor_fits; [lia|exact Hc|].
  unfold wrap32, fits. apply Z.mod_pos_bound. lia.
Qed.

Lemma checksum_words_fits (n : nat) : forall bytes i c,
  (length bytes <= n)%nat -> fits 32 c -> fits 32 (checksum_words i c bytes).
Proof.
  induction n as [|n IH]; intros bytes i c Hlen Hc.
  - destruct bytes; [exact Hc|cbn in Hlen; lia].
  - destruct bytes as [|b0 [|b1 [|b2 [|b3 rest]]]];
      try (apply checksum_tail_fits; exact Hc).
    cbn [checksum_words]. apply IH; [cbn in Hlen; lia|].
    apply lxor_fits; [lia|exact Hc|].
    pose proof (le_combine_bound [b0; b1; b2; b3]) as Hb.
    unfold fits. cbn [length] in Hb. exact Hb.
Qed.

Lemma calculate_checksum_fits data : fits 32 (calculate_checksum data).
Proof.
  apply (checksum_words_fits (length data)); [lia|]. unfold fits. lia.
Qed.

End ProtocolFacts.

Module ParserFacts.
Import Protocol TickGenerator Parser Frames ProtocolFacts.

Lemma available_size p : write_pos p - read_pos p = size (pending p).
Proof. unfold write_pos. lia. Qed.

Lemma frame_bytes_split f :
  frame_bytes f =
  header_bytes (frame_header f) ++ payload_bytes f ++
  le_split 4 (calculate_checksum (header_bytes (frame_header f) ++ payload_bytes f)).
Proof.
  destruct f; cbn [frame_bytes frame_header payload_bytes];
    unfold trade_message, quote_message, heartbeat_message, write_message;
    rewrite <- ?app_assoc, ?app_nil_r; reflexivity.
Qed.

Lemma size_frame_bytes f : size (frame_bytes f) = get_message_size (frame_kind f).
Proof. destruct f; reflexivity. Qed.

Lemma frame_size_bounds f :
  HEARTBEAT_MSG_SIZE <= size (frame_bytes f) <= QUOTE_MSG_SIZE.
Proof. destruct f; cbv; split; discriminate. Qed.

Lemma view_header_frame f rest :
  frame_ok f -> view_header (frame_bytes f ++ rest) = frame_header f.
Proof.
  intros (Hh & _). rewrite frame_bytes_split, <- app_assoc.
  now apply view_header_bytes.
Qed.

(** What [generate_tick_for_symbol] and [generate_heartbeat] emit are frames
    carrying the next sequence number. *)
Lemma generator_emits_frames num_symbols sequence_ symbol now :
  symbol < num_symbols ->
  (forall p,
     generate_tick_for_symbol num_symbols sequence_ symbol (DrawTrade now p) =
     (wrap32 (sequence_ + 1),
      frame_bytes (TradeFrame (mkHeader TRADE (wrap32 (sequence_ + 1)) now symbol) p))) /\
  (forall p,
     generate_tick_for_symbol num_symbols sequence_ symbol (DrawQuote now p) =
     (wrap32 (sequence_ + 1),
      frame_bytes (QuoteFrame (mkHeader QUOTE (wrap32 (sequence_ + 1)) now symbol) p))) /\
  generate_heartbeat sequence_ now =
  (wrap32 (sequence_ + 1),
   frame_bytes (HeartbeatFrame (mkHeader HEARTBEAT (wrap32 (sequence_ + 1)) now 0))).
Proof.
  intros Hsym. unfold generate_tick_for_symbol, generate_heartbeat.
  destruct (Z.leb_spec num_symbols symbol); [lia|]. now conjs.
Qed.

(** The checksum the generator appended is the one the parser recomputes. *)
Lemma validate_checksum_written body rest :
  validate_checksum (write_message body ++ rest) (size body + CHECKSUM_SIZE) = true.
Proof.
  unfold validate_checksum, write_message, slice, CHECKSUM_SIZE.
  pose proof (size_nonneg body) as Hnn.
  destruct (Z.ltb_spec (size body + 4) 4) as [Hlt|_]; [lia|].
  replace (size body + 4 - 4) with (size body) by lia.
  unfold size. rewrite Nat2Z.id, <- !app_assoc.
  rewrite take_app_length, drop_app_length.
  rewrite (take_app_length' (le_split 4 _)) by reflexivity.
  rewrite (le_combine_split_fits 4 32) by (reflexivity || apply calculate_checksum_fits).
  apply Z.eqb_refl.
Qed.

Lemma validate_checksum_frame f rest :
  validate_checksum (frame_bytes f ++ rest) (get_message_size (frame_kind f)) = true.
Proof.
  destruct f; apply validate_checksum_written.
Qed.

Lemma with_stats_id p : with_stats (fun s => s) p = p.
Proof. destruct p; reflexivity. Qed.

(** The switch hands the frame to the callback of its kind. *)
Lemma dispatch_frame f rest p :
  frame_ok f -> callbacks p = all_callbacks ->
  dispatch (frame_kind f) (frame_bytes f ++ rest) p =
  with_stats (count_kind f) (invoke (frame_call f) p).
Proof.
  intros Hok Hcb. pose proof (view_header_frame f rest Hok) as Hhdr.
  destruct Hok as (_ & _ & Hpay).
  unfold dispatch. rewrite Hhdr, Hcb.
  destruct f as [h t|h q|h]; cbn [frame_kind frame_header frame_call count_kind].
  - change (TRADE =? TRADE) with true. cbn [trade_cb all_callbacks].
    change (skipn (Z.to_nat HEADER_SIZE) (frame_bytes (TradeFrame h t) ++ rest))
      with (trade_bytes t ++ le_split 4 (calculate_checksum (header_bytes h ++ trade_bytes t)) ++ rest).
    now rewrite view_trade_bytes.
  - change (QUOTE =? TRADE) with false. change (QUOTE =? QUOTE) with true.
    cbn [quote_cb all_callbacks].
    change (skipn (Z.to_nat HEADER_SIZE) (frame_bytes (QuoteFrame h q) ++ rest))
      with (quote_bytes q ++ le_split 4 (calculate_checksum (header_bytes h ++ quote_bytes q)) ++ rest).
    now rewrite view_quote_bytes.
  - change (HEARTBEAT =? TRADE) with false. change (HEARTBEAT =? QUOTE) with false.
    change (HEARTBEAT =? HEARTBEAT) with true. cbn [heartbeat_cb all_callbacks].
    now rewrite with_stats_id.
Qed.

(** A complete well-formed frame at the read cursor is accepted: [parse_one]
    answers [SUCCESS], or [SEQUENCE_GAP] when the number is not the expected
    one, and delivers the frame in both cases. *)
Lemma parse_one_frame p f rest :
  frame_ok f -> callbacks p = all_callbacks -> pending p = frame_bytes f ++ rest ->
  exists p',
    parse_one p = (if is_gap p (frame_seq f) then SEQUENCE_GAP else SUCCESS, p') /\
    accepted p f rest p'.
Proof.
  intros Hok Hcb Hp.
  pose proof (frame_size_bounds f) as Hsz.
  pose proof (size_nonneg rest) as Hrest.
  pose proof (view_header_frame f rest Hok) as Hhdr.
  pose proof (validate_checksum_frame f rest) as Hsum.
  pose proof (size_frame_bytes f) as Hlen.
  destruct Hok as (Hfits & Hkind & Hpay).
  destruct p as [bs rp pend es fm cbs st cl]. cbn in Hcb, Hp. subst pend cbs.
  unfold parse_one. rewrite available_size. cbn [pending].
  rewrite Hhdr, Hkind, Hsum, size_app, <- Hlen.
  unfold HEARTBEAT_MSG_SIZE, QUOTE_MSG_SIZE, HEADER_SIZE, CHECKSUM_SIZE,
    QUOTE_PAYLOAD_SIZE in *.
  destruct (Z.ltb_spec (size (frame_bytes f) + size rest) 16); [lia|].
  destruct (Z.eqb_spec (size (frame_bytes f)) 0); [lia|].
  destruct (Z.ltb_spec (size (frame_bytes f) + size rest) (size (frame_bytes f))); [lia|].
  destruct (Z.ltb_spec (16 + 24 + 4) (size (frame_bytes f))); [lia|].
  cbn [negb].
  assert (Hdrop : skipn (Z.to_nat (size (frame_bytes f))) (frame_bytes f ++ rest) = rest).
  { unfold size. rewrite Nat2Z.id. apply drop_app_length. }
  unfold accepted, check_sequence, is_gap, frame_seq.
  cbn [first_message expected_sequence callbacks gap_cb all_callbacks].
  destruct fm; cbn [negb andb].
  - eexists. split; [reflexivity|].
    rewrite dispatch_frame by (try exact (conj Hfits (conj Hkind Hpay)); reflexivity).
    unfold write_pos. cbn. rewrite Hdrop, !size_app.
    repeat split; try lia; destruct f; reflexivity.
  - destruct (sequence_number (frame_header f) =? es); cbn [negb].
    + eexists. split; [reflexivity|].
      rewrite dispatch_frame by (try exact (conj Hfits (conj Hkind Hpay)); reflexivity).
      unfold write_pos. cbn. rewrite Hdrop, !size_app.
      repeat split; try lia; destruct f; reflexivity.
    + eexists. split; [reflexivity|].
      rewrite dispatch_frame by (try exact (conj Hfits (conj Hkind Hpay)); reflexivity).
      unfold write_pos. cbn. rewrite Hdrop, !size_app.
      repeat split; try lia; destruct f; try reflexivity;
        cbn; rewrite <- app_assoc; reflexivity.
Qed.

(** The header view reads the first [HEADER_SIZE] bytes only. *)
Lemma view_header_take bs : view_header (firstn 16 bs) = view_header bs.
Proof.
  unfold view_header, slice.
  rewrite !skipn_firstn_comm, !firstn_firstn. reflexivity.
Qed.

(** With only part of the next frame received, [parse_one] waits. *)
Lemma parse_one_partial p f more tail :
  frame_ok f -> pending p ++ more = frame_bytes f ++ tail ->
  size (pending p) < size (frame_bytes f) ->
  parse_one p = (NEED_MORE_DATA, p).
Proof.
  intros Hok Heq Hshort. unfold parse_one. rewrite available_size.
  destruct (Z.ltb_spec (size (pending p)) HEADER_SIZE) as [|Hhdr]; [reflexivity|].
  assert (Hview : view_header (pending p) = frame_header f).
  { rewrite <- (view_header_frame f tail Hok), <- Heq.
    rewrite <- (view_header_take (pending p ++ more)), <- (view_header_take (pending p)).
    f_equal. rewrite take_app_le; [reflexivity|].
    unfold size, HEADER_SIZE in Hhdr. lia. }
  destruct Hok as (_ & Hkind & _).
  rewrite Hview, Hkind, <- size_frame_bytes.
  pose proof (frame_size_bounds f) as Hsz. unfold HEARTBEAT_MSG_SIZE, HEADER_SIZE, CHECKSUM_SIZE in Hsz.
  destruct (Z.eqb_spec (size (frame_bytes f)) 0); [lia|].
  destruct (Z.ltb_spec (size (pending p)) (size (frame_bytes f))); [reflexivity|lia].
Qed.

Lemma stream_cons f fs : stream (f :: fs) = frame_bytes f ++ stream fs.
Proof. reflexivity. Qed.

Lemma stream_app fs gs : stream (fs ++ gs) = stream fs ++ stream gs.
Proof. unfold stream. now rewrite map_app, concat_app. Qed.

Lemma delivered_refl p : delivered p [] p.
Proof. unfold delivered. cbn. rewrite app_nil_r. tauto. Qed.

Lemma delivered_step p f p1 done p2 :
  is_gap p (frame_seq f) = false ->
  accepted p f (pending p1) p1 -> pending p = frame_bytes f ++ pending p1 ->
  delivered p1 done p2 -> delivered p (f :: done) p2.
Proof.
  intros Hgap (_ & Hw & Hb & Hc & _ & _ & Hcalls & Hgaps & _ & Hsum & Hmal) Hp
    (Hp' & Hw' & Hb' & Hc' & Hcalls' & Hgaps' & Hsum' & Hmal').
  rewrite Hgap in Hcalls, Hgaps. cbn [app] in Hcalls.
  unfold delivered. rewrite stream_cons, <- app_assoc, <- Hp', Hcalls', Hcalls.
  cbn [map]. rewrite <- app_assoc. cbn [app].
  repeat split; congruence.
Qed.

Lemma expects_no_gap p f fs : expects p (f :: fs) -> is_gap p (frame_seq f) = false.
Proof.
  unfold expects, is_gap. intros [->| ->]; [reflexivity|].
  rewrite Z.eqb_refl. apply andb_false_r.
Qed.

(** A byte range that reaches past the first frame of a stream starts with
    that frame. *)
Lemma pending_starts_with (u more F S : list byte) :
  u ++ more = F ++ S -> size F <= size u ->
  exists u', u = F ++ u' /\ u' ++ more = S.
Proof.
  intros Heq Hlen. unfold size in Hlen.
  exists (skipn (length F) u).
  assert (HF : firstn (length F) u = F).
  { rewrite <- (take_app_le u more) by lia. rewrite Heq. apply take_app_length. }
  assert (Hu : u = F ++ skipn (length F) u).
  { rewrite <- HF at 1. now rewrite firstn_skipn. }
  split; [exact Hu|].
  rewrite Hu, <- app_assoc in Heq. now apply app_inv_head in Heq.
Qed.

(** The loop of [parse_messages] on a parser whose unread bytes are the
    beginning of the stream of well-formed, consecutively numbered frames
    [fs]: it accepts every frame that is complete, in order, and stops
    before the first incomplete one. *)
Lemma parse_loop_stream fs : forall p more fuel count,
  Forall frame_ok fs -> consecutive fs -> expects p fs ->
  callbacks p = all_callbacks ->
  pending p ++ more = stream fs -> (length (pending p) < fuel)%nat ->
  exists done rest p',
    fs = done ++ rest /\
    parse_loop fuel p count = Some (count + Z.of_nat (length done), p') /\
    delivered p done p' /\ expects p' rest /\ short p' rest /\
    pending p' ++ more = stream rest.
Proof.
  induction fs as [|f fs IH]; intros p more fuel count Hok Hcons Hexp Hcb Hstream Hfuel.
  - cbn in Hstream. apply app_eq_nil in Hstream as [Hnil Hmore].
    exists [], [], p. destruct fuel as [|fuel]; [lia|].
    cbn [parse_loop]. unfold parse_one. rewrite available_size, Hnil. cbn.
    rewrite Hnil. conjs; try reflexivity.
    + f_equal. f_equal. lia.
    + apply delivered_refl.
    + exact Hmore.
  - apply Forall_cons_1 in Hok as [Hf Hok]. rewrite stream_cons in Hstream.
    destruct fuel as [|fuel]; [lia|].
    destruct (Z.lt_ge_cases (size (pending p)) (size (frame_bytes f))) as [Hshort|Hlong].
    + exists [], (f :: fs), p. cbn [parse_loop].
      rewrite (parse_one_partial p f more (stream fs) Hf Hstream Hshort).
      conjs; try assumption; try reflexivity.
      * f_equal. f_equal. cbn. lia.
      * apply delivered_refl.
    + destruct (pending_starts_with _ _ _ _ Hstream Hlong) as (u' & Hu & Hrest).
      destruct (parse_one_frame p f u' Hf Hcb Hu) as (p1 & Hstep & Hacc).
      rewrite (expects_no_gap p f fs Hexp) in Hstep.
      pose proof Hacc as (Hp1 & _ & _ & Hcb1 & Hfm1 & Hes1 & _).
      assert (Hexp1 : expects p1 fs).
      { destruct fs as [|g fs']; [exact I|]. right. cbn in Hcons. rewrite Hes1. now symmetry. }
      assert (Hcons1 : consecutive fs).
      { destruct fs as [|g fs']; [exact I|]. cbn in Hcons. tauto. }
      assert (Hfuel1 : (length (pending p1) < fuel)%nat).
      { rewrite Hp1. rewrite Hu, length_app in Hfuel.
        pose proof (frame_size_bounds f) as Hsz.
        unfold size, HEARTBEAT_MSG_SIZE, HEADER_SIZE, CHECKSUM_SIZE in Hsz. lia. }
      rewrite <- Hp1 in Hrest.
      destruct (IH p1 more fuel (count + 1) Hok Hcons1 Hexp1 (eq_trans Hcb1 Hcb) Hrest Hfuel1)
        as (done & rest & p' & Hfs & Hloop & Hdel & Hexp' & Hshort' & Hmore').
      exists (f :: done), rest, p'. cbn [parse_loop]. rewrite Hstep, Hloop.
      conjs; try assumption.
      * cbn. now rewrite Hfs.
      * f_equal. f_equal. cbn [length]. lia.
      * eapply delivered_step; eauto using expects_no_gap.
        -- rewrite Hp1. exact Hacc.
        -- now rewrite Hp1.
Qed.

(** A chunk of at most [MAX_CHUNK] bytes arriving while less than one frame
    is unread is always stored whole: by compaction if the tail is too
    small, and by one doubling if the buffer is. *)
Lemma append_data_stores p c :
  parser_ok p -> size (pending p) < QUOTE_MSG_SIZE -> size c <= MAX_CHUNK ->
  exists p1,
    append_data p c = Some (size c, p1) /\
    pending p1 = pending p ++ c /\ parser_ok p1 /\ same_session p p1.
Proof.
  unfold parser_ok, same_session, MAX_CHUNK, append_data, compact_buffer, copy_in,
    resize, write_pos, INITIAL_BUFFER_SIZE, MAX_BUFFER_SIZE, QUOTE_MSG_SIZE,
    HEADER_SIZE, QUOTE_PAYLOAD_SIZE, CHECKSUM_SIZE.
  destruct p as [bs rp pend es fm cbs st cl]. cbn.
  intros ((Hlo & Hhi) & Hrp & Hwp) Hused Hc.
  pose proof (size_nonneg c) as Hc0. pose proof (size_nonneg pend) as Hp0.
  destruct (Z.eqb_spec (size c) 0) as [Hz|Hnz].
  { exists (mkParser bs rp pend es fm cbs st cl). cbn.
    assert (c = []) as -> by (destruct c; [reflexivity|unfold size in Hz; cbn [length] in Hz; lia]).
    rewrite app_nil_r. conjs; try reflexivity; lia. }
  repeat (zcase;
          cbn [buffer_size read_pos pending expected_sequence first_message
                 callbacks stats calls with_stats mbind option_bind];
          try lia);
    eexists; (split; [reflexivity|]);
    cbn [buffer_size read_pos pending expected_sequence first_message
           callbacks stats calls];
    rewrite ?size_app; conjs; try reflexivity; lia.
Qed.

Lemma short_bound p fs : short p fs -> size (pending p) < QUOTE_MSG_SIZE.
Proof.
  destruct fs as [|f fs]; cbn.
  - intros ->. reflexivity.
  - pose proof (frame_size_bounds f). lia.
Qed.

Lemma delivered_ok p done p' : parser_ok p -> delivered p done p' -> parser_ok p'.
Proof.
  unfold parser_ok, delivered, write_pos.
  intros (Hb & Hrp & Hwp) (Hp & Hw & Hbs & _). rewrite Hp, size_app in *.
  pose proof (size_nonneg (stream done)). rewrite Hbs. lia.
Qed.

(** One chunk fed to the parser: the frames it completes are accepted. *)
Lemma feed_stream p c more fs :
  parser_ok p -> callbacks p = all_callbacks ->
  Forall frame_ok fs -> consecutive fs -> expects p fs -> short p fs ->
  pending p ++ c ++ more = stream fs -> size c <= MAX_CHUNK ->
  exists done rest p',
    fs = done ++ rest /\
    feed p c = Some (Z.of_nat (length done), p') /\
    parser_ok p' /\ callbacks p' = all_callbacks /\
    expects p' rest /\ short p' rest /\ pending p' ++ more = stream rest /\
    calls p' = calls p ++ map frame_call done /\
    sequence_gaps (stats p') = sequence_gaps (stats p) /\
    checksum_errors (stats p') = checksum_errors (stats p) /\
    malformed_messages (stats p') = malformed_messages (stats p).
Proof.
  intros Hpok Hcb Hok Hcons Hexp Hshort Hstream Hc.
  destruct (append_data_stores p c Hpok (short_bound p fs Hshort) Hc)
    as (p1 & Happ & Hp1 & Hp1ok & Hes & Hfm & Hcb1 & Hst & Hcl).
  assert (Hexp1 : expects p1 fs).
  { destruct fs; [exact I|]. cbn in *. now rewrite Hes, Hfm. }
  rewrite app_assoc, <- Hp1 in Hstream.
  destruct (parse_loop_stream fs p1 more (S (length (pending p1))) 0 Hok Hcons Hexp1
              (eq_trans Hcb1 Hcb) Hstream (Nat.lt_succ_diag_r _))
    as (done & rest & p' & Hfs & Hloop & Hdel & Hexp' & Hshort' & Hmore).
  exists done, rest, p'. unfold feed. rewrite Happ. cbn [mbind option_bind].
  unfold parse_messages. rewrite Hloop.
  pose proof (delivered_ok p1 done p' Hp1ok Hdel) as Hp'ok.
  destruct Hdel as (_ & _ & _ & Hcb' & Hcalls & Hgaps & Hsum & Hmal).
  conjs; try assumption; try reflexivity; congruence.
Qed.

Lemma short_end p fs : short p fs -> pending p = stream fs -> fs = [] /\ pending p = [].
Proof.
  destruct fs as [|f fs]; cbn [short]; intros Hshort Hp; [now split|].
  rewrite Hp, stream_cons, size_app in Hshort.
  pose proof (size_nonneg (stream fs)). lia.
Qed.

Lemma consecutive_app_r done : forall rest, consecutive (done ++ rest) -> consecutive rest.
Proof.
  induction done as [|f done IH]; intros rest H; [exact H|].
  apply IH. destruct done as [|g done]; cbn in H |- *.
  - destruct rest; [exact I|tauto].
  - tauto.
Qed.

(** The chunks of a stream of well-formed, consecutively numbered frames,
    fed in order to a parser that is ready for them. *)
Lemma feed_all_stream chunks : forall p fs,
  parser_ok p -> callbacks p = all_callbacks ->
  Forall frame_ok fs -> consecutive fs -> expects p fs -> short p fs ->
  pending p ++ concat chunks = stream fs ->
  Forall (fun c => size c <= MAX_CHUNK) chunks ->
  exists p',
    feed_all p chunks = Some (Z.of_nat (length fs), p') /\
    calls p' = calls p ++ map frame_call fs /\
    sequence_gaps (stats p') = sequence_gaps (stats p) /\
    checksum_errors (stats p') = checksum_errors (stats p) /\
    malformed_messages (stats p') = malformed_messages (stats p) /\
    pending p' = [].
Proof.
  induction chunks as [|c chunks IH]; intros p fs Hpok Hcb Hok Hcons Hexp Hshort Hstream Hc.
  - cbn in Hstream. rewrite app_nil_r in Hstream.
    destruct (short_end p fs Hshort Hstream) as [-> Hnil].
    exists p. cbn. rewrite app_nil_r. tauto.
  - apply Forall_cons_1 in Hc as [Hc Hcs]. cbn [concat] in Hstream.
    destruct (feed_stream p c (concat chunks) fs Hpok Hcb Hok Hcons Hexp Hshort Hstream Hc)
      as (done & rest & p1 & -> & Hfeed & Hp1ok & Hcb1 & Hexp1 & Hshort1 & Hmore
          & Hcalls & Hgaps & Hsum & Hmal).
    apply Forall_app in Hok as [_ Hok]. apply consecutive_app_r in Hcons.
    destruct (IH p1 rest Hp1ok Hcb1 Hok Hcons Hexp1 Hshort1 Hmore Hcs)
      as (p' & Hall & Hcalls' & Hgaps' & Hsum' & Hmal' & Hnil).
    exists p'. cbn [feed_all]. rewrite Hfeed. cbn [mbind option_bind].
    rewrite Hall. cbn [mbind option_bind].
    rewrite Hcalls', Hcalls, map_app, length_app, <- app_assoc.
    conjs; try congruence. f_equal. f_equal. lia.
Qed.

(** Every round of the parse loop that does not stop consumes input. *)
Lemma parse_one_consumes p r p' :
  parse_one p = (r, p') -> r <> NEED_MORE_DATA ->
  (length (pending p') < length (pending p))%nat.
Proof.
  unfold parse_one. rewrite available_size.
  destruct (Z.ltb_spec (size (pending p)) HEADER_SIZE) as [|Hhdr]; [congruence|].
  set (type := message_type (view_header (pending p))).
  assert (Hone : (length (skipn 1 (pending p)) < length (pending p))%nat).
  { rewrite length_skipn. unfold size, HEADER_SIZE in Hhdr. lia. }
  destruct (Z.eqb_spec (get_message_size type) 0) as [|Hsize].
  { intros [= <- <-] _. exact Hone. }
  destruct (Z.ltb_spec (size (pending p)) (get_message_size type)) as [|Hall]; [congruence|].
  destruct (Z.ltb_spec QUOTE_MSG_SIZE (get_message_size type)).
  { intros [= <- <-] _. exact Hone. }
  destruct (validate_checksum (pending p) (get_message_size type)); cbn [negb].
  2: { intros [= <- <-] _. exact Hone. }
  assert (Hpos : 0 < get_message_size type).
  { unfold get_message_size in *. zcases; cbv; congruence. }
  assert (Hpend : forall q, pending (dispatch type (pending p) (snd (check_sequence p q))) = pending p).
  { intros q. unfold dispatch, check_sequence.
    destruct (first_message p), (q =? expected_sequence p), (gap_cb (callbacks p));
      cbn; zcases; cbn;
      repeat match goal with |- context [if ?b then _ else _] => destruct b end;
      reflexivity. }
  specialize (Hpend (sequence_number (view_header (pending p)))).
  destruct (check_sequence p _) as [in_order p1]. cbn [snd] in Hpend.
  intros [= <- <-] _. cbn [pending advance with_stats]. rewrite Hpend, length_skipn.
  unfold size in Hall. lia.
Qed.

Lemma parse_loop_returns fuel : forall p count,
  (length (pending p) < fuel)%nat -> exists r, parse_loop fuel p count = Some r.
Proof.
  induction fuel as [|fuel IH]; intros p count Hfuel; [lia|].
  cbn [parse_loop]. destruct (parse_one p) as [r p'] eqn:Hone.
  pose proof (parse_one_consumes p r p' Hone) as Hless.
  destruct r; try (now eexists); apply IH; (assert (length (pending p') < length (pending p))%nat by (apply Hless; discriminate)); lia.
Qed.

(** [parse_messages] returns for every parser state. *)
Lemma parse_messages_returns p : exists count p', parse_messages p = Some (count, p').
Proof.
  destruct (parse_loop_returns (S (length (pending p))) p 0) as [[count p'] H]; [lia|].
  now exists count, p'.
Qed.

Lemma new_parser_ok cbs : parser_ok (new_parser cbs).
Proof.
  unfold parser_ok, new_parser, write_pos, size, INITIAL_BUFFER_SIZE, MAX_BUFFER_SIZE.
  cbn. lia.
Qed.

Lemma short_empty p fs : pending p = [] -> short p fs.
Proof.
  intros Hp. destruct fs as [|f fs]; cbn [short]; [exact Hp|].
  rewrite Hp. pose proof (frame_size_bounds f) as Hsz.
  unfold HEARTBEAT_MSG_SIZE, HEADER_SIZE, CHECKSUM_SIZE in Hsz.
  change (size []) with 0. lia.
Qed.

Lemma frame_fits_chunk f : size (frame_bytes f) <= MAX_CHUNK.
Proof.
  pose proof (frame_size_bounds f) as Hsz.
  unfold MAX_CHUNK, INITIAL_BUFFER_SIZE, QUOTE_MSG_SIZE, HEADER_SIZE,
    QUOTE_PAYLOAD_SIZE, CHECKSUM_SIZE in *. lia.
Qed.

(** C1.  Codec round trip: the bytes the tick generator writes for a frame
    whose fields fit their types and whose header names the payload's kind
    (header, payload, appended XOR checksum), fed to a parser that has
    nothing unread and is not out of sequence, make [parse_messages] report
    exactly one message and invoke exactly one callback, the one of the
    frame's kind, with the same header and payload; the checksum validates,
    so the checksum-error and malformed counters do not move, and nothing
    stays unread. *)
Theorem generated_frame_parses_back f p :
  frame_ok f -> parser_ok p -> callbacks p = all_callbacks ->
  pending p = [] -> expects p [f] ->
  exists p',
    feed p (frame_bytes f) = Some (1, p') /\
    calls p' = calls p ++ [frame_call f] /\
    checksum_errors (stats p') = checksum_errors (stats p) /\
    malformed_messages (stats p') = malformed_messages (stats p) /\
    sequence_gaps (stats p') = sequence_gaps (stats p) /\
    pending p' = [].
Proof.
  intros Hok Hpok Hcb Hnil Hexp.
  assert (Hstream : pending p ++ frame_bytes f ++ [] = stream [f]).
  { rewrite Hnil. reflexivity. }
  destruct (feed_stream p (frame_bytes f) [] [f] Hpok Hcb
              (Forall_cons_2 _ _ _ Hok (Forall_nil_2 _)) I Hexp
              (short_empty p [f] Hnil) Hstream (frame_fits_chunk f))
    as (done & rest & p' & Hfs & Hfeed & _ & _ & _ & Hshort & Hmore & Hcalls & Hgaps & Hsum & Hmal).
  rewrite app_nil_r in Hmore.
  destruct (short_end p' rest Hshort Hmore) as [-> Hnil'].
  rewrite app_nil_r in Hfs. subst done.
  exists p'. conjs; assumption.
Qed.

(** C2 (amended).  Fragmentation: for every list of well-formed frames with
    consecutive sequence numbers and every partition of their concatenation
    into chunks of at most [MAX_CHUNK] bytes each (one-byte and empty chunks
    included), feeding the chunks in order to a new parser with
    [append_data] and [parse_messages] reports as many messages as there are
    frames and invokes exactly the frames' callbacks, in the original order;
    no gap is reported and no malformed message or checksum error is
    counted. *)
Theorem chunked_stream_delivers_every_frame fs chunks :
  Forall frame_ok fs -> consecutive fs -> concat chunks = stream fs ->
  Forall (fun c => size c <= MAX_CHUNK) chunks ->
  exists p',
    feed_all (new_parser all_callbacks) chunks = Some (Z.of_nat (length fs), p') /\
    calls p' = map frame_call fs /\
    sequence_gaps (stats p') = 0 /\
    checksum_errors (stats p') = 0 /\
    malformed_messages (stats p') = 0 /\
    pending p' = [].
Proof.
  intros Hok Hcons Hstream Hc.
  assert (Hexp : expects (new_parser all_callbacks) fs).
  { destruct fs; [exact I|]. now left. }
  exact (feed_all_stream chunks (new_parser all_callbacks) fs
           (new_parser_ok _) eq_refl Hok Hcons Hexp
           (short_empty (new_parser all_callbacks) fs eq_refl) Hstream Hc).
Qed.

Lemma last_accepted_app cs c :
  last_accepted (cs ++ [c]) =
  match call_header c with Some h => Some h | None => last_accepted cs end.
Proof.
  induction cs as [|d cs IH]; cbn.
  - now destruct (call_header c).
  - rewrite IH. destruct (call_header c); [reflexivity|].
    now destruct (last_accepted cs).
Qed.

Lemma parse_one_outcomes p r p' :
  callbacks p = all_callbacks -> parse_one p = (r, p') -> parse_one_outcome p r p'.
Proof.
  intros Hcb. unfold parse_one, dispatch. rewrite available_size.
  remember (skipn (Z.to_nat HEADER_SIZE) (pending p)) as payload eqn:Hpay. clear Hpay.
  remember (view_header (pending p)) as h eqn:Hh.
  destruct p as [bs rp pend es fm cbs st cl]. cbn in Hcb. subst cbs.
  cbn [pending] in *.
  destruct (Z.ltb_spec (size pend) HEADER_SIZE) as [|Hhdr].
  { intros [= <- <-]. now apply outcome_wait. }
  destruct (Z.eqb_spec (get_message_size (message_type h)) 0) as [|Hsize].
  { intros [= <- <-]. apply outcome_skip; auto. }
  destruct (Z.ltb_spec (size pend) (get_message_size (message_type h))).
  { intros [= <- <-]. now apply outcome_wait. }
  destruct (Z.ltb_spec QUOTE_MSG_SIZE (get_message_size (message_type h))).
  { intros [= <- <-]. apply outcome_skip; auto. }
  destruct (validate_checksum pend (get_message_size (message_type h))); cbn [negb].
  2: { intros [= <- <-]. apply outcome_skip; auto. }
  unfold check_sequence.
  cbn [gap_cb trade_cb quote_cb heartbeat_cb all_callbacks callbacks first_message
         expected_sequence expect invoke with_stats].
  unfold get_message_size in Hsize. revert Hsize.
  destruct fm; cbn [negb andb];
    [|destruct (sequence_number h =? es) eqn:Hseq; cbn [negb]];
    repeat match goal with
      | |- context [Z.eqb (message_type h) ?k] =>
          destruct (Z.eqb_spec (message_type h) k)
      end;
    intros Hsize [= <- <-]; try congruence;
    [> solve
      [ apply (outcome_accept _ _ _ (OnTrade h (view_trade payload)));
        cbn [pending]; rewrite <- ?Hh; unfold is_gap; cbn; rewrite ?Hseq; cbn; rewrite <- ?app_assoc; cbn; congruence
      | apply (outcome_accept _ _ _ (OnQuote h (view_quote payload)));
        cbn [pending]; rewrite <- ?Hh; unfold is_gap; cbn; rewrite ?Hseq; cbn; rewrite <- ?app_assoc; cbn; congruence
      | apply (outcome_accept _ _ _ (OnHeartbeat h));
        cbn [pending]; rewrite <- ?Hh; unfold is_gap; cbn; rewrite ?Hseq; cbn; rewrite <- ?app_assoc; cbn; congruence ] ..].
Qed.

(** [append_data] touches the buffer and one counter only. *)
Lemma append_data_keeps p data n p' :
  append_data p data = Some (n, p') ->
  calls p' = calls p /\ first_message p' = first_message p /\
  expected_sequence p' = expected_sequence p /\ callbacks p' = callbacks p.
Proof.
  unfold append_data, compact_buffer, copy_in, resize, with_stats.
  destruct p as [bs rp pend es fm cbs st cl].
  repeat (zcase; cbn [buffer_size read_pos pending expected_sequence first_message
                        callbacks stats calls mbind option_bind]);
    intros [= <- <-] || discriminate; now cbn.
Qed.

Lemma parse_one_tracked p r p' :
  callbacks p = all_callbacks -> sequence_tracked p -> parse_one p = (r, p') ->
  callbacks p' = all_callbacks /\ sequence_tracked p'.
Proof.
  intros Hcb Hinv Hone.
  destruct (parse_one_outcomes p r p' Hcb Hone)
    as [_ ->|_ Hcalls Hfm Hes Hcb'|c h gap _ Hhdr _ Hcalls Hfm Hes Hcb' _].
  - now split.
  - split; [congruence|]. unfold sequence_tracked in *. now rewrite Hcalls, Hfm, Hes.
  - split; [congruence|]. unfold sequence_tracked.
    rewrite Hcalls, app_assoc, last_accepted_app, Hhdr. now split.
Qed.

Lemma parse_loop_tracked fuel : forall p count n p',
  callbacks p = all_callbacks -> sequence_tracked p ->
  parse_loop fuel p count = Some (n, p') ->
  callbacks p' = all_callbacks /\ sequence_tracked p'.
Proof.
  induction fuel as [|fuel IH]; intros p count n p' Hcb Hinv; [discriminate|].
  cbn [parse_loop]. destruct (parse_one p) as [r p1] eqn:Hone.
  destruct (parse_one_tracked p r p1 Hcb Hinv Hone) as [Hcb1 Hinv1].
  destruct r; try (intros [= <- <-]; now split); now apply IH.
Qed.

Lemma reachable_tracked p :
  reachable p -> callbacks p = all_callbacks /\ sequence_tracked p.
Proof.
  induction 1 as [|p data n p' _ [Hcb Hinv] Happ|p r p' _ [Hcb Hinv] Hone
                  |p n p' _ [Hcb Hinv] Hall].
  - now split.
  - destruct (append_data_keeps p data n p' Happ) as (Hcalls & Hfm & Hes & Hcb').
    split; [congruence|]. unfold sequence_tracked in *. now rewrite Hcalls, Hfm, Hes.
  - now apply (parse_one_tracked p r p').
  - now apply (parse_loop_tracked (S (length (pending p))) p 0 n p').
Qed.

(** C3.  In every state the consumer can drive the parser into (a new parser
    with its callbacks registered, then any calls of [append_data],
    [parse_one] and [parse_messages]) the sequence invariant holds: no frame
    accepted yet and [first_message_] still set, or [expected_sequence_] is
    the last accepted frame's number plus one modulo 2^32.  And whenever
    [parse_one] then accepts a frame that is not the first and whose number
    differs from the expected one, it answers [SEQUENCE_GAP], invokes the gap
    callback with (expected, received), then the callback of the frame's own
    kind with the frame's header, counts one more gap, and expects
    received + 1. *)
Theorem expected_sequence_follows_last_accepted p :
  reachable p ->
  sequence_tracked p /\
  forall r p',
    parse_one p = (r, p') -> r = SUCCESS \/ r = SEQUENCE_GAP ->
    let h := view_header (pending p) in
    first_message p = false -> sequence_number h <> expected_sequence p ->
    r = SEQUENCE_GAP /\
    exists c,
      call_header c = Some h /\ call_kind c = Some (message_type h) /\
      calls p' = calls p ++ [OnGap (expected_sequence p) (sequence_number h); c] /\
      sequence_gaps (stats p') = wrap64 (sequence_gaps (stats p) + 1) /\
      expected_sequence p' = wrap32 (sequence_number h + 1).
Proof.
  intros Hreach. destruct (reachable_tracked p Hreach) as [Hcb Hinv].
  split; [exact Hinv|]. intros r p' Hone Hacc h Hfm Hseq.
  destruct (parse_one_outcomes p r p' Hcb Hone)
    as [-> _|[-> | ->] _ _ _ _|c h' gap Hr Hhdr Hkind Hcalls _ Hes _ Hgaps].
  - destruct Hacc; discriminate.
  - destruct Hacc; discriminate.
  - destruct Hacc; discriminate.
  - assert (Hgap : gap = true).
    { subst gap h h'. unfold is_gap. rewrite Hfm. apply Z.eqb_neq in Hseq.
      now rewrite Hseq. }
    rewrite Hgap in *. split; [exact Hr|].
    exists c. now conjs.
Qed.

End ParserFacts.

(** * The parser on concrete frames *)
Module ParserExamples.
Import Protocol TickGenerator Parser Frames ProtocolFacts ParserFacts ParserScenarios.

Lemma concat_bytewise bs : concat (bytewise bs) = bs.
Proof.
  unfold bytewise. induction bs as [|b bs IH]; [reflexivity|].
  cbn [map concat]. now rewrite IH.
Qed.

Lemma bytewise_small bs : Forall (fun c => size c <= MAX_CHUNK) (bytewise bs).
Proof.
  induction bs as [|b bs IH]; constructor; [|exact IH].
  unfold MAX_CHUNK, INITIAL_BUFFER_SIZE, QUOTE_MSG_SIZE, HEADER_SIZE,
    QUOTE_PAYLOAD_SIZE, CHECKSUM_SIZE, size. cbn. lia.
Qed.

Ltac fits_now := vm_compute; repeat split; congruence.

Lemma quote7_ok : frame_ok quote7.
Proof. fits_now. Qed.

Lemma trade8_ok : frame_ok trade8.
Proof. fits_now. Qed.

Lemma beat9_ok : frame_ok beat9.
Proof. fits_now. Qed.

Lemma beat11_ok : frame_ok beat11.
Proof. fits_now. Qed.

Lemma before_gap_reachable : reachable before_gap.
Proof.
  eapply reach_parse_one; [|apply surjective_pairing].
  eapply (reach_append_data _ (frame_bytes quote7 ++ frame_bytes beat11) 64);
    [apply reach_new|reflexivity].
Qed.

(** The test vector parses back on a new parser. *)
Lemma generated_frame_parses_back_witness :
  frame_ok quote7 /\
  exists p',
    feed (new_parser all_callbacks) (frame_bytes quote7) = Some (1, p') /\
    calls p' = calls (new_parser all_callbacks) ++ [frame_call quote7] /\
    checksum_errors (stats p') = checksum_errors (stats (new_parser all_callbacks)) /\
    malformed_messages (stats p') = malformed_messages (stats (new_parser all_callbacks)) /\
    sequence_gaps (stats p') = sequence_gaps (stats (new_parser all_callbacks)) /\
    pending p' = [].
Proof.
  split; [exact quote7_ok|].
  apply (generated_frame_parses_back quote7 (new_parser all_callbacks)).
  - exact quote7_ok.
  - apply new_parser_ok.
  - reflexivity.
  - reflexivity.
  - left. reflexivity.
Defined.

(** Three frames of the three kinds, fed one byte at a time. *)
Lemma chunked_stream_witness :
  exists p',
    feed_all (new_parser all_callbacks) (bytewise (stream [quote7; trade8; beat9]))
      = Some (3, p') /\
    calls p' = map frame_call [quote7; trade8; beat9] /\
    sequence_gaps (stats p') = 0 /\
    checksum_errors (stats p') = 0 /\
    malformed_messages (stats p') = 0 /\
    pending p' = [].
Proof.
  apply (chunked_stream_delivers_every_frame [quote7; trade8; beat9]
           (bytewise (stream [quote7; trade8; beat9]))).
  - repeat constructor; fits_now.
  - cbn. split; [reflexivity|]. split; [reflexivity|exact I].
  - apply concat_bytewise.
  - apply bytewise_small.
Defined.

(** Number 11 arriving where 8 is expected. *)
Lemma expected_sequence_witness :
  sequence_tracked before_gap /\
  exists c p',
    parse_one before_gap = (SEQUENCE_GAP, p') /\
    call_header c = Some (frame_header beat11) /\
    calls p' = calls before_gap ++ [OnGap 8 11; c] /\
    sequence_gaps (stats p') = 1 /\
    expected_sequence p' = 12.
Proof.
  destruct (expected_sequence_follows_last_accepted before_gap before_gap_reachable)
    as [Hinv Hgap].
  split; [exact Hinv|].
  destruct (Hgap SEQUENCE_GAP (snd (parse_one before_gap))) as (_ & c & Hh & _ & Hc & Hg & He).
  - vm_compute. reflexivity.
  - now right.
  - reflexivity.
  - vm_compute. discriminate.
  - exists c, (snd (parse_one before_gap)). split; [vm_compute; reflexivity|].
    split; [rewrite Hh; vm_compute; reflexivity|].
    split; [exact Hc|]. split; [rewrite Hg; vm_compute; reflexivity|].
    rewrite He. vm_compute. reflexivity.
Defined.

(** ** Chunks larger than the buffer can take *)

Lemma beat_ok i : frame_ok (beat i).
Proof.
  unfold frame_ok, header_fits, beat.
  cbn [frame_header frame_kind message_type sequence_number timestamp_ns symbol_id].
  conjs; try reflexivity; try exact I;
    [ vm_compute; split; congruence
    | apply Z.mod_pos_bound; reflexivity
    | vm_compute; split; congruence
    | vm_compute; split; congruence ].
Qed.

Lemma beats_ok n : forall a, Forall frame_ok (beats a n).
Proof. induction n as [|n IH]; intros a; constructor; [apply beat_ok|apply IH]. Qed.

Lemma beats_consecutive n : forall a, consecutive (beats a n).
Proof.
  induction n as [|n IH]; intros a; [exact I|].
  specialize (IH (a + 1)). cbn [beats] in *. destruct n as [|n]; [exact I|].
  cbn [beats consecutive] in *. split; [|exact IH].
  unfold frame_seq, beat, wrap32. cbn. now rewrite Zplus_mod_idemp_l.
Qed.

Lemma beats_app n : forall a m,
  beats a (n + m) = beats a n ++ beats (a + Z.of_nat n) m.
Proof.
  induction n as [|n IH]; intros a m.
  - cbn. now rewrite Z.add_0_r.
  - cbn [beats Nat.add app]. rewrite IH. do 3 f_equal. lia.
Qed.

Lemma length_beats n : forall a, length (beats a n) = n.
Proof. induction n as [|n IH]; intros a; cbn; [reflexivity|now rewrite IH]. Qed.

Lemma size_beats n : forall a, size (stream (beats a n)) = 20 * Z.of_nat n.
Proof.
  induction n as [|n IH]; intros a; [reflexivity|].
  cbn [beats]. rewrite stream_cons, size_app, IH, size_frame_bytes.
  change (get_message_size (frame_kind (beat a))) with 20. lia.
Qed.

(** A parser with nothing unread takes a chunk larger than its buffer, but
    at most twice as large, by doubling the buffer once. *)
Lemma append_data_doubles p c :
  parser_ok p -> pending p = [] ->
  buffer_size p < size c <= 2 * buffer_size p -> 2 * buffer_size p <= MAX_BUFFER_SIZE ->
  exists p1,
    append_data p c = Some (size c, p1) /\
    pending p1 = c /\ buffer_size p1 = 2 * buffer_size p /\ read_pos p1 = 0 /\
    same_session p p1.
Proof.
  unfold parser_ok, same_session, append_data, compact_buffer, copy_in, resize,
    write_pos, INITIAL_BUFFER_SIZE, MAX_BUFFER_SIZE.
  destruct p as [bs rp pend es fm cbs st cl]. cbn.
  intros ((Hlo & Hhi) & Hrp & Hwp) -> Hc Hmax.
  change (size []) with 0 in *.
  repeat (zcase;
          cbn [buffer_size read_pos pending expected_sequence first_message
                 callbacks stats calls with_stats mbind option_bind];
          change (size []) with 0 in *;
          try lia);
    eexists; (split; [reflexivity|]);
    cbn [buffer_size read_pos pending expected_sequence first_message
           callbacks stats calls app];
    conjs; try reflexivity; lia.
Qed.

(** Once the buffer has its maximal size, a chunk larger than that is
    dropped and counted as malformed. *)
Lemma append_data_drops p c :
  parser_ok p -> pending p = [] ->
  buffer_size p = MAX_BUFFER_SIZE -> MAX_BUFFER_SIZE < size c ->
  exists p1,
    append_data p c = Some (0, p1) /\
    pending p1 = [] /\ calls p1 = calls p /\
    malformed_messages (stats p1) = wrap64 (malformed_messages (stats p) + 1).
Proof.
  unfold parser_ok, append_data, compact_buffer, copy_in, resize,
    write_pos, INITIAL_BUFFER_SIZE, MAX_BUFFER_SIZE.
  destruct p as [bs rp pend es fm cbs st cl]. cbn.
  intros ((Hlo & Hhi) & Hrp & Hwp) -> Hbs Hc.
  change (size []) with 0 in *.
  repeat (zcase;
          cbn [buffer_size read_pos pending expected_sequence first_message
                 callbacks stats calls with_stats mbind option_bind];
          change (size []) with 0 in *;
          try lia);
    eexists; (split; [reflexivity|]);
    cbn [buffer_size read_pos pending expected_sequence first_message
           callbacks stats calls malformed_messages add_malformed_messages];
    conjs; reflexivity.
Qed.

Lemma parse_messages_empty p : pending p = [] -> parse_messages p = Some (0, p).
Proof.
  intros Hp. unfold parse_messages. rewrite Hp. cbn [length parse_loop].
  unfold parse_one. rewrite available_size, Hp. reflexivity.
Qed.

Lemma size_nil (bs : list byte) : size bs = 0 -> bs = [].
Proof. destruct bs; [reflexivity|]. unfold size. cbn [length]. lia. Qed.

Lemma size_stream_beats fs :
  Forall (fun f => size (frame_bytes f) = 20) fs ->
  size (stream fs) = 20 * Z.of_nat (length fs).
Proof.
  induction 1 as [|f fs Hf _ IH]; [reflexivity|].
  rewrite stream_cons, size_app, Hf, IH. cbn [length]. lia.
Qed.

Lemma beats_size n : forall a, Forall (fun f => size (frame_bytes f) = 20) (beats a n).
Proof. induction n as [|n IH]; intros a; constructor; [reflexivity|apply IH]. Qed.

(** A parser holding exactly [n] heartbeats accepts them all and is ready
    for the heartbeats that follow. *)
Lemma parse_beats p a n m :
  callbacks p = all_callbacks -> pending p = stream (beats a n) ->
  expects p (beats a (n + m)) ->
  exists p',
    parse_messages p = Some (Z.of_nat n, p') /\
    delivered p (beats a n) p' /\ pending p' = [] /\
    expects p' (beats (a + Z.of_nat n) m).
Proof.
  intros Hcb Hp Hexp.
  assert (Hstream : pending p ++ stream (beats (a + Z.of_nat n) m) = stream (beats a (n + m))).
  { now rewrite Hp, beats_app, stream_app. }
  destruct (parse_loop_stream (beats a (n + m)) p _ (S (length (pending p))) 0
              (beats_ok _ _) (beats_consecutive _ _) Hexp Hcb Hstream
              (Nat.lt_succ_diag_r _))
    as (done & rest & p' & Hfs & Hloop & Hdel & Hexp' & Hshort & Hmore).
  pose proof (beats_size (n + m) a) as Hsizes. rewrite Hfs in Hsizes.
  apply Forall_app in Hsizes as [Hdone Hrest].
  pose proof Hdel as (Hpend & _).
  assert (Hsz : 20 * Z.of_nat n = 20 * Z.of_nat (length done) + size (pending p')).
  { rewrite <- (size_beats n a), <- Hp, Hpend, size_app, (size_stream_beats done Hdone).
    reflexivity. }
  assert (Hsmall : 0 <= size (pending p') < 20).
  { split; [apply size_nonneg|]. destruct rest as [|g rest]; cbn [short] in Hshort.
    - rewrite Hshort. reflexivity.
    - apply Forall_cons_1 in Hrest as [Hg _]. lia. }
  assert (Hnil : pending p' = []) by (apply size_nil; lia).
  assert (Hlen : length done = length (beats a n)) by (rewrite length_beats; lia).
  rewrite beats_app in Hfs. symmetry in Hfs.
  apply app_inj_1 in Hfs as [-> ->]; [|exact Hlen].
  exists p'. unfold parse_messages. rewrite Hloop, length_beats.
  conjs; try assumption. reflexivity.
Qed.

(** Three chunks of whole heartbeats: the first two make the buffer double
    twice, up to its maximal size; the third is larger than that, so
    [append_data] drops it and its frames are never delivered. *)
Lemma growing_chunks n1 n2 n3 :
  INITIAL_BUFFER_SIZE < 20 * Z.of_nat n1 <= 2 * INITIAL_BUFFER_SIZE ->
  2 * INITIAL_BUFFER_SIZE < 20 * Z.of_nat n2 <= MAX_BUFFER_SIZE ->
  MAX_BUFFER_SIZE < 20 * Z.of_nat n3 ->
  exists p',
    feed_all (new_parser all_callbacks)
      [stream (beats 1 n1);
       stream (beats (1 + Z.of_nat n1) n2);
       stream (beats (1 + Z.of_nat n1 + Z.of_nat n2) n3)]
      = Some (Z.of_nat n1 + (Z.of_nat n2 + (0 + 0)), p') /\
    calls p' = map frame_call (beats 1 (n1 + n2)) /\
    malformed_messages (stats p') = 1.
Proof.
  unfold INITIAL_BUFFER_SIZE, MAX_BUFFER_SIZE. intros H1 H2 H3.
  set (p0 := new_parser all_callbacks).
  (* first chunk *)
  destruct (append_data_doubles p0 (stream (beats 1 n1)) (new_parser_ok _) eq_refl)
    as (p1 & Happ1 & Hp1 & Hbs1 & Hrp1 & Hes1 & Hfm1 & Hcb1 & Hst1 & Hcl1).
  { rewrite size_beats. change (buffer_size p0) with (4 * 1024 * 1024). lia. }
  { change (buffer_size p0) with (4 * 1024 * 1024). unfold MAX_BUFFER_SIZE. lia. }
  change (buffer_size p0) with (4 * 1024 * 1024) in Hbs1.
  destruct (parse_beats p1 1 n1 (n2 + n3)) as (p2 & Hparse2 & Hdel2 & Hp2 & Hexp2).
  { now rewrite Hcb1. } { exact Hp1. }
  { destruct (beats 1 (n1 + (n2 + n3))); [exact I|]. left. now rewrite Hfm1. }
  destruct Hdel2 as (_ & Hw2 & Hbs2 & Hcb2 & Hcl2 & _ & _ & Hmal2).
  assert (Hok2 : parser_ok p2).
  { unfold parser_ok, write_pos, INITIAL_BUFFER_SIZE, MAX_BUFFER_SIZE in *.
    rewrite Hp2 in *. rewrite Hp1, Hrp1, size_beats in Hw2.
    change (size []) with 0 in *. lia. }
  (* second chunk *)
  destruct (append_data_doubles p2 (stream (beats (1 + Z.of_nat n1) n2)) Hok2 Hp2)
    as (p3 & Happ3 & Hp3 & Hbs3 & Hrp3 & Hes3 & Hfm3 & Hcb3 & Hst3 & Hcl3).
  { rewrite size_beats. lia. }
  { unfold MAX_BUFFER_SIZE. lia. }
  destruct (parse_beats p3 (1 + Z.of_nat n1) n2 n3) as (p4 & Hparse4 & Hdel4 & Hp4 & Hexp4).
  { now rewrite Hcb3, Hcb2, Hcb1. } { exact Hp3. }
  { destruct (beats (1 + Z.of_nat n1) (n2 + n3)); [exact I|].
    cbn [expects] in *. now rewrite Hfm3, Hes3. }
  destruct Hdel4 as (_ & Hw4 & Hbs4 & Hcb4 & Hcl4 & _ & _ & Hmal4).
  assert (Hok4 : parser_ok p4).
  { unfold parser_ok, write_pos, INITIAL_BUFFER_SIZE, MAX_BUFFER_SIZE in *.
    rewrite Hp4 in *. rewrite Hp3, Hrp3, size_beats in Hw4.
    change (size []) with 0 in *. lia. }
  (* third chunk *)
  destruct (append_data_drops p4 (stream (beats (1 + Z.of_nat n1 + Z.of_nat n2) n3)) Hok4 Hp4)
    as (p5 & Happ5 & Hp5 & Hcl5 & Hmal5).
  { unfold MAX_BUFFER_SIZE. lia. }
  { rewrite size_beats. unfold MAX_BUFFER_SIZE. lia. }
  exists p5. cbn [feed_all]. unfold feed.
  rewrite Happ1. cbn [mbind option_bind]. rewrite Hparse2. cbn [mbind option_bind].
  rewrite Happ3. cbn [mbind option_bind]. rewrite Hparse4. cbn [mbind option_bind].
  rewrite Happ5. cbn [mbind option_bind]. rewrite (parse_messages_empty p5 Hp5).
  cbn [mbind option_bind]. split; [reflexivity|]. split.
  - rewrite Hcl5, Hcl4, Hcl3, Hcl2, Hcl1, beats_app, map_app. reflexivity.
  - rewrite Hmal5, Hmal4, Hst3, Hmal2, Hst1. reflexivity.
Qed.

Lemma chunks_partition n1 n2 n3 :
  concat [stream (beats 1 n1);
          stream (beats (1 + Z.of_nat n1) n2);
          stream (beats (1 + Z.of_nat n1 + Z.of_nat n2) n3)]
  = stream (beats 1 (n1 + n2 + n3)).
Proof.
  cbn [concat]. rewrite app_nil_r, !beats_app, !stream_app, Nat2Z.inj_add, <- app_assoc.
  now rewrite Z.add_assoc.
Qed.

Lemma calls_differ n m :
  (0 < m)%nat -> map frame_call (beats 1 n) <> map frame_call (beats 1 (n + m)).
Proof.
  intros Hm Heq. apply (f_equal (@length Call)) in Heq.
  rewrite !length_map, !length_beats in Heq. lia.
Qed.

Lemma frames1_count : Z.of_nat frames1 = 209716.
Proof. apply Z2Nat.id. discriminate. Qed.

Lemma frames2_count : Z.of_nat frames2 = 419431.
Proof. apply Z2Nat.id. discriminate. Qed.

Lemma frames3_count : Z.of_nat frames3 = 838861.
Proof. apply Z2Nat.id. discriminate. Qed.

(** C2, as stated, fails: the frames are well-formed and consecutively
    numbered and the chunks partition their stream, but the third chunk
    exceeds the 16 MiB the buffer may grow to, so it is dropped: 629147 of
    the 1468008 frames are delivered and one malformed message is counted. *)
Lemma oversized_chunk_is_dropped :
  Forall frame_ok many_beats /\ consecutive many_beats /\
  concat big_chunks = stream many_beats /\
  Z.of_nat (length many_beats) = 1468008 /\
  exists p',
    feed_all (new_parser all_callbacks) big_chunks = Some (629147, p') /\
    malformed_messages (stats p') = 1 /\
    calls p' = map frame_call (beats 1 (frames1 + frames2)) /\
    calls p' <> map frame_call many_beats.
Proof.
  pose proof frames1_count as H1. pose proof frames2_count as H2.
  pose proof frames3_count as H3.
  unfold many_beats, big_chunks. generalize dependent frames3.
  generalize dependent frames2. generalize dependent frames1.
  intros n1 H1 n2 H2 n3 H3.
  split; [apply beats_ok|]. split; [apply beats_consecutive|].
  split; [apply chunks_partition|].
  split; [rewrite length_beats; lia|].
  destruct (growing_chunks n1 n2 n3) as (p' & Hfeed & Hcalls & Hmal);
    [unfold INITIAL_BUFFER_SIZE, MAX_BUFFER_SIZE; lia..|].
  exists p'. split.
  { rewrite Hfeed. do 2 f_equal. lia. }
  split; [exact Hmal|]. split; [exact Hcalls|].
  rewrite Hcalls. apply calls_differ. lia.
Qed.

End ParserExamples.

Module CacheFacts.
Import Cache.

Lemma odd_wrap64 z : Z.odd (wrap64 z) = Z.odd z.
Proof.
  unfold wrap64. rewrite <- !Z.bit0_odd. apply Z.mod_pow2_bits_low. lia.
Qed.

Lemma even_wrap64 z : Z.even (wrap64 z) = Z.even z.
Proof. rewrite <- !Z.negb_odd. now rewrite odd_wrap64. Qed.

Lemma entry_with_entry f id c :
  0 <= id < Z.of_nat (length (entries c)) ->
  entry (with_entry f id c) id = f (entry c id).
Proof.
  intros Hid. unfold entry, with_entry. cbn [entries].
  rewrite list_lookup_alter_eq.
  destruct (lookup_lt_is_Some_2 (entries c) (Z.to_nat id)) as [e ->]; [lia|].
  reflexivity.
Qed.

Lemma entry_with_entry_ne f id j c :
  0 <= id -> 0 <= j -> id <> j -> entry (with_entry f id c) j = entry c j.
Proof.
  intros Hid Hj Hne. unfold entry, with_entry. cbn [entries].
  rewrite list_lookup_alter_ne by lia. reflexivity.
Qed.

Lemma with_entry_ok f id c : cache_ok c -> cache_ok (with_entry f id c).
Proof. unfold cache_ok, with_entry. cbn. now rewrite length_alter. Qed.

Lemma store_ok f id c : cache_ok c -> cache_ok (store f id c).
Proof. apply with_entry_ok. Qed.

Lemma run_stores_ok id stores : forall c, cache_ok c -> cache_ok (run_stores id stores c).
Proof.
  unfold run_stores. induction stores as [|f stores IH]; intros c Hc; [exact Hc|].
  cbn [fold_left]. apply IH. now apply store_ok.
Qed.

Lemma run_stores_num id stores : forall c,
  num_symbols (run_stores id stores c) = num_symbols c.
Proof.
  unfold run_stores. induction stores as [|f stores IH]; intros c; [reflexivity|].
  cbn [fold_left]. now rewrite IH.
Qed.

Lemma entry_run_stores id stores : forall c,
  0 <= id < Z.of_nat (length (entries c)) ->
  entry (run_stores id stores c) id =
  mkEntry (sequence (entry c id)) (assign stores (state (entry c id))).
Proof.
  unfold run_stores, assign.
  induction stores as [|f stores IH]; intros c Hid; cbn [fold_left].
  - now destruct (entry c id).
  - rewrite IH by (unfold store, with_entry; cbn; now rewrite length_alter).
    unfold store. now rewrite entry_with_entry.
Qed.

Lemma entry_run_stores_ne id j stores : forall c,
  0 <= id -> 0 <= j -> id <> j -> entry (run_stores id stores c) j = entry c j.
Proof.
  unfold run_stores.
  induction stores as [|f stores IH]; intros c Hid Hj Hne; cbn [fold_left]; [reflexivity|].
  rewrite IH by assumption. unfold store. now apply entry_with_entry_ne.
Qed.

(** A write in progress ends in the state the assignments produce. *)
Lemma last_during id stores : forall c,
  last (during id stores c) = Some (run_stores id stores c).
Proof.
  unfold run_stores.
  induction stores as [|f stores IH]; intros c; cbn [during fold_left]; [reflexivity|].
  rewrite <- IH. destruct stores; reflexivity.
Qed.

(** No assignment touches the counter. *)
Lemma during_sequence id stores : forall c,
  0 <= id < Z.of_nat (length (entries c)) ->
  Forall (fun c' => sequence (entry c' id) = sequence (entry c id)) (during id stores c).
Proof.
  induction stores as [|f stores IH]; intros c Hid; cbn [during].
  - now constructor.
  - constructor; [reflexivity|].
    assert (Hseq : sequence (entry (store f id c) id) = sequence (entry c id)).
    { unfold store. now rewrite entry_with_entry. }
    rewrite <- Hseq. apply IH. unfold store, with_entry. cbn. now rewrite length_alter.
Qed.

(** What a writer call does to the entry it addresses. *)
Lemma with_entry_num f id c : num_symbols (with_entry f id c) = num_symbols c.
Proof. reflexivity. Qed.

Lemma with_entry_length f id c :
  length (entries (with_entry f id c)) = length (entries c).
Proof. unfold with_entry. cbn. apply length_alter. Qed.

Lemma run_stores_length id stores : forall c,
  length (entries (run_stores id stores c)) = length (entries c).
Proof.
  unfold run_stores. induction stores as [|f stores IH]; intros c; [reflexivity|].
  cbn [fold_left]. rewrite IH. apply with_entry_length.
Qed.

Lemma entry_write id stores c :
  cache_ok c -> 0 <= id < num_symbols c ->
  entry (write id stores c) id =
  mkEntry (wrap64 (wrap64 (sequence (entry c id) + 1) + 1))
    (assign stores (state (entry c id))).
Proof.
  unfold cache_ok. intros Hc Hid. unfold write, begin_write, end_write.
  destruct (Z.leb_spec (num_symbols c) id) as [|_]; [lia|].
  rewrite run_stores_num, with_entry_num.
  destruct (Z.leb_spec (num_symbols c) id) as [|_]; [lia|].
  rewrite entry_with_entry by (rewrite run_stores_length, with_entry_length; lia).
  rewrite entry_run_stores by (rewrite with_entry_length; lia).
  rewrite entry_with_entry by lia. reflexivity.
Qed.

Lemma entry_write_ne id j stores c :
  0 <= id -> 0 <= j -> id <> j -> entry (write id stores c) j = entry c j.
Proof.
  intros Hid Hj Hne. unfold write, begin_write, end_write.
  destruct (Z.leb_spec (num_symbols c) id) as [|Hin]; [reflexivity|].
  rewrite run_stores_num, with_entry_num.
  destruct (Z.leb_spec (num_symbols c) id) as [|_]; [lia|].
  rewrite entry_with_entry_ne, entry_run_stores_ne, entry_with_entry_ne by assumption.
  reflexivity.
Qed.

Lemma apply_update_write c id u : apply_update c id u = write id (stores_of u) c.
Proof. destruct u; reflexivity. Qed.

Lemma write_ok id stores c : cache_ok c -> cache_ok (write id stores c).
Proof.
  unfold cache_ok, write, begin_write, end_write. intros Hc.
  destruct (Z.leb_spec (num_symbols c) id); [exact Hc|].
  rewrite run_stores_num, with_entry_num.
  destruct (Z.leb_spec (num_symbols c) id); [lia|].
  rewrite with_entry_num, run_stores_num, with_entry_num, with_entry_length,
    run_stores_length, with_entry_length. exact Hc.
Qed.

Lemma write_out_of_range id stores c : num_symbols c <= id -> write id stores c = c.
Proof. unfold write. intros H. destruct (Z.leb_spec (num_symbols c) id); [reflexivity|lia]. Qed.

Lemma entry_nonneg c j : entry c j = entry c (Z.of_nat (Z.to_nat j)).
Proof. unfold entry. now rewrite Nat2Z.id. Qed.

Lemma new_cache_ok n : cache_ok (new_cache n).
Proof.
  unfold cache_ok, new_cache, reset, MAX_SYMBOLS. cbn [num_symbols entries].
  rewrite length_replicate. lia.
Qed.

Lemma entry_new_cache n j : entry (new_cache n) j = mkEntry 0 empty_state.
Proof.
  unfold entry, new_cache, reset. cbn [entries].
  destruct (replicate (Z.to_nat MAX_SYMBOLS) (mkEntry 0 empty_state) !! Z.to_nat j) eqn:H;
    [|reflexivity].
  apply lookup_replicate_1 in H as [-> _]. reflexivity.
Qed.

(** Between writer calls every counter is even. *)
Lemma quiescent_even c :
  quiescent c -> cache_ok c /\ forall j, Z.even (sequence (entry c j)) = true.
Proof.
  induction 1 as [n|c id u _ [Hok Heven] Hid].
  - split; [apply new_cache_ok|]. intros j. now rewrite entry_new_cache.
  - rewrite apply_update_write. split; [now apply write_ok|]. intros j.
    destruct (Z.le_gt_cases (num_symbols c) id) as [Hout|Hin].
    { rewrite write_out_of_range by exact Hout. apply Heven. }
    rewrite entry_nonneg.
    destruct (Z.eq_dec id (Z.of_nat (Z.to_nat j))) as [<-|Hne].
    + rewrite entry_write by (exact Hok || lia). cbn [sequence].
      rewrite !even_wrap64, Z.even_add, even_wrap64, Z.even_add, Heven. reflexivity.
    + rewrite entry_write_ne by lia. apply Heven.
Qed.

(** C4.  Seqlock write protocol: between writer calls the counter of every
    entry is even; and a writer call ([update_quote], [update_trade],
    [update_bid], [update_ask]) on a symbol in range first stores s+1 (odd)
    with the payload still as it was, keeps s+1 through every assignment to
    the payload, and last stores s+2 (even again) over the payload as the
    assignments left it: the counter goes up by exactly 2, modulo 2^64, per
    applied update. *)
Theorem seqlock_counter_parity c :
  quiescent c ->
  (forall j, Z.even (sequence (entry c j)) = true) /\
  forall id u, 0 <= id < num_symbols c ->
    let s := sequence (entry c id) in
    let started := begin_write c id in
    let finished := apply_update c id u in
    sequence (entry started id) = wrap64 (s + 1) /\
    state (entry started id) = state (entry c id) /\
    Forall (fun c' => sequence (entry c' id) = wrap64 (s + 1) /\
                      Z.odd (sequence (entry c' id)) = true)
      (during id (stores_of u) started) /\
    (exists c_last,
       last (during id (stores_of u) started) = Some c_last /\
       finished = end_write c_last id /\
       state (entry finished id) = state (entry c_last id)) /\
    sequence (entry finished id) = wrap64 (s + 2) /\
    Z.even (sequence (entry finished id)) = true.
Proof.
  intros Hq. destruct (quiescent_even c Hq) as [Hok Heven].
  split; [exact Heven|]. intros id u Hid s started finished.
  pose proof Hok as Hlen. unfold cache_ok in Hlen.
  assert (Hstarted : entry started id = bump_sequence (entry c id)).
  { subst started. unfold begin_write.
    destruct (Z.leb_spec (num_symbols c) id); [lia|]. apply entry_with_entry. lia. }
  assert (Hfinished : entry finished id =
            mkEntry (wrap64 (s + 2)) (assign (stores_of u) (state (entry c id)))).
  { subst finished s. rewrite apply_update_write, entry_write by assumption.
    f_equal. unfold wrap64. rewrite Zplus_mod_idemp_l. f_equal. lia. }
  assert (Hlen' : 0 <= id < Z.of_nat (length (entries started))).
  { subst started. unfold begin_write.
    destruct (Z.leb_spec (num_symbols c) id); [lia|]. rewrite with_entry_length. lia. }
  conjs.
  - now rewrite Hstarted.
  - now rewrite Hstarted.
  - eapply Forall_impl; [apply during_sequence; exact Hlen'|].
    intros c' Hc'. cbn beta in Hc'. rewrite Hc', Hstarted. cbn [bump_sequence sequence].
    split; [reflexivity|]. fold s.
    rewrite odd_wrap64, Z.odd_add, <- Z.negb_even. subst s. now rewrite Heven.
  - exists (run_stores id (stores_of u) started). split; [apply last_during|].
    split.
    + subst finished started. rewrite apply_update_write. unfold write.
      destruct (Z.leb_spec (num_symbols c) id); [lia|reflexivity].
    + rewrite Hfinished, entry_run_stores, Hstarted by exact Hlen'. reflexivity.
  - now rewrite Hfinished.
  - rewrite Hfinished. cbn [sequence]. rewrite even_wrap64, Z.even_add.
    subst s. now rewrite Heven.
Qed.

(** C5 (amended).  Bookkeeping of the writers on a symbol in range: each of
    the four bumps [update_count] by exactly 1 (modulo 2^64) and sets
    [last_update_time] to its timestamp.  [update_quote] and [update_trade]
    set [opening_price] when it compares equal to 0.0, to the quote's
    midpoint and to the trade's price; [update_bid] and [update_ask] leave
    it as it is.  So once [opening_price] holds a value that is not 0.0, no
    writer changes it. *)
Theorem writer_bookkeeping c id u :
  cache_ok c -> 0 <= id < num_symbols c ->
  let before := state (entry c id) in
  let after := state (entry (apply_update c id u) id) in
  update_count after = wrap64 (update_count before + 1) /\
  last_update_time after = timestamp_of u /\
  opening_price after =
    match u with
    | Quote bid_price _ ask_price _ _ =>
        if PrimFloat.eqb (opening_price before) PrimFloat.zero
        then PrimFloat.div (PrimFloat.add bid_price ask_price) 2%float
        else opening_price before
    | Trade price _ _ =>
        if PrimFloat.eqb (opening_price before) PrimFloat.zero
        then price else opening_price before
    | Bid _ _ _ | Ask _ _ _ => opening_price before
    end /\
  (PrimFloat.eqb (opening_price before) PrimFloat.zero = false ->
   opening_price after = opening_price before).
Proof.
  intros Hok Hid before after. subst after.
  rewrite apply_update_write, entry_write by assumption. cbn [state].
  fold before. generalize before as st. intros [bb ba bq aq ltp ltq lut uc op].
  destruct u; unfold assign;
    cbn -[wrap64 PrimFloat.eqb PrimFloat.div PrimFloat.add open_at];
    unfold open_at;
    cbn -[wrap64 PrimFloat.eqb PrimFloat.div PrimFloat.add];
    try destruct (PrimFloat.eqb op PrimFloat.zero) eqn:Hopen;
    cbn -[wrap64 PrimFloat.eqb PrimFloat.div PrimFloat.add];
    conjs; try reflexivity; try congruence; intros; reflexivity.
Qed.

End CacheFacts.

Module CacheExamples.
Import Cache CacheFacts CacheScenarios.

Lemma quoted_quiescent : quiescent quoted.
Proof.
  apply (quiescent_update (new_cache 100) 0
           (Quote 100%float 1000 100.5%float 2000 1234567890)).
  - apply quiescent_new.
  - split; [discriminate|reflexivity].
Qed.

(** A trade after the quote takes the counter of symbol 0 from 2 over 3
    to 4. *)
Lemma seqlock_counter_parity_witness :
  sequence (entry quoted 0) = 2 /\
  sequence (entry (begin_write quoted 0) 0) = 3 /\
  sequence (entry (update_trade quoted 0 100.25%float 500 1234567891) 0) = 4.
Proof.
  destruct (seqlock_counter_parity quoted quoted_quiescent) as [_ Hwrite].
  destruct (Hwrite 0 (Trade 100.25%float 500 1234567891))
    as (Hbegin & _ & _ & _ & Hend & _).
  - split; [discriminate|reflexivity].
  - split; [vm_compute; reflexivity|].
    split; [rewrite Hbegin; vm_compute; reflexivity|].
    cbn [apply_update] in Hend. rewrite Hend. vm_compute. reflexivity.
Defined.

(** The first quote on a new cache opens symbol 0 at the midpoint. *)
Lemma writer_bookkeeping_witness :
  update_count (state (entry quoted 0)) = 1 /\
  last_update_time (state (entry quoted 0)) = 1234567890 /\
  opening_price (state (entry quoted 0)) = 100.25%float.
Proof.
  destruct (writer_bookkeeping (new_cache 100) 0
              (Quote 100%float 1000 100.5%float 2000 1234567890))
    as (Hcount & Htime & Hopen & _).
  - apply new_cache_ok.
  - split; [discriminate|reflexivity].
  - cbn [apply_update] in *. fold quoted in Hcount, Htime, Hopen.
    split; [rewrite Hcount; vm_compute; reflexivity|].
    split; [exact Htime|]. rewrite Hopen. vm_compute. reflexivity.
Defined.

(** C5, as stated, fails for [update_bid]: on a new cache, where the opening
    price of symbol 0 is unset (0.0), a bid at 100.25 is applied and counted,
    and the opening price is still 0.0 afterwards. *)
Lemma update_bid_leaves_opening_price_unset :
  opening_price (state (entry (new_cache 100) 0)) = 0%float /\
  update_count (state (entry (update_bid (new_cache 100) 0 100.25%float 1000 7) 0)) = 1 /\
  best_bid (state (entry (update_bid (new_cache 100) 0 100.25%float 1000 7) 0)) = 100.25%float /\
  opening_price (state (entry (update_bid (new_cache 100) 0 100.25%float 1000 7) 0)) = 0%float.
Proof. vm_compute. repeat split; reflexivity. Qed.

End CacheExamples.

Module LatencyFacts.
Import Latency.

Lemma scan_reaches buckets : forall target max_seen i start (k : nat),
  (k < length buckets)%nat ->
  target <= accumulate start (firstn (S k) buckets) ->
  (forall j, (j < k)%nat -> accumulate start (firstn (S j) buckets) < target) ->
  scan target max_seen i start buckets =
  (i + Z.of_nat k) * BUCKET_WIDTH_NS + BUCKET_WIDTH_NS / 2.
Proof.
  induction buckets as [|count rest IH]; intros target max_seen i start k Hk Hreach Hbelow.
  - cbn in Hk. lia.
  - cbn [scan]. destruct k as [|k].
    + unfold accumulate in Hreach. cbn [firstn fold_left] in Hreach.
      rewrite ?take_0 in Hreach. cbn [fold_left] in Hreach.
      destruct (Z.leb_spec target (wrap64 (start + count))); [|lia].
      f_equal. f_equal. lia.
    + pose proof (Hbelow 0%nat ltac:(lia)) as H0.
      unfold accumulate in H0. cbn [firstn fold_left] in H0.
  rewrite ?take_0 in H0. cbn [fold_left] in H0.
      destruct (Z.leb_spec target (wrap64 (start + count))); [lia|].
      rewrite (IH target max_seen (i + 1) (wrap64 (start + count)) k).
      * f_equal. f_equal. lia.
      * cbn in Hk. lia.
      * exact Hreach.
      * intros j Hj. apply (Hbelow (S j)). lia.
Qed.

Lemma scan_falls_through buckets : forall target max_seen i start,
  (forall j, (j < length buckets)%nat ->
             accumulate start (firstn (S j) buckets) < target) ->
  scan target max_seen i start buckets = max_seen.
Proof.
  induction buckets as [|count rest IH]; intros target max_seen i start Hbelow;
    [reflexivity|].
  cbn [scan]. pose proof (Hbelow 0%nat ltac:(cbn; lia)) as H0.
  unfold accumulate in H0. cbn [firstn fold_left] in H0.
  rewrite ?take_0 in H0. cbn [fold_left] in H0.
  destruct (Z.leb_spec target (wrap64 (start + count))); [lia|].
  apply IH. intros j Hj. apply (Hbelow (S j)). cbn. lia.
Qed.

(** The percentile query as [percentile_from_histogram] computes it.  It
    answers 0 when nothing was recorded.  Otherwise it takes as target the product
    (percentile / 100.0) * total, computed in binary64 and truncated to an
    integer (not rounded up), scans the buckets in order accumulating their
    counts, and answers the midpoint of the first bucket at which the
    accumulated count reaches the target; if no tracked bucket reaches it,
    it answers the observed maximum. *)
Theorem percentile_from_truncated_target t percentile :
  let total := sample_count_ t in
  let target := target_count percentile total in
  (total = 0 -> percentile_from_histogram t percentile = 0) /\
  (total <> 0 ->
   (forall i : nat,
      (i < length (histogram t))%nat ->
      target <= cumulative (histogram t) i ->
      (forall j, (j < i)%nat -> cumulative (histogram t) j < target) ->
      percentile_from_histogram t percentile =
      Z.of_nat i * BUCKET_WIDTH_NS + BUCKET_WIDTH_NS / 2) /\
   ((forall j, (j < length (histogram t))%nat -> cumulative (histogram t) j < target) ->
    percentile_from_histogram t percentile = max_ t)).
Proof.
  intros total target. unfold percentile_from_histogram. fold total. fold target.
  split.
  - intros ->. reflexivity.
  - intros Hne. destruct (Z.eqb_spec total 0) as [|_]; [contradiction|]. split.
    + intros i Hi Hreach Hbelow.
      now rewrite (scan_reaches (histogram t) target (max_ t) 0 0 i Hi Hreach Hbelow).
    + intros Hbelow. now apply scan_falls_through.
Qed.

(** C9.  With no sample recorded ([sample_count_] is 0, as after
    construction and after [reset]) [get_stats] answers all zeros: the
    sample count and the minimum are 0, not the [UINT64_MAX] the minimum is
    initialised to, and the maximum, the mean and the four percentiles are
    0 as well. *)
Theorem get_stats_without_samples t :
  sample_count_ t = 0 ->
  get_stats t = mkLatencyStats 0 0 0 0 0 0 0 0 /\
  min (get_stats t) <> UINT64_MAX /\
  get_stats (reset t) = get_stats t.
Proof.
  intros H. unfold get_stats, reset. cbn [sample_count_]. rewrite H. cbn.
  conjs; try reflexivity. discriminate.
Qed.

End LatencyFacts.

Module LatencyExamples.
Import Latency LatencyFacts LatencyScenarios.

(** The median of 1000, 2000, 3000: the target is ⌊1.5⌋ = 1, reached in
    bucket 1. *)
Lemma percentile_from_truncated_target_witness :
  target_count 50%float (sample_count_ three_samples) = 1 /\
  percentile_from_histogram three_samples 50%float = 1500.
Proof.
  split; [vm_compute; reflexivity|].
  destruct (percentile_from_truncated_target three_samples 50%float) as [_ Hscan].
  destruct Hscan as [Hreach _]; [vm_compute; discriminate|].
  rewrite (Hreach 1%nat).
  - reflexivity.
  - vm_compute. lia.
  - vm_compute. discriminate.
  - intros j Hj. assert (j = 0%nat) as -> by lia. vm_compute. reflexivity.
Defined.

(** After a reset the statistics are all zero. *)
Lemma get_stats_without_samples_witness :
  get_stats (reset three_samples) = mkLatencyStats 0 0 0 0 0 0 0 0 /\
  min (get_stats (reset three_samples)) <> UINT64_MAX /\
  get_stats (reset (reset three_samples)) = get_stats (reset three_samples).
Proof. apply (get_stats_without_samples (reset three_samples)). reflexivity. Defined.

(** C6, as stated, fails: with the single sample 5000 ns the target of the
    median is ⌊0.5⌋ = 0 where the claim has ⌈0.5⌉ = 1; the empty bucket 0
    already reaches 0, so the query answers its midpoint 500 ns, below the
    only sample, while the bucket in which the count first reaches 1 is
    bucket 5 with midpoint 5500 ns.  With 1000, 2000, 3000 the query
    answers 1500 where the claim has 2500. *)
Lemma median_target_is_truncated :
  min_ one_sample = 5000 /\
  histogram one_sample !! 0%nat = Some 0 /\
  percentile_from_histogram one_sample 50%float = 500 /\
  nearest_rank_percentile one_sample 50 1 = 5500 /\
  percentile_from_histogram three_samples 50%float = 1500 /\
  nearest_rank_percentile three_samples 50 1 = 2500.
Proof. vm_compute. repeat split; reflexivity. Qed.

End LatencyExamples.

Module ClientManagerFacts.
Import Kernel ClientManager.

(** [send_to_client] on one descriptor leaves the entries and the sockets of
    the others alone. *)
Lemma send_to_client_frame cm k fd' data fd :
  fd' <> fd ->
  clients (send_to_client cm k fd' data).1.2 !! fd = clients cm !! fd /\
  (send_to_client cm k fd' data).2 !! fd = k !! fd.
Proof.
  intros Hne. unfold send_to_client, mark_slow_consumer, clear_slow_status, send.
  destruct (clients cm !! fd') as [c'|]; [|now split].
  cbn [slow_threshold with_clients clients].
  repeat match goal with
    | |- context [if ?b then _ else _] => destruct b
    | |- context [match k !! fd' with _ => _ end] => destruct (k !! fd')
    end;
    cbn [fst snd clients with_clients];
    repeat rewrite lookup_alter_ne by exact Hne;
    repeat rewrite lookup_insert_ne by exact Hne;
    now split.
Qed.

(** C7 (amended).  The slow flag after [send_to_client] on a subscriber of
    the table.  It is set when the send-queue depth sampled before the send
    exceeds [slow_threshold_] (1 MiB unless reconfigured), when the send
    would block, and when the send is partial.  It is cleared only by a
    send that succeeds in full while the depth sampled before that send is
    below half the threshold.  In every other case it keeps its value. *)
Theorem slow_flag_after_send cm k fd data c :
  clients cm !! fd = Some c ->
  let pending := get_pending_bytes k fd in
  let result := (send k fd data).1 in
  exists c',
    clients (send_to_client cm k fd data).1.2 !! fd = Some c' /\
    is_slow c' =
      (if slow_threshold cm <? pending then true
       else match result with
            | WouldBlock => true
            | SendError => is_slow c
            | Sent n =>
                if n <? size data then true
                else if is_slow c && (pending <? slow_threshold cm / 2) then false
                     else is_slow c
            end) /\
    ((slow_threshold cm < pending \/ result = WouldBlock \/
      (exists n, result = Sent n /\ n < size data)) -> is_slow c' = true) /\
    (is_slow c = true -> is_slow c' = false ->
     pending < slow_threshold cm / 2 /\ exists n, result = Sent n /\ size data <= n) /\
    (is_slow c = false -> is_slow c' = true ->
     slow_threshold cm < pending \/ result = WouldBlock \/
     (exists n, result = Sent n /\ n < size data)).
Proof.
  intros Hc pending result.
  assert (Hflag : exists c',
    clients (send_to_client cm k fd data).1.2 !! fd = Some c' /\
    is_slow c' =
      (if slow_threshold cm <? pending then true
       else match result with
            | WouldBlock => true
            | SendError => is_slow c
            | Sent n =>
                if n <? size data then true
                else if is_slow c && (pending <? slow_threshold cm / 2) then false
                     else is_slow c
            end)).
  { subst result. unfold send_to_client, mark_slow_consumer, clear_slow_status.
    rewrite Hc. fold pending. cbn [slow_threshold with_clients clients].
    rewrite lookup_alter_eq, Hc.
    cbn [fmap option_fmap option_map set_pending_bytes is_slow].
    destruct (slow_threshold cm <? pending); [|destruct (send k fd data) as [[n| |] k']];
      cbn [fst]; [|destruct (n <? size data);
                    [|destruct (is_slow c) eqn:Hs, (pending <? slow_threshold cm / 2)]|..];
      cbn [andb fst snd clients with_clients];
      rewrite !lookup_alter_eq, Hc; cbn [fmap option_fmap option_map];
      (eexists; split; [reflexivity|]);
      cbn [is_slow set_pending_bytes marked_slow cleared_slow];
      congruence. }
  destruct Hflag as (c' & Hc' & Hslow). exists c'.
  split; [exact Hc'|]. split; [exact Hslow|].
  rewrite Hslow. clear Hslow Hc'.
  destruct (Z.ltb_spec (slow_threshold cm) pending) as [Hdeep|Hshallow].
  { conjs; [reflexivity|discriminate|now left]. }
  destruct result as [n| |].
  - destruct (Z.ltb_spec n (size data)) as [Hpart|Hfull].
    { conjs; [reflexivity|discriminate|]. intros _ _. right. right. now exists n. }
    destruct (is_slow c) eqn:Hs; cbn [andb].
    + destruct (Z.ltb_spec pending (slow_threshold cm / 2)).
      * conjs.
        -- intros [|[|(m & [= <-] & Hm)]]; [lia|discriminate|lia].
        -- intros _ _. split; [assumption|]. now exists n.
        -- discriminate.
      * conjs; [reflexivity|discriminate|discriminate].
    + conjs; [|discriminate|discriminate].
      intros [|[|(m & [= <-] & Hm)]]; [lia|discriminate|lia].
  - conjs; [reflexivity|discriminate|]. intros _ _. right. now left.
  - conjs; [|congruence|congruence].
    intros [|[|(m & [=] & _)]]; [lia|discriminate].
Qed.

Lemma hands_only_refl data k : hands_only data k k.
Proof.
  intros fd s Hs. exists s, []. rewrite app_nil_r. now conjs.
Qed.

Lemma hands_only_trans data k1 k2 k3 :
  hands_only data k1 k2 -> hands_only data k2 k3 -> hands_only data k1 k3.
Proof.
  intros H12 H23 fd s3 Hs3.
  destruct (H23 fd s3 Hs3) as (s2 & e2 & Hs2 & Ha2 & He2).
  destruct (H12 fd s2 Hs2) as (s1 & e1 & Hs1 & Ha1 & He1).
  exists s1, (e1 ++ e2). rewrite Ha2, Ha1, app_assoc.
  conjs; [assumption|reflexivity|]. apply Forall_app. now split.
Qed.

Lemma send_hands_only k fd data : hands_only data k (send k fd data).2.
Proof.
  unfold send. destruct (k !! fd) as [s|] eqn:Hs; [|apply hands_only_refl].
  destruct (negb (connected s)); [apply hands_only_refl|].
  destruct (sndbuf s - outq s <=? 0); [apply hands_only_refl|].
  cbn [snd]. intros fd' s' Hs'.
  destruct (Z.eq_dec fd fd') as [<-|Hne].
  - rewrite lookup_insert_eq in Hs'. injection Hs' as <-.
    exists s. eexists. cbn [accepted]. conjs; [assumption|reflexivity|].
    constructor; [now eexists|constructor].
  - rewrite lookup_insert_ne in Hs' by exact Hne.
    exists s', []. rewrite app_nil_r. now conjs.
Qed.

Lemma send_to_client_hands_only cm k fd data :
  hands_only data k (send_to_client cm k fd data).2.
Proof.
  unfold send_to_client. destruct (clients cm !! fd); [|apply hands_only_refl].
  match goal with |- context [if ?b then _ else _] => destruct b end;
    [apply hands_only_refl|].
  pose proof (send_hands_only k fd data) as H.
  destruct (send k fd data) as [[n| |] k']; cbn [snd] in *;
    repeat match goal with |- context [if ?b then _ else _] => destruct b end;
    exact H.
Qed.

Lemma send_to_client_threshold cm k fd data :
  slow_threshold (send_to_client cm k fd data).1.2 = slow_threshold cm.
Proof.
  unfold send_to_client. destruct (clients cm !! fd); [|reflexivity].
  match goal with |- context [if ?b then _ else _] => destruct b end; [reflexivity|].
  destruct (send k fd data) as [[n| |] k'];
    repeat match goal with |- context [if ?b then _ else _] => destruct b end;
    reflexivity.
Qed.

(** What [send_to_client] does to a subscriber depends only on its entry,
    its socket and the threshold. *)
Lemma send_to_client_local cm1 cm2 k1 k2 fd data :
  clients cm1 !! fd = clients cm2 !! fd -> k1 !! fd = k2 !! fd ->
  slow_threshold cm1 = slow_threshold cm2 ->
  clients (send_to_client cm1 k1 fd data).1.2 !! fd =
  clients (send_to_client cm2 k2 fd data).1.2 !! fd /\
  (send_to_client cm1 k1 fd data).2 !! fd = (send_to_client cm2 k2 fd data).2 !! fd.
Proof.
  intros Hc Hk Ht.
  unfold send_to_client, mark_slow_consumer, clear_slow_status, send,
    get_pending_bytes, tiocoutq.
  cbn [slow_threshold with_clients clients].
  rewrite !lookup_alter_eq, <- Hc, <- Hk, <- Ht.
  destruct (clients cm1 !! fd) as [c|] eqn:Hc1; [|cbn [fst snd]; split; congruence].
  destruct (k1 !! fd) as [s|] eqn:Hk1;
    cbn [mbind option_bind fmap option_fmap option_map];
    repeat match goal with |- context [if ?b then _ else _] => destruct b end;
    cbn [fst snd clients with_clients];
    repeat rewrite lookup_alter_eq; repeat rewrite lookup_insert_eq;
    rewrite <- ?Hc, <- ?Hk, ?Hc1, ?Hk1; split; congruence.
Qed.

Lemma heartbeat_one_spec hb acc fd :
  heartbeat_one hb acc fd =
  ((send_to_client acc.1 acc.2 fd hb).1.2, (send_to_client acc.1 acc.2 fd hb).2).
Proof. unfold heartbeat_one. now destruct (send_to_client _ _ _ _) as [[? ?] ?]. Qed.

Lemma heartbeat_fold_other hb fd fds : forall acc,
  fd ∉ fds ->
  clients (fold_left (heartbeat_one hb) fds acc).1 !! fd = clients acc.1 !! fd /\
  (fold_left (heartbeat_one hb) fds acc).2 !! fd = acc.2 !! fd /\
  slow_threshold (fold_left (heartbeat_one hb) fds acc).1 = slow_threshold acc.1.
Proof.
  induction fds as [|a fds IH]; intros acc Hnot; [now conjs|].
  apply not_elem_of_cons in Hnot as [Hne Hnot]. cbn [fold_left].
  destruct (IH (heartbeat_one hb acc a) Hnot) as (Hc & Hk & Ht).
  rewrite Hc, Hk, Ht, heartbeat_one_spec. cbn [fst snd].
  destruct (send_to_client_frame acc.1 acc.2 a hb fd) as [Hc' Hk']; [congruence|].
  rewrite Hc', Hk', send_to_client_threshold. now conjs.
Qed.

(** [send_heartbeat] does to every subscriber of the table what
    [send_to_client] with the heartbeat does to it. *)
Lemma heartbeat_fold_reaches hb fd fds : forall acc,
  NoDup fds -> fd ∈ fds ->
  clients (fold_left (heartbeat_one hb) fds acc).1 !! fd =
  clients (send_to_client acc.1 acc.2 fd hb).1.2 !! fd /\
  (fold_left (heartbeat_one hb) fds acc).2 !! fd =
  (send_to_client acc.1 acc.2 fd hb).2 !! fd.
Proof.
  induction fds as [|a fds IH]; intros acc Hnd Hin; [now apply elem_of_nil in Hin|].
  apply NoDup_cons in Hnd as [Ha Hnd]. cbn [fold_left].
  destruct (Z.eq_dec a fd) as [->|Hne].
  - destruct (heartbeat_fold_other hb fd fds (heartbeat_one hb acc fd) Ha) as (Hc & Hk & _).
    rewrite Hc, Hk, heartbeat_one_spec. now split.
  - apply elem_of_cons in Hin as [Heq|Hin]; [congruence|].
    destruct (IH (heartbeat_one hb acc a) Hnd Hin) as [Hc Hk]. rewrite Hc, Hk.
    rewrite heartbeat_one_spec. cbn [fst snd].
    destruct (send_to_client_frame acc.1 acc.2 a hb fd Hne) as [Hc' Hk'].
    apply send_to_client_local; [exact Hc'|exact Hk'|apply send_to_client_threshold].
Qed.

Lemma heartbeat_fold_hands_only hb fds : forall acc,
  hands_only hb acc.2 (fold_left (heartbeat_one hb) fds acc).2.
Proof.
  induction fds as [|a fds IH]; intros acc; [apply hands_only_refl|].
  cbn [fold_left]. eapply hands_only_trans; [|apply IH].
  rewrite heartbeat_one_spec. apply send_to_client_hands_only.
Qed.

(** The loop of [broadcast] passes a slow subscriber by. *)
Lemma broadcast_fold_skips data symbol_id now fd c fds : forall count cm k,
  clients cm !! fd = Some c -> is_slow c = true ->
  clients (fold_left (broadcast_one data symbol_id now) fds (count, cm, k)).1.2 !! fd
    = Some c /\
  (fold_left (broadcast_one data symbol_id now) fds (count, cm, k)).2 !! fd = k !! fd.
Proof.
  induction fds as [|a fds IH]; intros count cm k Hc Hslow; [now split|].
  cbn [fold_left].
  assert (Hstep : exists count' cm' k',
            broadcast_one data symbol_id now (count, cm, k) a = (count', cm', k') /\
            clients cm' !! fd = Some c /\ k' !! fd = k !! fd).
  { unfold broadcast_one. destruct (clients cm !! a) as [client|] eqn:Ha;
      [|now exists count, cm, k].
    destruct (is_slow client) eqn:Hs; [now exists count, cm, k|].
    match goal with |- context [if ?b then _ else _] => destruct b end;
      [now exists count, cm, k|].
    assert (Hne : a <> fd) by (intros ->; congruence).
    destruct (send_to_client_frame cm k a data fd Hne) as [Hc' Hk'].
    destruct (send_to_client cm k a data) as [[ok cm'] k']. cbn [fst snd] in *.
    destruct ok; eexists _, _, _; (split; [reflexivity|]); cbn [clients with_clients];
      rewrite ?lookup_alter_ne by exact Hne; split; congruence. }
  destruct Hstep as (count' & cm' & k' & -> & Hc' & Hk').
  destruct (IH count' cm' k' Hc' Hslow) as [Hc'' Hk'']. split; congruence.
Qed.

Lemma broadcast_one_hands_only data symbol_id now acc fd :
  hands_only data acc.2 (broadcast_one data symbol_id now acc fd).2.
Proof.
  destruct acc as [[count cm] k]. unfold broadcast_one. cbn [snd].
  destruct (clients cm !! fd) as [client|]; [|apply hands_only_refl].
  repeat match goal with |- context [if ?b then _ else _] => destruct b end;
    try apply hands_only_refl.
  pose proof (send_to_client_hands_only cm k fd data) as H.
  destruct (send_to_client cm k fd data) as [[ok cm'] k']. now destruct ok.
Qed.

Lemma broadcast_fold_hands_only data symbol_id now fds : forall acc,
  hands_only data acc.2 (fold_left (broadcast_one data symbol_id now) fds acc).2.
Proof.
  induction fds as [|a fds IH]; intros acc; [apply hands_only_refl|].
  cbn [fold_left]. eapply hands_only_trans; [|apply IH].
  apply broadcast_one_hands_only.
Qed.

Lemma send_heartbeat_fold cm k hb :
  send_heartbeat cm k hb = fold_left (heartbeat_one hb) (get_all_client_fds cm) (cm, k).
Proof. reflexivity. Qed.

(** C8 (amended).  [broadcast] skips every entry whose [is_slow] is set: a
    slow subscriber's entry and socket come out of it unchanged, so it is
    handed none of the ticks emitted while it is slow; and the publisher
    keeps no backlog, each call handing the sockets byte ranges of its own
    message only, so nothing skipped is sent later.  Heartbeats are not
    skipped: [send_heartbeat] does to every subscriber, slow or not, what
    [send_to_client] with the heartbeat does. *)
Theorem broadcast_skips_slow_subscribers cm k data symbol_id now fd c :
  clients cm !! fd = Some c ->
  (is_slow c = true ->
   clients (broadcast cm k data symbol_id now).1.2 !! fd = Some c /\
   (broadcast cm k data symbol_id now).2 !! fd = k !! fd) /\
  hands_only data k (broadcast cm k data symbol_id now).2 /\
  (forall heartbeat,
     clients (send_heartbeat cm k heartbeat).1 !! fd =
     clients (send_to_client cm k fd heartbeat).1.2 !! fd /\
     (send_heartbeat cm k heartbeat).2 !! fd =
     (send_to_client cm k fd heartbeat).2 !! fd /\
     hands_only heartbeat k (send_heartbeat cm k heartbeat).2).
Proof.
  intros Hc. conjs.
  - intros Hslow. unfold broadcast.
    destruct (broadcast_fold_skips data symbol_id now fd c (get_all_client_fds cm)
                0 cm k Hc Hslow) as [Hc' Hk'].
    destruct (fold_left _ _ _) as [[count cm'] k']. now split.
  - unfold broadcast.
    pose proof (broadcast_fold_hands_only data symbol_id now (get_all_client_fds cm)
                  (0, cm, k)) as H.
    now destruct (fold_left _ _ _) as [[count cm'] k'].
  - intros hb. rewrite send_heartbeat_fold.
    assert (Hnd : NoDup (get_all_client_fds cm)) by apply NoDup_fst_map_to_list.
    assert (Hin : fd ∈ get_all_client_fds cm).
    { unfold get_all_client_fds. apply list_elem_of_fmap. exists (fd, c).
      split; [reflexivity|]. now apply elem_of_map_to_list. }
    destruct (heartbeat_fold_reaches hb fd _ (cm, k) Hnd Hin) as [H1 H2].
    conjs; [exact H1|exact H2|].
    apply (heartbeat_fold_hands_only hb _ (cm, k)).
Qed.

End ClientManagerFacts.

Module ClientManagerExamples.
Import Kernel ClientManager ClientManagerFacts ClientManagerScenarios.

Lemma subscriber7_slow : clients subscribers !! 7 = Some subscriber7.
Proof. vm_compute. reflexivity. Qed.

(** A full send to the slow subscriber 7 with a shallow queue clears its
    flag. *)
Lemma slow_flag_after_send_witness :
  exists c',
    clients (send_to_client subscribers sockets 7 heartbeat).1.2 !! 7 = Some c' /\
    is_slow c' = false.
Proof.
  destruct (slow_flag_after_send subscribers sockets 7 heartbeat subscriber7
              subscriber7_slow) as (c' & Hc' & Hflag & _).
  exists c'. split; [exact Hc'|]. rewrite Hflag. vm_compute. reflexivity.
Defined.

(** C7, as stated, fails: the flag of subscriber 7 is cleared by a send
    after which 524307 bytes are queued, which is not below half the
    threshold (524288); only the depth sampled before the send (524287)
    was. *)
Lemma flag_cleared_with_queue_above_low_mark :
  is_slow <$> clients subscribers !! 7 = Some true /\
  get_pending_bytes sockets 7 = 524287 /\
  (send_to_client subscribers sockets 7 heartbeat).1.1 = true /\
  is_slow <$> clients (send_to_client subscribers sockets 7 heartbeat).1.2 !! 7
    = Some false /\
  outq <$> (send_to_client subscribers sockets 7 heartbeat).2 !! 7 = Some 524307 /\
  slow_threshold subscribers / 2 = 524288.
Proof. vm_compute. repeat split; reflexivity. Qed.

(** A tick for symbol 0 passes the slow subscriber 7 by and reaches 8. *)
Lemma broadcast_skips_slow_subscribers_witness :
  clients (broadcast subscribers drained heartbeat 0 1).1.2 !! 7 = Some subscriber7 /\
  (broadcast subscribers drained heartbeat 0 1).2 !! 7 = drained !! 7 /\
  accepted <$> (broadcast subscribers drained heartbeat 0 1).2 !! 8 = Some [heartbeat].
Proof.
  destruct (broadcast_skips_slow_subscribers subscribers drained heartbeat 0 1 7
              subscriber7 subscriber7_slow) as (Hskip & _).
  destruct (Hskip eq_refl) as [Hc Hk].
  split; [exact Hc|]. split; [exact Hk|]. vm_compute. reflexivity.
Defined.

(** C8, as stated, fails for heartbeats: subscriber 7 is slow, and the
    heartbeat is handed to its socket all the same (and, the queue being
    shallow, the flag is cleared). *)
Lemma heartbeat_reaches_slow_subscriber :
  is_slow <$> clients subscribers !! 7 = Some true /\
  accepted <$> drained !! 7 = Some [] /\
  accepted <$> (send_heartbeat subscribers drained heartbeat).2 !! 7 = Some [heartbeat] /\
  is_slow <$> clients (send_heartbeat subscribers drained heartbeat).1 !! 7 = Some false.
Proof. vm_compute. repeat split; reflexivity. Qed.

End ClientManagerExamples.

Module MemoryPoolFacts.
Import MemoryPool.

(** A store and the links around it. *)
Lemma lookup_store_next_eq links node v : store_next links node v !! node = Some v.
Proof. apply lookup_insert_eq. Qed.

Lemma lookup_store_next_far links node v q :
  SIZEOF_POINTER <= Z.abs (q - node) -> store_next links node v !! q = links !! q.
Proof.
  intros Hfar. unfold store_next, SIZEOF_POINTER in *.
  rewrite lookup_insert_ne by lia.
  apply option_eq. intros x. rewrite map_lookup_filter_Some. cbn [fst]. tauto.
Qed.

(** C10.  [deallocate(p)] for a pointer that is null or outside the arena
    [[aligned_base, aligned_base + block_size * num_blocks)] changes
    nothing: free list, block links and allocated count stay as they are.
    A non-null pointer inside the arena becomes the head of the free list,
    linked to the previous head, and the allocated count goes down by one
    (modulo 2^64); the links stored 8 bytes or more away from it stay as
    they are.  So the pool changes only for pointers inside the arena. *)
Theorem deallocate_checks_the_arena pool ptr :
  ((ptr = nullptr \/ ptr < aligned_base pool \/ arena_end pool <= ptr) ->
   deallocate pool ptr = pool) /\
  (ptr <> nullptr -> aligned_base pool <= ptr < arena_end pool ->
   free_list (deallocate pool ptr) = ptr /\
   next_of (deallocate pool ptr) !! ptr = Some (free_list pool) /\
   (forall q, SIZEOF_POINTER <= Z.abs (q - ptr) ->
      next_of (deallocate pool ptr) !! q = next_of pool !! q) /\
   allocated_count (deallocate pool ptr) = wrap64 (allocated_count pool - 1)) /\
  (deallocate pool ptr <> pool ->
   ptr <> nullptr /\ aligned_base pool <= ptr < arena_end pool).
Proof.
  unfold deallocate, nullptr.
  destruct (Z.eqb_spec ptr 0) as [Hnull|Hnonnull].
  { conjs; [reflexivity|contradiction|congruence]. }
  destruct (Z.ltb_spec ptr (aligned_base pool)) as [Hlow|Hlow]; cbn [orb].
  { conjs; [reflexivity|lia|congruence]. }
  destruct (Z.leb_spec (arena_end pool) ptr) as [Hhigh|Hhigh].
  { conjs; [reflexivity|lia|congruence]. }
  conjs.
  - intros [|[|]]; [contradiction|lia|lia].
  - intros _ _. cbn [free_list next_of allocated_count]. conjs.
    + reflexivity.
    + apply lookup_store_next_eq.
    + intros q Hq. now apply lookup_store_next_far.
    + reflexivity.
  - intros _. split; [exact Hnonnull|lia].
Qed.

End MemoryPoolFacts.

Module MemoryPoolExamples.
Import MemoryPool MemoryPoolFacts MemoryPoolScenarios.

(** Returning the block that was handed out, and a pointer past the
    arena. *)
Lemma deallocate_checks_the_arena_witness :
  fst <$> allocate small_pool = Some 13312 /\
  allocated_count one_out = 1 /\
  allocated_count (deallocate one_out 13312) = 0 /\
  free_list (deallocate one_out 13312) = 13312 /\
  deallocate one_out 20000 = one_out /\
  deallocate one_out nullptr = one_out.
Proof.
  destruct (deallocate_checks_the_arena one_out 13312) as (_ & Hin & _).
  destruct Hin as (Hhead & _ & _ & Hcount);
    [discriminate|vm_compute; split; [discriminate|reflexivity]|].
  destruct (deallocate_checks_the_arena one_out 20000) as (Hout & _).
  destruct (deallocate_checks_the_arena one_out nullptr) as (Hnull & _).
  split; [vm_compute; reflexivity|]. split; [vm_compute; reflexivity|].
  split; [rewrite Hcount; vm_compute; reflexivity|].
  split; [exact Hhead|].
  split; [apply Hout; right; right; vm_compute; discriminate|].
  apply Hnull. now left.
Defined.

End MemoryPoolExamples.

Module ChecksumFacts.
Import Protocol ProtocolFacts.

Lemma byte_bits b n : 8 <= n -> Z.testbit (byte.unsigned b) n = false.
Proof.
  intros Hn. pose proof (byte.unsigned_range b) as Hb.
  destruct (Z.eq_dec (byte.unsigned b) 0) as [->|Hne]; [apply Z.bits_0|].
  apply Z.bits_above_log2; [lia|].
  assert (Z.log2 (byte.unsigned b) < 8); [|lia].
  apply Z.log2_lt_pow2; lia.
Qed.

Lemma wrap32_lane b k : 0 <= k <= 3 ->
  wrap32 (Z.shiftl (byte.unsigned b) (k * 8)) = Z.shiftl (byte.unsigned b) (k * 8).
Proof.
  intros Hk. unfold wrap32. apply Z.mod_small.
  pose proof (byte.unsigned_range b) as Hb. rewrite Z.shiftl_mul_pow2 by lia.
  assert (k = 0 \/ k = 1 \/ k = 2 \/ k = 3) as [->|[->|[->| ->]]] by lia; cbn; lia.
Qed.

Lemma testbit_shiftl a k n : 0 <= k -> Z.testbit (Z.shiftl a k) n = Z.testbit a (n - k).
Proof.
  intros Hk. destruct (Z.lt_ge_cases n 0).
  - rewrite !Z.testbit_neg_r by lia. reflexivity.
  - apply Z.shiftl_spec. lia.
Qed.

Lemma word_lanes b0 b1 b2 b3 c :
  Z.lxor c (le_combine [b0; b1; b2; b3]) =
  Z.lxor (Z.lxor (Z.lxor (Z.lxor c (Z.shiftl (byte.unsigned b0) 0))
                    (Z.shiftl (byte.unsigned b1) 8))
            (Z.shiftl (byte.unsigned b2) 16))
    (Z.shiftl (byte.unsigned b3) 24).
Proof.
  change (le_combine [b0; b1; b2; b3]) with
    (Z.lor (byte.unsigned b0) (Z.shiftl (Z.lor (byte.unsigned b1)
       (Z.shiftl (Z.lor (byte.unsigned b2) (Z.shiftl (Z.lor (byte.unsigned b3)
          (Z.shiftl 0 8)) 8)) 8)) 8)).
  rewrite Z.shiftl_0_r.
  rewrite !Z.lxor_assoc. f_equal.
  apply Z.bits_inj'. intros n Hn.
  repeat first [rewrite Z.lor_spec | rewrite Z.lxor_spec | rewrite testbit_shiftl by lia
               | rewrite Z.bits_0].
  replace (n - 8 - 8 - 8 - 8) with (n - 32) by lia.
  replace (n - 8 - 8 - 8) with (n - 24) by lia.
  replace (n - 8 - 8) with (n - 16) by lia.
  destruct (Z.lt_ge_cases n 8).
  - rewrite !(Z.testbit_neg_r _ (n - _)) by lia. 
    destruct (Z.testbit (byte.unsigned b0) n); reflexivity.
  - rewrite (byte_bits b0 n) by lia.
    destruct (Z.lt_ge_cases n 16).
    + rewrite !(Z.testbit_neg_r _ (n - 16)), !(Z.testbit_neg_r _ (n - 24)) by lia.
      destruct (Z.testbit (byte.unsigned b1) (n - 8)); reflexivity.
    + rewrite (byte_bits b1 (n - 8)) by lia.
      destruct (Z.lt_ge_cases n 24).
      * rewrite !(Z.testbit_neg_r _ (n - 24)) by lia.
        destruct (Z.testbit (byte.unsigned b2) (n - 16)); reflexivity.
      * rewrite (byte_bits b2 (n - 16)) by lia.
        destruct (Z.testbit (byte.unsigned b3) (n - 24)); reflexivity.
Qed.

(** The word loop computes what the byte loop would: every byte is XORed into
    lane [i mod 4] of the checksum. *)
Lemma checksum_words_bytewise (n : nat) : forall bytes i c,
  (length bytes <= n)%nat -> i mod 4 = 0 ->
  checksum_words i c bytes = checksum_tail i c bytes.
Proof.
  induction n as [|n IH]; intros bytes i c Hlen Hi.
  - destruct bytes; [reflexivity|cbn in Hlen; lia].
  - destruct bytes as [|b0 [|b1 [|b2 [|b3 rest]]]]; try reflexivity.
    cbn [checksum_words checksum_tail].
    assert (Hlanes : (i + 4) mod 4 = 0 /\ (i + 1) mod 4 = 1 /\ (i + 1 + 1) mod 4 = 2 /\
                     (i + 1 + 1 + 1) mod 4 = 3)
      by (Z.div_mod_to_equations; lia).
    destruct Hlanes as (H4 & H1 & H2 & H3).
    rewrite IH by (cbn in Hlen; first [lia | exact H4]).
    replace (i + 1 + 1 + 1 + 1) with (i + 4) by lia. f_equal.
    rewrite H1, H2, H3.
    rewrite Hi. rewrite !wrap32_lane by lia. apply word_lanes.
Qed.


Lemma checksum_bytewise data : calculate_checksum data = checksum_tail 0 0 data.
Proof. apply (checksum_words_bytewise (length data)); [lia|reflexivity]. Qed.

Lemma checksum_tail_linear bytes : forall i c,
  checksum_tail i c bytes = Z.lxor c (checksum_tail i 0 bytes).
Proof.
  induction bytes as [|b rest IH]; intros i c; cbn [checksum_tail].
  - now rewrite Z.lxor_0_r.
  - rewrite (IH _ (Z.lxor c _)), (IH _ (Z.lxor 0 _)).
    now rewrite Z.lxor_0_l, Z.lxor_assoc.
Qed.

Lemma checksum_tail_app a : forall i c b,
  checksum_tail i c (a ++ b) = checksum_tail (i + size a) (checksum_tail i c a) b.
Proof.
  induction a as [|x a IH]; intros i c b; cbn [checksum_tail app].
  - unfold size. cbn. now rewrite Z.add_0_r.
  - rewrite IH. f_equal. unfold size. cbn [length]. lia.
Qed.

Lemma checksum_tail_lane bytes : forall i j c,
  i mod 4 = j mod 4 -> checksum_tail i c bytes = checksum_tail j c bytes.
Proof.
  induction bytes as [|b rest IH]; intros i j c Hij; cbn [checksum_tail]; [reflexivity|].
  rewrite Hij. apply IH. Z.div_mod_to_equations; lia.
Qed.

(** The checksum of a range that starts on a word boundary is XORed in. *)
Lemma checksum_app a b :
  size a mod 4 = 0 ->
  calculate_checksum (a ++ b) = Z.lxor (calculate_checksum a) (calculate_checksum b).
Proof.
  intros Ha. rewrite !checksum_bytewise, checksum_tail_app, checksum_tail_linear.
  f_equal. apply checksum_tail_lane. rewrite Z.add_0_l, Ha. reflexivity.
Qed.

Lemma lxor_cancel_r a b c : Z.lxor a c = Z.lxor b c -> a = b.
Proof.
  intros H. rewrite <- (Z.lxor_0_r a), <- (Z.lxor_0_r b), <- (Z.lxor_nilpotent c).
  now rewrite <- !Z.lxor_assoc, H.
Qed.

Lemma lxor_cancel_l a b c : Z.lxor c a = Z.lxor c b -> a = b.
Proof. rewrite !(Z.lxor_comm c). apply lxor_cancel_r. Qed.

Lemma lane_inj x y k :
  0 <= k -> Z.shiftl (byte.unsigned x) k = Z.shiftl (byte.unsigned y) k -> x = y.
Proof.
  intros Hk H. apply byte.unsigned_inj.
  rewrite <- (Z.shiftl_0_r (byte.unsigned x)), <- (Z.shiftl_0_r (byte.unsigned y)).
  replace 0 with (k - k) by lia.
  rewrite <- !Z.shiftr_shiftl_l by lia. now rewrite H.
Qed.

(** Replacing one byte changes the checksum. *)
Lemma checksum_insert data (i : nat) x y :
  data !! i = Some x -> y <> x ->
  calculate_checksum (<[i := y]> data) <> calculate_checksum data.
Proof.
  intros Hi Hne.
  assert (Hlt : (i < length data)%nat) by (apply lookup_lt_is_Some; eauto).
  rewrite <- (take_drop_middle data i x Hi) at 2.
  rewrite insert_take_drop by exact Hlt.
  rewrite !checksum_bytewise, !checksum_tail_app. cbn [checksum_tail].
  rewrite (checksum_tail_linear (drop (S i) data) _ (Z.lxor _ (wrap32 (Z.shiftl (byte.unsigned y) _)))).
  rewrite (checksum_tail_linear (drop (S i) data) _ (Z.lxor _ (wrap32 (Z.shiftl (byte.unsigned x) _)))).
  intros Heq. apply lxor_cancel_r in Heq. apply lxor_cancel_l in Heq.
  set (k := (0 + size (take i data)) mod 4) in *.
  assert (0 <= k <= 3) by (subst k; Z.div_mod_to_equations; lia).
  rewrite !wrap32_lane in Heq by lia.
  apply lane_inj in Heq; [congruence|lia].
Qed.

End ChecksumFacts.

Module ParserLaws.
Import Protocol TickGenerator Parser Frames ParserSession FeedHandler.
Import ProtocolFacts ParserFacts ChecksumFacts.

Lemma validate_checksum_corrupted body rest (i : nat) x y :
  write_message body !! i = Some x -> y <> x ->
  validate_checksum (<[i := y]> (write_message body) ++ rest) (size body + CHECKSUM_SIZE)
  = false.
Proof.
  intros Hi Hne. unfold validate_checksum, write_message, slice, CHECKSUM_SIZE in *.
  pose proof (size_nonneg body) as Hnn.
  destruct (Z.ltb_spec (size body + 4) 4) as [Hlt|_]; [lia|].
  replace (size body + 4 - 4) with (size body) by lia.
  unfold size. rewrite Nat2Z.id.
  set (cks := le_split 4 (calculate_checksum body)) in *.
  assert (Hcks : length cks = 4%nat) by apply length_le_split.
  assert (Hsum : le_combine cks = calculate_checksum body).
  { apply (le_combine_split_fits 4 32); [reflexivity|apply calculate_checksum_fits]. }
  destruct (Nat.lt_ge_cases i (length body)) as [Hlt|Hge].
  - rewrite insert_app_l by exact Hlt. rewrite lookup_app_l in Hi by exact Hlt.
    rewrite <- app_assoc.
    rewrite <- (length_insert body i y) at 1 2.
    rewrite take_app_length, drop_app_length.
    rewrite (take_app_length' cks) by exact Hcks. rewrite Hsum.
    apply Z.eqb_neq. now apply (checksum_insert body i x y).
  - rewrite insert_app_r_alt by exact Hge. rewrite lookup_app_r in Hi by exact Hge.
    rewrite <- app_assoc. rewrite take_app_length, drop_app_length.
    rewrite (take_app_length' (<[_ := y]> cks)) by (rewrite length_insert; exact Hcks).
    apply Z.eqb_neq. rewrite <- Hsum. intros Heq.
    apply le_combine_inj in Heq; [|now rewrite length_insert].
    assert (Hj : (i - length body < length cks)%nat) by (apply lookup_lt_is_Some; eauto).
    pose proof (list_lookup_insert_eq cks (i - length body) y Hj) as Hy.
    rewrite <- Heq, Hi in Hy. congruence.
Qed.


Lemma frame_bytes_written f :
  frame_bytes f = write_message (header_bytes (frame_header f) ++ payload_bytes f).
Proof. destruct f; cbn [frame_bytes frame_header payload_bytes];
  unfold trade_message, quote_message, heartbeat_message; rewrite ?app_nil_r; reflexivity. Qed.

Lemma size_written body : size (write_message body) = size body + CHECKSUM_SIZE.
Proof. unfold write_message. rewrite size_app. reflexivity. Qed.

(** [parse_one] on a well-formed frame in which one byte, any but the two
    of the message type, has been replaced by a different byte: the result
    is [CHECKSUM_ERROR], no callback is called, exactly one byte is
    skipped, the expected sequence stays, [checksum_errors] goes up by one
    and [messages_parsed] does not move. *)
Theorem corrupted_frame_is_rejected p f (i : nat) x y rest :
  frame_ok f -> (2 <= i)%nat -> frame_bytes f !! i = Some x -> y <> x ->
  pending p = <[i := y]> (frame_bytes f) ++ rest ->
  exists p',
    parse_one p = (CHECKSUM_ERROR, p') /\
    calls p' = calls p /\
    pending p' = skipn 1 (pending p) /\
    read_pos p' = read_pos p + 1 /\
    first_message p' = first_message p /\
    expected_sequence p' = expected_sequence p /\
    checksum_errors (stats p') = wrap64 (checksum_errors (stats p) + 1) /\
    messages_parsed (stats p') = messages_parsed (stats p).
Proof.
  intros Hok Hi Hx Hne Hp.
  pose proof (frame_size_bounds f) as Hsz.
  pose proof (size_nonneg rest) as Hrest.
  pose proof (size_frame_bytes f) as Hlen.
  assert (Hview : message_type (view_header (pending p)) = frame_kind f).
  { pose proof (view_header_frame f rest Hok) as Hh. destruct Hok as (_ & <- & _).
    rewrite <- Hh.
    rewrite Hp. unfold view_header, slice. cbn [message_type skipn].
    f_equal. rewrite !drop_0, !take_app_le.
    - now rewrite take_insert_ge by lia.
    - unfold size, HEARTBEAT_MSG_SIZE, HEADER_SIZE, CHECKSUM_SIZE in Hsz. lia.
    - rewrite length_insert. unfold size, HEARTBEAT_MSG_SIZE, HEADER_SIZE, CHECKSUM_SIZE in Hsz. lia. }
  assert (Hsum : validate_checksum (pending p) (get_message_size (frame_kind f)) = false).
  { rewrite Hp, <- Hlen, frame_bytes_written, size_written.
    apply (validate_checksum_corrupted _ rest i x y); [|exact Hne].
    now rewrite <- frame_bytes_written. }
  assert (Hav : size (pending p) = size (frame_bytes f) + size rest).
  { rewrite Hp, size_app. unfold size. now rewrite length_insert. }
  exists (with_stats add_checksum_errors (advance 1 p)). split; [|now conjs].
  unfold parse_one. rewrite available_size, Hview, Hsum, Hav, <- Hlen.
  unfold HEARTBEAT_MSG_SIZE, QUOTE_MSG_SIZE, HEADER_SIZE, CHECKSUM_SIZE,
    QUOTE_PAYLOAD_SIZE in *.
  destruct (Z.ltb_spec (size (frame_bytes f) + size rest) 16); [lia|].
  destruct (Z.eqb_spec (size (frame_bytes f)) 0); [lia|].
  destruct (Z.ltb_spec (size (frame_bytes f) + size rest) (size (frame_bytes f))); [lia|].
  destruct (Z.ltb_spec (16 + 24 + 4) (size (frame_bytes f))); [lia|].
  reflexivity.
Qed.


Lemma checksum_word_order a w1 m w2 b :
  size a mod 4 = 0 -> size m mod 4 = 0 -> length w1 = 4%nat -> length w2 = 4%nat ->
  calculate_checksum (a ++ w1 ++ m ++ w2 ++ b) =
  calculate_checksum (a ++ w2 ++ m ++ w1 ++ b).
Proof.
  intros Ha Hm H1 H2.
  assert (size w1 mod 4 = 0 /\ size w2 mod 4 = 0) as [Hw1 Hw2]
    by (unfold size; rewrite H1, H2; split; reflexivity).
  rewrite !checksum_app by assumption.
  apply Z.bits_inj'. intros n _. rewrite !Z.lxor_spec.
  repeat match goal with
         | |- context [Z.testbit ?x n] => destruct (Z.testbit x n)
         end; reflexivity.
Qed.

(** The checksum is the XOR of the 32-bit words of a message, so it cannot
    tell in which order they come: a message in which two 4-byte words at
    offsets that are multiples of 4 have changed places still passes
    [validate_checksum] with the checksum of the original. *)
Theorem transposed_words_pass_validation a w1 m w2 b rest :
  size a mod 4 = 0 -> size m mod 4 = 0 -> length w1 = 4%nat -> length w2 = 4%nat ->
  let body := a ++ w1 ++ m ++ w2 ++ b in
  let swapped := a ++ w2 ++ m ++ w1 ++ b in
  validate_checksum (swapped ++ le_split 4 (calculate_checksum body) ++ rest)
    (size body + CHECKSUM_SIZE) = true.
Proof.
  intros Ha Hm H1 H2 body swapped.
  pose proof (validate_checksum_written swapped rest) as Hv.
  unfold write_message in Hv. rewrite <- app_assoc in Hv.
  replace (calculate_checksum swapped) with (calculate_checksum body) in Hv
    by (apply checksum_word_order; assumption).
  replace (size swapped) with (size body) in Hv; [exact Hv|].
  subst body swapped. unfold size. rewrite !length_app, H1, H2. lia.
Qed.




Lemma check_sequence_buffer p seq ok p1 :
  check_sequence p seq = (ok, p1) ->
  pending p1 = pending p /\ read_pos p1 = read_pos p /\ buffer_size p1 = buffer_size p /\
  callbacks p1 = callbacks p /\
  accounted (stats p1) = accounted (stats p) /\
  messages_parsed (stats p1) = messages_parsed (stats p).
Proof.
  unfold check_sequence. intros H.
  destruct (first_message p); [|destruct (negb _); [destruct (gap_cb _)|]];
    inversion H; subst; now conjs.
Qed.

Ltac step_end :=
    unfold write_pos, accounted, wrap64, TRADE_MSG_SIZE, QUOTE_MSG_SIZE, HEARTBEAT_MSG_SIZE, HEADER_SIZE,
      TRADE_PAYLOAD_SIZE, QUOTE_PAYLOAD_SIZE, CHECKSUM_SIZE, size in *;
    cbn -[Z.mul Z.add Z.sub Z.modulo Z.pow skipn length wrap64]; unfold wrap64;
    repeat match goal with
           | H : pending _ = pending _ |- _ => rewrite !H
           | H : read_pos _ = read_pos _ |- _ => rewrite !H
           | H : buffer_size _ = buffer_size _ |- _ => rewrite !H
           end;
    rewrite ?length_skipn;
    change (2 ^ 64) with 18446744073709551616;
    conjs; intros; conjs; try reflexivity; try congruence; try lia;
    try (Z.div_mod_to_equations; lia).

Lemma parse_one_step p r p' :
  parse_one p = (r, p') ->
  exists k : nat,
    pending p' = skipn k (pending p) /\ (k <= length (pending p))%nat /\
    write_pos p' = write_pos p /\ buffer_size p' = buffer_size p /\
    wrap64 (accounted (stats p')) = wrap64 (accounted (stats p) + Z.of_nat k) /\
    wrap64 (messages_parsed (stats p')) =
      wrap64 (messages_parsed (stats p) + (if is_delivery r then 1 else 0)) /\
    (r = NEED_MORE_DATA -> p' = p /\ k = 0%nat /\ size (pending p) < QUOTE_MSG_SIZE) /\
    (r <> NEED_MORE_DATA -> (0 < k)%nat) /\
    HEARTBEAT_MSG_SIZE * (if is_delivery r then 1 else 0) <= Z.of_nat k.
Proof.
  unfold parse_one. rewrite available_size.
  pose proof (size_nonneg (pending p)) as Hnn.
  set (type := message_type (view_header (pending p))).
  unfold get_message_size, TRADE_MSG_SIZE, QUOTE_MSG_SIZE, HEARTBEAT_MSG_SIZE, HEADER_SIZE,
    TRADE_PAYLOAD_SIZE, QUOTE_PAYLOAD_SIZE, CHECKSUM_SIZE.
  destruct (Z.ltb_spec (size (pending p)) 16) as [H16|H16].
  { intros H0; inversion H0; subst. exists 0%nat. step_end. }
  destruct (Z.eqb_spec type TRADE) as [Ht|Ht]; [|destruct (Z.eqb_spec type QUOTE) as [Hq|Hq];
    [|destruct (Z.eqb_spec type HEARTBEAT) as [Hh|Hh]]]; cbn [Z.eqb Z.add Pos.add Pos.succ Pos.eqb].
  4: { intros H0; inversion H0; subst. exists 1%nat. step_end. }
  all: change (16 + 12 + 4) with 32; change (16 + 24 + 4) with 44; change (16 + 4) with 20;
       change (32 =? 0) with false; change (44 =? 0) with false; change (20 =? 0) with false;
       change (44 <? 32) with false; change (44 <? 44) with false;
       change (44 <? 20) with false; cbv iota.
  all: match goal with |- context [Z.ltb (size ?x) ?n] =>
         destruct (Z.ltb_spec (size x) n) as [Hlt|Hge] end.
  all: try solve [intros H0; inversion H0; subst; exists 0%nat; step_end].
  all: match goal with |- context [validate_checksum ?d ?n] =>
         destruct (validate_checksum d n) end; cbn [negb].
  all: try solve [intros H0; inversion H0; subst; exists 1%nat; step_end].
  all: match goal with |- context [check_sequence ?x ?y] =>
         destruct (check_sequence x y) as [ok p1] eqn:Hcs end;
       apply check_sequence_buffer in Hcs; destruct Hcs as (Hpe & Hrp & Hbs & Hcb & Hac & Hmp).
  all: intros H0; inversion H0; subst r p'; clear H0.
  all: unfold dispatch; fold type; rewrite ?Ht, ?Hq, ?Hh.
  - exists 32%nat. change (TRADE =? TRADE) with true. cbv iota.
    destruct (trade_cb (callbacks p1)); destruct ok; step_end.
  - exists 44%nat. change (QUOTE =? TRADE) with false. change (QUOTE =? QUOTE) with true. cbv iota.
    destruct (quote_cb (callbacks p1)); destruct ok; step_end.
  - exists 20%nat. change (HEARTBEAT =? TRADE) with false. change (HEARTBEAT =? QUOTE) with false.
    change (HEARTBEAT =? HEARTBEAT) with true. cbv iota.
    destruct (heartbeat_cb (callbacks p1)); destruct ok; step_end.
Qed.


Lemma ParseResult_eq_dec (a b : ParseResult) : {a = b} + {a <> b}.
Proof. decide equality. Defined.

Lemma parse_loop_spec fuel : forall p count,
  (length (pending p) < fuel)%nat ->
  exists n p' consumed,
    parse_loop fuel p count = Some (count + n, p') /\
    0 <= n /\ HEARTBEAT_MSG_SIZE * n <= size consumed /\
    pending p = consumed ++ pending p' /\
    size (pending p') < QUOTE_MSG_SIZE /\
    parse_one p' = (NEED_MORE_DATA, p') /\
    write_pos p' = write_pos p /\ buffer_size p' = buffer_size p /\
    wrap64 (accounted (stats p')) = wrap64 (accounted (stats p) + size consumed) /\
    wrap64 (messages_parsed (stats p')) = wrap64 (messages_parsed (stats p) + n).
Proof.
  induction fuel as [|fuel IH]; intros p count Hfuel; [lia|].
  cbn [parse_loop]. destruct (parse_one p) as [r p1] eqn:Hone.
  destruct (parse_one_step p r p1 Hone)
    as (k & Hpend & Hk & Hwp & Hbs & Hacc & Hmsg & Hwait & Hmove & Hmin).
  assert (Hsplit : pending p = firstn k (pending p) ++ pending p1)
    by (rewrite Hpend; symmetry; apply take_drop).
  assert (Hsize : size (firstn k (pending p)) = Z.of_nat k)
    by (unfold size; rewrite length_take; lia).
  destruct (is_delivery r) eqn:Hdel.
  - assert (Hr : r <> NEED_MORE_DATA) by (intros ->; discriminate).
    specialize (Hmove Hr).
    destruct (IH p1 (count + 1)) as (n & p' & consumed & Hloop & Hn & Hlen & Hp1 & Hlt & Hstop
                                    & Hwp' & Hbs' & Hacc' & Hmsg').
    { rewrite Hpend, length_skipn. lia. }
    exists (1 + n), p', (firstn k (pending p) ++ consumed).
    replace (count + (1 + n)) with (count + 1 + n) by lia.
    split; [destruct r; try discriminate; exact Hloop|].
    rewrite size_app, Hsize, <- app_assoc, <- Hp1.
    unfold wrap64 in *. change (2 ^ 64) with 18446744073709551616 in *.
    conjs; try assumption; try congruence; try lia; Z.div_mod_to_equations; lia.
  - destruct (ParseResult_eq_dec r NEED_MORE_DATA) as [->|Hr].
    + destruct (Hwait eq_refl) as (-> & -> & Hlt).
      exists 0, p, []. rewrite Z.add_0_r. cbn [app]. change (size []) with 0.
      rewrite !Z.add_0_r. conjs; try reflexivity; try assumption; lia.
    + specialize (Hmove Hr).
      destruct (IH p1 count) as (n & p' & consumed & Hloop & Hn & Hlen & Hp1 & Hlt & Hstop
                                    & Hwp' & Hbs' & Hacc' & Hmsg').
      { rewrite Hpend, length_skipn. lia. }
      exists n, p', (firstn k (pending p) ++ consumed).
      split; [destruct r; try discriminate; try congruence; exact Hloop|].
      rewrite size_app, Hsize, <- app_assoc, <- Hp1.
      unfold wrap64 in *. change (2 ^ 64) with 18446744073709551616 in *.
      conjs; try assumption; try congruence; try lia; Z.div_mod_to_equations; lia.
Qed.


(** [parse_messages] always returns.  It consumes a prefix of the unread
    bytes and leaves less than one quote frame (44 bytes) unread; every
    message it counts took at least the 20 bytes of a heartbeat; the write
    position and the buffer size stay; and called again at once it counts
    nothing and changes nothing. *)
Theorem parse_messages_drains p :
  exists n p' consumed,
    parse_messages p = Some (n, p') /\
    pending p = consumed ++ pending p' /\
    size (pending p') < QUOTE_MSG_SIZE /\
    0 <= n /\ HEARTBEAT_MSG_SIZE * n <= size consumed /\
    write_pos p' = write_pos p /\ buffer_size p' = buffer_size p /\
    parse_messages p' = Some (0, p').
Proof.
  destruct (parse_loop_spec (S (length (pending p))) p 0 (Nat.lt_succ_diag_r _))
    as (n & p' & consumed & Hloop & Hn & Hlen & Hp & Hlt & Hstop & Hwp & Hbs & _).
  exists n, p', consumed. unfold parse_messages at 1. rewrite Hloop.
  conjs; try assumption; try reflexivity.
  unfold parse_messages. cbn [parse_loop]. now rewrite Hstop.
Qed.

(** The statistics account for every byte [parse_messages] consumes:
    [messages_parsed] goes up by the count returned, and the frame sizes of
    the trades, quotes and heartbeats counted, plus one byte for each
    checksum error and each malformed message, add up to the number of
    bytes consumed (all modulo 2^64, the counters being 64-bit). *)
Theorem parse_messages_accounts p :
  exists n p' consumed,
    parse_messages p = Some (n, p') /\
    pending p = consumed ++ pending p' /\
    wrap64 (messages_parsed (stats p')) = wrap64 (messages_parsed (stats p) + n) /\
    wrap64 (accounted (stats p')) = wrap64 (accounted (stats p) + size consumed).
Proof.
  destruct (parse_loop_spec (S (length (pending p))) p 0 (Nat.lt_succ_diag_r _))
    as (n & p' & consumed & Hloop & _ & _ & Hp & _ & _ & _ & _ & Hacc & Hmsg).
  exists n, p', consumed. unfold parse_messages. rewrite Hloop. now conjs.
Qed.


(** After [reset] the parser takes a stream from any sequence number:
    whatever it held and expected before, consecutive well-formed frames
    fed in chunks of at most [MAX_CHUNK] bytes are all delivered, in order,
    with no gap, checksum error or malformed message counted, the counters
    having restarted from 0. *)
Theorem reset_resynchronises p fs chunks :
  parser_ok p -> callbacks p = all_callbacks ->
  Forall frame_ok fs -> consecutive fs -> concat chunks = stream fs ->
  Forall (fun c => size c <= MAX_CHUNK) chunks ->
  exists p',
    feed_all (reset p) chunks = Some (Z.of_nat (length fs), p') /\
    calls p' = calls p ++ map frame_call fs /\
    sequence_gaps (stats p') = 0 /\
    checksum_errors (stats p') = 0 /\
    malformed_messages (stats p') = 0 /\
    pending p' = [].
Proof.
  intros Hok Hcb Hfs Hcons Hcat Hchunks.
  destruct (feed_all_stream chunks (reset p) fs) as (p' & Hfeed & Hcalls & Hg & Hc & Hm & Hnil);
    try assumption.
  - destruct Hok as (Hb & _ & _). unfold parser_ok, reset, write_pos. cbn.
    change (size []) with 0. unfold INITIAL_BUFFER_SIZE in *. lia.
  - destruct fs; [exact I|]. now left.
  - now apply short_empty.
  - exists p'. now conjs.
Qed.



Lemma new_parser_handler_ok cbs : handler_ok (new_parser cbs).
Proof. split; [apply new_parser_ok|]. split; [reflexivity|now left]. Qed.

(** One round of the loop of [FeedHandler::process_data].  With less than
    one quote frame unread and the buffer at 4 MiB or 8 MiB, [append_data]
    takes all of a read of up to [RECV_BUFFER_SIZE] bytes, and after
    [parse_messages] the parser is in that condition again: the buffer
    never grows past 8 MiB and no received byte is dropped. *)
Theorem process_data_keeps_every_chunk p c :
  handler_ok p -> size c <= RECV_BUFFER_SIZE ->
  exists p1 n p2,
    append_data p c = Some (size c, p1) /\
    pending p1 = pending p ++ c /\ stats p1 = stats p /\
    feed p c = Some (n, p2) /\ handler_ok p2.
Proof.
  intros (Hok & Hshort & Hbuf) Hc.
  assert (Happ : exists p1, append_data p c = Some (size c, p1) /\
                   pending p1 = pending p ++ c /\ stats p1 = stats p /\ parser_ok p1 /\
                   (buffer_size p1 = INITIAL_BUFFER_SIZE \/
                    buffer_size p1 = 2 * INITIAL_BUFFER_SIZE)).
  { revert Hok Hshort Hbuf Hc.
    unfold parser_ok, RECV_BUFFER_SIZE, append_data, compact_buffer, copy_in,
      resize, write_pos, INITIAL_BUFFER_SIZE, MAX_BUFFER_SIZE, QUOTE_MSG_SIZE,
      HEADER_SIZE, QUOTE_PAYLOAD_SIZE, CHECKSUM_SIZE.
    destruct p as [bs rp pend es fm cbs st cl]. cbn.
    intros ((Hlo & Hhi) & Hrp & Hwp) Hused Hbuf Hc.
    pose proof (size_nonneg c) as Hc0. pose proof (size_nonneg pend) as Hp0.
    destruct (Z.eqb_spec (size c) 0) as [Hz|Hnz].
    { exists (mkParser bs rp pend es fm cbs st cl). cbn.
      assert (c = []) as -> by (destruct c; [reflexivity|unfold size in Hz; cbn [length] in Hz; lia]).
      rewrite app_nil_r. conjs; try reflexivity; try lia. }
    repeat (zcase;
            cbn [buffer_size read_pos pending expected_sequence first_message
                   callbacks stats calls with_stats mbind option_bind];
            try lia);
      eexists; (split; [reflexivity|]);
      cbn [buffer_size read_pos pending expected_sequence first_message
             callbacks stats calls];
      rewrite ?size_app; conjs; try reflexivity; lia. }
  destruct Happ as (p1 & Happ & Hp1 & Hst & Hok1 & Hbuf1).
  destruct (parse_loop_spec (S (length (pending p1))) p1 0 (Nat.lt_succ_diag_r _))
    as (n & p2 & consumed & Hloop & _ & _ & Hp & Hlt & _ & Hwp & Hbs & _).
  exists p1, n, p2. unfold feed. rewrite Happ. cbn [mbind option_bind].
  unfold parse_messages. rewrite Hloop. conjs; try assumption; try reflexivity.
  split; [|split; [exact Hlt|now rewrite Hbs]].
  destruct Hok1 as (Hb & Hr & Hw). unfold parser_ok. rewrite Hbs, Hwp.
  conjs; try lia. unfold write_pos in Hwp. rewrite Hp, size_app in Hwp.
  pose proof (size_nonneg consumed). lia.
Qed.

(** [append_data] writes past the end of its buffer exactly when the buffer
    is below [MAX_BUFFER_SIZE] and the data does not fit beside the unread
    bytes after one resize to [min (2 * size) MAX_BUFFER_SIZE]. *)
Theorem append_data_overrun p data :
  parser_ok p ->
  append_data p data = None <->
  buffer_size p < MAX_BUFFER_SIZE /\
  Z.min (2 * buffer_size p) MAX_BUFFER_SIZE - size (pending p) < size data.
Proof.
  unfold parser_ok, append_data, compact_buffer, copy_in,
    resize, write_pos, INITIAL_BUFFER_SIZE, MAX_BUFFER_SIZE.
  destruct p as [bs rp pend es fm cbs st cl]. cbn.
  intros ((Hlo & Hhi) & Hrp & Hwp).
  pose proof (size_nonneg data) as Hc0. pose proof (size_nonneg pend) as Hp0.
  repeat (zcase;
          cbn [buffer_size read_pos pending expected_sequence first_message
                 callbacks stats calls with_stats mbind option_bind];
          try lia);
    (split; [try discriminate; intros _; lia | try reflexivity; intros; lia]).
Qed.

End ParserLaws.

Module ParserLawExamples.
Import Protocol TickGenerator Parser Frames ParserSession FeedHandler.
Import ProtocolFacts ParserFacts ParserScenarios ParserSessionScenarios ParserExamples.
Import ParserLaws.

(** The bid price of [quote7] with one bit flipped on the wire. *)
Lemma corrupted_frame_is_rejected_witness :
  exists p',
    parse_one corrupted_quote = (CHECKSUM_ERROR, p') /\
    calls p' = calls corrupted_quote /\
    pending p' = skipn 1 (pending corrupted_quote) /\
    read_pos p' = read_pos corrupted_quote + 1 /\
    first_message p' = first_message corrupted_quote /\
    expected_sequence p' = expected_sequence corrupted_quote /\
    checksum_errors (stats p') = wrap64 (checksum_errors (stats corrupted_quote) + 1) /\
    messages_parsed (stats p') = messages_parsed (stats corrupted_quote).
Proof.
  apply (corrupted_frame_is_rejected corrupted_quote quote7 21 Byte.x10 Byte.x11 []).
  - exact quote7_ok.
  - lia.
  - vm_compute. reflexivity.
  - discriminate.
  - vm_compute. reflexivity.
Defined.

(** The words 01 02 03 04 and 05 06 07 08 exchanged. *)
Lemma transposed_words_pass_validation_witness :
  validate_checksum
    (([] ++ [Byte.x05; Byte.x06; Byte.x07; Byte.x08] ++ [] ++
      [Byte.x01; Byte.x02; Byte.x03; Byte.x04] ++ []) ++
     le_split 4 (calculate_checksum
                   ([] ++ [Byte.x01; Byte.x02; Byte.x03; Byte.x04] ++ [] ++
                    [Byte.x05; Byte.x06; Byte.x07; Byte.x08] ++ [])) ++ [])
    (size ([] ++ [Byte.x01; Byte.x02; Byte.x03; Byte.x04] ++ [] ++
           [Byte.x05; Byte.x06; Byte.x07; Byte.x08] ++ []) + CHECKSUM_SIZE) = true.
Proof.
  apply (transposed_words_pass_validation [] [Byte.x01; Byte.x02; Byte.x03; Byte.x04] []
           [Byte.x05; Byte.x06; Byte.x07; Byte.x08] [] []); reflexivity.
Defined.

Lemma before_gap_ok : parser_ok before_gap.
Proof. vm_compute. repeat split; congruence. Qed.

(** The parser that expects number 8 and holds an unread heartbeat, reset
    and fed three frames numbered from 7, one byte at a time. *)
Lemma reset_resynchronises_witness :
  exists p',
    feed_all (reset before_gap) (bytewise (stream [quote7; trade8; beat9]))
      = Some (Z.of_nat (length [quote7; trade8; beat9]), p') /\
    calls p' = calls before_gap ++ map frame_call [quote7; trade8; beat9] /\
    sequence_gaps (stats p') = 0 /\
    checksum_errors (stats p') = 0 /\
    malformed_messages (stats p') = 0 /\
    pending p' = [].
Proof.
  apply (reset_resynchronises before_gap [quote7; trade8; beat9]
           (bytewise (stream [quote7; trade8; beat9]))).
  - exact before_gap_ok.
  - reflexivity.
  - repeat constructor; fits_now.
  - cbn. split; [reflexivity|]. split; [reflexivity|exact I].
  - apply concat_bytewise.
  - apply bytewise_small.
Defined.

(** A new parser reading one quote frame. *)
Lemma process_data_keeps_every_chunk_witness :
  exists p1 n p2,
    append_data (new_parser all_callbacks) (frame_bytes quote7)
      = Some (size (frame_bytes quote7), p1) /\
    pending p1 = pending (new_parser all_callbacks) ++ frame_bytes quote7 /\
    stats p1 = stats (new_parser all_callbacks) /\
    feed (new_parser all_callbacks) (frame_bytes quote7) = Some (n, p2) /\
    handler_ok p2.
Proof.
  apply (process_data_keeps_every_chunk (new_parser all_callbacks) (frame_bytes quote7)).
  - apply new_parser_handler_ok.
  - vm_compute. discriminate.
Defined.

(** 8388609 bytes offered to a new parser, one more than the buffer holds
    after its resize to 8 MiB. *)
Lemma append_data_overrun_witness :
  append_data (new_parser all_callbacks) flood = None.
Proof.
  apply (append_data_overrun (new_parser all_callbacks) flood).
  - apply new_parser_ok.
  - unfold flood, size. rewrite length_replicate, Z2Nat.id by lia.
    split; vm_compute; reflexivity.
Defined.

End ParserLawExamples.

Module SocketFacts.
Import Socket.


Lemma reconnect_step s outcome :
  budget_ok s ->
  let r := reconnect s outcome in
  budget_ok r.2 /\
  (reconnect_count_ s < 5 ->
   r.1 = outcome /\ connected_ r.2 = outcome /\
   reconnect_count_ r.2 = reconnect_count_ s + 1 /\
   slept r.2 = slept s ++ [current_backoff_ms_ s] /\
   current_backoff_ms_ s <= 1600) /\
  (reconnect_count_ s = 5 -> r = (false, s)).
Proof.
  unfold budget_ok, reconnect, do_connect, MAX_RETRY_COUNT. intros ((Hc0 & Hc5) & Hb0 & Hb).
  assert (Hpow : 2 ^ reconnect_count_ s <= 32 /\
                 (reconnect_count_ s < 5 -> 2 ^ reconnect_count_ s <= 16) /\
                 2 ^ (reconnect_count_ s + 1) = 2 * 2 ^ reconnect_count_ s).
  { assert (reconnect_count_ s = 0 \/ reconnect_count_ s = 1 \/ reconnect_count_ s = 2 \/
            reconnect_count_ s = 3 \/ reconnect_count_ s = 4 \/ reconnect_count_ s = 5)
      as [->|[->|[->|[->|[->| ->]]]]] by lia; cbn; lia. }
  destruct Hpow as (Hp32 & Hp16 & Hp2).
  destruct (Z.leb_spec 5 (reconnect_count_ s)) as [Hfull|Hroom]; cbn [fst snd].
  { conjs; intros; conjs; try lia; reflexivity. }
  assert (Hw1 : wrap32 (reconnect_count_ s + 1) = reconnect_count_ s + 1)
    by (unfold wrap32; apply Z.mod_small; lia).
  assert (Hw2 : wrap32 (current_backoff_ms_ s * 2) = current_backoff_ms_ s * 2)
    by (unfold wrap32; apply Z.mod_small; lia).
  destruct outcome; cbn [fst snd reconnect_count_ current_backoff_ms_ connected_ slept];
    rewrite ?Hw1, ?Hw2, ?Hp2; conjs; intros; conjs; try reflexivity; try lia.
Qed.


Lemma reconnect_all_budget outcomes : forall s,
  budget_ok s ->
  let left := Z.to_nat (5 - reconnect_count_ s) in
  let results := (reconnect_all s outcomes).1 in
  let s' := (reconnect_all s outcomes).2 in
  length results = length outcomes /\
  (forall i : nat, (i < left)%nat -> results !! i = outcomes !! i) /\
  (forall i : nat, (left <= i < length outcomes)%nat -> results !! i = Some false) /\
  exists sleeps,
    slept s' = slept s ++ sleeps /\
    length sleeps = Nat.min (length outcomes) left /\
    Forall (fun d => 100 <= d <= 1600) sleeps.
Proof.
  induction outcomes as [|outcome rest IH]; intros s Hok; cbn zeta.
  { cbn. conjs; try reflexivity; try (intros; lia). exists []. rewrite app_nil_r.
    conjs; [reflexivity|reflexivity|constructor]. }
  cbn [reconnect_all].
  destruct (reconnect_step s outcome Hok) as (Hok1 & Hroom & Hfull).
  destruct (reconnect s outcome) as [ok s1] eqn:Hre. cbn [fst snd] in *.
  specialize (IH s1 Hok1). cbn zeta in IH.
  destruct (reconnect_all s1 rest) as [oks s2]. cbn [fst snd length] in *.
  destruct IH as (Hlen & Hlow & Hhigh & sleeps & Hsl & Hn & Hall).
  destruct Hok as ((Hc0 & Hc5) & Hb).
  destruct (Z.eq_dec (reconnect_count_ s) 5) as [H5|H5].
  - specialize (Hfull H5). injection Hfull as -> ->.
    rewrite H5 in *. change (Z.to_nat (5 - 5)) with 0%nat in *.
    conjs; [lia|intros; lia| |].
    + intros [|i] Hi; [reflexivity|]. cbn [lookup list_lookup]. apply Hhigh. lia.
    + exists sleeps. conjs; try assumption. rewrite Hn. lia.
  - destruct Hroom as (-> & _ & Hcnt & Hslept & Hsleep); [lia|].
    rewrite Hcnt in *.
    replace (Z.to_nat (5 - reconnect_count_ s)) with (S (Z.to_nat (5 - (reconnect_count_ s + 1))))
      by lia.
    conjs; [lia| | |].
    + intros [|i] Hi; [reflexivity|]. cbn [lookup list_lookup]. apply Hlow. lia.
    + intros [|i] Hi; [lia|]. cbn [lookup list_lookup]. apply Hhigh. lia.
    + exists (current_backoff_ms_ s :: sleeps). rewrite Hsl, Hslept, <- app_assoc.
      conjs; [reflexivity|cbn [length]; lia|].
      constructor; [lia|exact Hall].
Qed.

(** The retry budget of a connection.  After [connect], whatever its
    result, the first five calls of [reconnect] each make one attempt and
    return its outcome; every later call returns false without an attempt,
    also when some of the five succeeded, since only [connect] resets the
    count.  Each attempt is preceded by one sleep, of 100 ms to 1600 ms. *)
Theorem reconnect_budget s event_ok first outcomes :
  let s0 := (connect s event_ok first).2 in
  let results := (reconnect_all s0 outcomes).1 in
  let s' := (reconnect_all s0 outcomes).2 in
  length results = length outcomes /\
  (forall i : nat, (i < 5)%nat -> results !! i = outcomes !! i) /\
  (forall i : nat, (5 <= i < length outcomes)%nat -> results !! i = Some false) /\
  exists sleeps,
    slept s' = slept s ++ sleeps /\
    length sleeps = Nat.min (length outcomes) 5 /\
    Forall (fun d => 100 <= d <= 1600) sleeps.
Proof.
  intros s0 results s'.
  assert (Hok : budget_ok s0 /\ reconnect_count_ s0 = 0 /\ slept s0 = slept s).
  { subst s0. unfold connect, do_connect, budget_ok.
    destruct event_ok; cbn; conjs; try reflexivity; lia. }
  destruct Hok as (Hok & Hcnt & Hslept).
  pose proof (reconnect_all_budget outcomes s0 Hok) as H. cbn zeta in H.
  rewrite Hcnt, Hslept in H. exact H.
Qed.

End SocketFacts.

Module SubscriptionFacts.
Import Protocol ProtocolFacts Kernel ClientManager ClientTable Socket ExchangeSimulator.

Lemma length_le_split2 v : length (le_split 2 v) = 2%nat.
Proof. apply length_le_split. Qed.

Lemma length_ids_bytes ids : length (concat (map (le_split 2) ids)) = (2 * length ids)%nat.
Proof.
  induction ids as [|a ids IH]; [reflexivity|].
  cbn [map concat length]. rewrite length_app, length_le_split2, IH. lia.
Qed.

Lemma length_subscription_request ids :
  length (subscription_request ids) = (3 + 2 * length ids)%nat.
Proof.
  unfold subscription_request. rewrite !length_app, length_le_split2, length_ids_bytes.
  reflexivity.
Qed.

(** The identifiers read back from the bytes written for them. *)
Lemma decode_ids ids : forall (prefix : list byte),
  Forall (fits 16) ids ->
  map (fun i : nat =>
         le_combine (slice (length prefix + i * 2) 2
                       (prefix ++ concat (map (le_split 2) ids))))
    (seq 0 (length ids)) = ids.
Proof.
  induction ids as [|a ids IH]; intros prefix Hfit; [reflexivity|].
  apply Forall_cons_1 in Hfit as [Ha Hfit]. cbn [length seq map concat]. f_equal.
  - unfold slice. rewrite Nat.add_0_r, drop_app_length.
    rewrite (take_app_length' (le_split 2 a)) by reflexivity.
    now apply (le_combine_split_fits 2 16).
  - rewrite <- seq_shift, map_map.
    specialize (IH (prefix ++ le_split 2 a) Hfit).
    rewrite <- IH at 2. apply map_ext. intros i.
    rewrite <- app_assoc, length_app, length_le_split2. do 2 f_equal. lia.
Qed.


Lemma request_head ids :
  exists b1 b2 body,
    subscription_request ids = Byte.xff :: b1 :: b2 :: body /\
    le_combine [b1; b2] = wrap16 (Z.of_nat (length ids)) /\
    body = concat (map (le_split 2) ids).
Proof.
  unfold subscription_request.
  pose proof (le_combine_split 2 (wrap16 (Z.of_nat (length ids)))) as Hc.
  destruct (le_split 2 (wrap16 (Z.of_nat (length ids)))) as [|b1 [|b2 [|? ?]]] eqn:Hs;
    try (apply (f_equal length) in Hs; rewrite length_le_split2 in Hs; discriminate).
  exists b1, b2, (concat (map (le_split 2) ids)). conjs; [reflexivity| |reflexivity].
  rewrite Hc. unfold wrap16. change (Z.of_nat 2 * 8) with 16. apply Z.mod_mod. lia.
Qed.

(** A request written by [send_subscription] for at most 510 symbols is read
    back by [process_subscription] as it was written: the call returns true
    and hands [handle_subscription] the same symbol list, after which the
    subscriber's set holds exactly those symbols, [subscribe_all] is set
    exactly when the list is empty, and the slow flag and the message count
    are untouched. *)
Theorem subscription_round_trip cm k fd symbol_ids :
  Forall (fits 16) symbol_ids -> (length symbol_ids <= 510)%nat ->
  process_subscription cm k fd (Queued (subscription_request symbol_ids)) =
    (true, ((handle_subscription cm fd symbol_ids).2, k)) /\
  forall c, clients cm !! fd = Some c ->
    exists c',
      get_client (handle_subscription cm fd symbol_ids).2 fd = Some c' /\
      (forall id, id ∈ subscribed_symbols c' <-> id ∈ symbol_ids) /\
      (subscribe_all c' = true <-> symbol_ids = []) /\
      is_slow c' = is_slow c /\ messages_sent c' = messages_sent c.
Proof.
  intros Hfit Hlen. split.
  - pose proof (length_subscription_request symbol_ids) as Hsize.
    destruct (request_head symbol_ids) as (b1 & b2 & body & Hreq & Hcount & Hbody).
    pose proof (decode_ids symbol_ids [Byte.xff; b1; b2] Hfit) as Hids.
    rewrite Hreq in *. cbn [app length] in Hids. rewrite <- Hbody in Hids.
    unfold process_subscription.
    assert (Htake : firstn 1024 (Byte.xff :: b1 :: b2 :: body) = Byte.xff :: b1 :: b2 :: body)
      by (apply take_ge; lia).
    rewrite Htake.
    change (slice 0 1 (Byte.xff :: b1 :: b2 :: body)) with [Byte.xff].
    change (slice 1 2 (Byte.xff :: b1 :: b2 :: body)) with [b1; b2].
    change (le_combine [Byte.xff] =? SUBSCRIBE_CMD) with true.
    rewrite Hcount. unfold wrap16. rewrite Z.mod_small by lia.
    unfold size. rewrite Hsize.
    destruct (Z.leb_spec 3 (Z.of_nat (3 + 2 * length symbol_ids))); [|lia].
    destruct (Z.leb_spec (3 + Z.of_nat (length symbol_ids) * 2)
                (Z.of_nat (3 + 2 * length symbol_ids))); [|lia].
    cbn [andb]. rewrite Nat2Z.id.
    now rewrite Hids.
  - intros c Hc. unfold handle_subscription, get_client. rewrite Hc.
    cbn [snd clients with_clients]. rewrite lookup_alter_eq, Hc. cbn [fmap option_fmap option_map].
    eexists. split; [reflexivity|]. cbn [subscribed_symbols subscribe_all is_slow messages_sent subscribed].
    conjs; try reflexivity.
    + intros id. apply elem_of_list_to_set.
    + destruct symbol_ids as [|a rest]; [now split|].
      split; [|discriminate]. intros H. apply Z.eqb_eq in H. cbn [length] in H. lia.
Qed.

(** A request for more than 510 symbols does not fit the 1024 bytes
    [process_subscription] reads: the call returns false and no
    subscription changes. *)
Theorem oversized_subscription_is_ignored cm k fd symbol_ids :
  510 < Z.of_nat (length symbol_ids) < 65536 ->
  process_subscription cm k fd (Queued (subscription_request symbol_ids)) = (false, (cm, k)).
Proof.
  intros Hlen.
  pose proof (length_subscription_request symbol_ids) as Hsize.
  destruct (request_head symbol_ids) as (b1 & b2 & body & Hreq & Hcount & Hbody).
  rewrite Hreq in *. unfold process_subscription.
  destruct body as [|b3 body]; [cbn in Hsize; lia|].
  change (firstn 1024 (Byte.xff :: b1 :: b2 :: b3 :: body))
    with (Byte.xff :: b1 :: b2 :: firstn 1021 (b3 :: body)).
  change (slice 0 1 (Byte.xff :: b1 :: b2 :: firstn 1021 (b3 :: body))) with [Byte.xff].
  change (le_combine [Byte.xff] =? SUBSCRIBE_CMD) with true.
  assert (Hslice : slice 1 2 (Byte.xff :: b1 :: b2 :: firstn 1021 (b3 :: body)) = [b1; b2])
    by reflexivity.
  rewrite Hslice, Hcount. unfold wrap16. rewrite Z.mod_small by lia.
  assert (Hn : size (Byte.xff :: b1 :: b2 :: firstn 1021 (b3 :: body)) = 1024).
  { unfold size. cbn [length]. rewrite length_take. cbn [length] in *. lia. }
  rewrite Hn. change (3 <=? 1024) with true. cbn [andb].
  destruct (Z.leb_spec (3 + Z.of_nat (length symbol_ids) * 2) 1024); [lia|reflexivity].
Qed.

End SubscriptionFacts.

Module ClientTableFacts.
Import Kernel ClientManager ClientTable ClientManagerFacts.

Lemma with_clients_id cm : with_clients (fun m => m) cm = cm.
Proof. now destruct cm. Qed.

(** The client table.  [add_client] on a descriptor not in the table
    returns true and stores a new entry, subscribed to everything, not
    slow, with zero counts; the other entries stay and [client_count] goes
    up by one; adding the descriptor again returns false and changes
    nothing; [remove_client] gives back the table as it was. *)
Theorem client_table_round_trip cm k fd address port now :
  clients cm !! fd = None ->
  let cm1 := (add_client cm fd address port now).2 in
  (add_client cm fd address port now).1 = true /\
  has_client cm1 fd = true /\
  (exists c,
     get_client cm1 fd = Some c /\ subscribe_all c = true /\ subscribed_symbols c = ∅ /\
     is_slow c = false /\ messages_sent c = 0 /\ bytes_sent c = 0) /\
  (forall fd', fd' <> fd -> get_client cm1 fd' = get_client cm fd') /\
  client_count cm1 = client_count cm + 1 /\
  (forall address' port' now', add_client cm1 fd address' port' now' = (false, cm1)) /\
  (remove_client cm1 k fd).1 = cm /\
  has_client (remove_client cm1 k fd).1 fd = false.
Proof.
  intros Hnew cm1. subst cm1. unfold add_client, has_client, get_client, remove_client,
    client_count.
  rewrite Hnew. cbn [fst snd clients with_clients]. rewrite !lookup_insert_eq.
  cbn [fst snd clients with_clients]. rewrite delete_insert_eq, delete_id by exact Hnew.
  rewrite Hnew. conjs; try reflexivity.
  - eexists. split; [reflexivity|]. now conjs.
  - intros fd' Hne. now rewrite lookup_insert_ne.
  - rewrite map_to_list_insert by exact Hnew. cbn [length]. lia.
  - destruct cm as [cl th tm tb]. unfold with_clients. cbn [clients] in *.
    cbn [slow_threshold total_messages_sent total_bytes_sent].
    now rewrite delete_insert_eq, delete_id.
Qed.



Lemma send_to_client_local_ok cm1 cm2 k1 k2 fd data :
  clients cm1 !! fd = clients cm2 !! fd -> k1 !! fd = k2 !! fd ->
  slow_threshold cm1 = slow_threshold cm2 ->
  (send_to_client cm1 k1 fd data).1.1 = (send_to_client cm2 k2 fd data).1.1.
Proof.
  intros Hc Hk Ht.
  unfold send_to_client, mark_slow_consumer, clear_slow_status, send,
    get_pending_bytes, tiocoutq.
  cbn [slow_threshold with_clients clients].
  rewrite !lookup_alter_eq, <- Hc, <- Hk, <- Ht.
  destruct (clients cm1 !! fd) as [c|] eqn:Hc1; [|reflexivity].
  destruct (k1 !! fd) as [s|] eqn:Hk1;
    cbn [mbind option_bind fmap option_fmap option_map];
    repeat match goal with |- context [if ?b then _ else _] => destruct b end;
    reflexivity.
Qed.

Lemma broadcast_one_unfold data symbol_id now count cm k fd :
  broadcast_one data symbol_id now (count, cm, k) fd =
  if credited cm k data symbol_id fd then
    (count + 1,
     with_clients (alter (counted_send (size data) now) fd) (send_to_client cm k fd data).1.2,
     (send_to_client cm k fd data).2)
  else
    match clients cm !! fd with
    | Some c => if eligible symbol_id c
                then (count, (send_to_client cm k fd data).1.2, (send_to_client cm k fd data).2)
                else (count, cm, k)
    | None => (count, cm, k)
    end.
Proof.
  unfold broadcast_one, credited, eligible.
  destruct (clients cm !! fd) as [c|]; [|reflexivity].
  destruct (is_slow c); [reflexivity|].
  destruct (subscribe_all c), (bool_decide (symbol_id ∈ subscribed_symbols c));
    cbn [negb andb orb]; try reflexivity;
    destruct (send_to_client cm k fd data) as [[[] cm'] k']; reflexivity.
Qed.

Lemma broadcast_one_frame data symbol_id now acc fd' fd :
  fd' <> fd ->
  clients (broadcast_one data symbol_id now acc fd').1.2 !! fd = clients acc.1.2 !! fd /\
  (broadcast_one data symbol_id now acc fd').2 !! fd = acc.2 !! fd.
Proof.
  intros Hne. destruct acc as [[count cm] k]. rewrite broadcast_one_unfold.
  destruct (send_to_client_frame cm k fd' data fd Hne) as [Hc Hk].
  destruct (credited cm k data symbol_id fd'); cbn [fst snd clients with_clients].
  - now rewrite lookup_alter_ne.
  - destruct (clients cm !! fd') as [c|]; [destruct (eligible symbol_id c)|]; now cbn.
Qed.

Lemma broadcast_one_settings data symbol_id now acc fd :
  slow_threshold (broadcast_one data symbol_id now acc fd).1.2 = slow_threshold acc.1.2.
Proof.
  destruct acc as [[count cm] k]. rewrite broadcast_one_unfold.
  pose proof (send_to_client_threshold cm k fd data) as Ht.
  destruct (credited cm k data symbol_id fd); cbn [fst snd slow_threshold with_clients];
    [exact Ht|].
  destruct (clients cm !! fd) as [c|]; [destruct (eligible symbol_id c)|]; now cbn.
Qed.

Lemma credited_local cm1 cm2 k1 k2 data symbol_id fd :
  clients cm1 !! fd = clients cm2 !! fd -> k1 !! fd = k2 !! fd ->
  slow_threshold cm1 = slow_threshold cm2 ->
  credited cm1 k1 data symbol_id fd = credited cm2 k2 data symbol_id fd.
Proof.
  intros Hc Hk Ht. unfold credited. rewrite <- Hc.
  now rewrite (send_to_client_local_ok cm1 cm2 k1 k2 fd data Hc Hk Ht).
Qed.

Lemma broadcast_one_local data symbol_id now c1 c2 cm1 cm2 k1 k2 fd :
  clients cm1 !! fd = clients cm2 !! fd -> k1 !! fd = k2 !! fd ->
  slow_threshold cm1 = slow_threshold cm2 ->
  clients (broadcast_one data symbol_id now (c1, cm1, k1) fd).1.2 !! fd =
  clients (broadcast_one data symbol_id now (c2, cm2, k2) fd).1.2 !! fd /\
  (broadcast_one data symbol_id now (c1, cm1, k1) fd).2 !! fd =
  (broadcast_one data symbol_id now (c2, cm2, k2) fd).2 !! fd.
Proof.
  intros Hc Hk Ht. rewrite !broadcast_one_unfold.
  rewrite (credited_local cm1 cm2 k1 k2 data symbol_id fd Hc Hk Ht).
  destruct (send_to_client_local cm1 cm2 k1 k2 fd data Hc Hk Ht) as [Hc' Hk'].
  destruct (credited cm2 k2 data symbol_id fd); cbn [fst snd clients with_clients].
  - rewrite !lookup_alter_eq, Hc'. now split.
  - rewrite <- Hc. destruct (clients cm1 !! fd) as [c|] eqn:Hc1; [destruct (eligible symbol_id c)|];
      cbn [fst snd]; split; congruence.
Qed.

Lemma broadcast_one_count data symbol_id now count cm k fd :
  (broadcast_one data symbol_id now (count, cm, k) fd).1.1 =
  count + (if credited cm k data symbol_id fd then 1 else 0).
Proof.
  rewrite broadcast_one_unfold.
  destruct (credited cm k data symbol_id fd); cbn [fst]; [reflexivity|].
  destruct (clients cm !! fd) as [c|]; [destruct (eligible symbol_id c)|]; cbn [fst]; lia.
Qed.

Lemma filter_agree {A} (P Q : A -> Prop) `{forall x, Decision (P x)}
    `{forall x, Decision (Q x)} (l : list A) :
  (forall x, x ∈ l -> P x <-> Q x) -> filter P l = filter Q l.
Proof.
  induction l as [|x l IH]; intros Hpq; [reflexivity|].
  rewrite !filter_cons.
  assert (Hx : P x <-> Q x) by (apply Hpq; left).
  rewrite IH by (intros y Hy; apply Hpq; now right).
  destruct (decide (P x)), (decide (Q x)); tauto.
Qed.

(** The loop of [broadcast] over any duplicate-free list of descriptors. *)
Lemma broadcast_fold_spec data symbol_id now fds : forall count cm k,
  NoDup fds ->
  let r := fold_left (broadcast_one data symbol_id now) fds (count, cm, k) in
  slow_threshold r.1.2 = slow_threshold cm /\
  r.1.1 = count + Z.of_nat (length (filter (fun fd => credited cm k data symbol_id fd = true) fds)) /\
  forall fd,
    (fd ∉ fds -> clients r.1.2 !! fd = clients cm !! fd /\ r.2 !! fd = k !! fd) /\
    (fd ∈ fds ->
     clients r.1.2 !! fd =
       clients (broadcast_one data symbol_id now (0, cm, k) fd).1.2 !! fd /\
     r.2 !! fd = (broadcast_one data symbol_id now (0, cm, k) fd).2 !! fd).
Proof.
  induction fds as [|a fds IH]; intros count cm k Hnd; cbn zeta.
  { cbn. conjs; [reflexivity|lia|]. intros fd. split; [now split|].
    intros Hin. now apply elem_of_nil in Hin. }
  apply NoDup_cons in Hnd as [Ha Hnd]. cbn [fold_left].
  destruct (broadcast_one data symbol_id now (count, cm, k) a) as [[count1 cm1] k1] eqn:Hone.
  pose proof (broadcast_one_count data symbol_id now count cm k a) as Hcount.
  pose proof (broadcast_one_settings data symbol_id now (count, cm, k) a) as Hset.
  pose proof (fun fd => broadcast_one_frame data symbol_id now (count, cm, k) a fd) as Hframe.
  rewrite Hone in Hcount, Hset, Hframe. cbn [fst snd] in Hcount, Hset, Hframe.
  specialize (IH count1 cm1 k1 Hnd). cbn zeta in IH.
  destruct IH as (Hth & Hcnt & Hfd). 
  assert (Hfilter : filter (fun fd => credited cm1 k1 data symbol_id fd = true) fds =
                    filter (fun fd => credited cm k data symbol_id fd = true) fds).
  { apply filter_agree. intros fd Hin.
    assert (Hne : a <> fd) by (intros ->; contradiction).
    destruct (Hframe fd Hne) as [Hc Hk].
    now rewrite (credited_local cm1 cm k1 k data symbol_id fd Hc Hk Hset). }
  rewrite filter_cons.
  conjs; [congruence| |].
  - rewrite Hcnt, Hfilter, Hcount.
    destruct (decide (credited cm k data symbol_id a = true)) as [Hcr|Hcr].
    + rewrite Hcr. cbn [length]. lia.
    + destruct (credited cm k data symbol_id a); [congruence|lia].
  - intros fd. destruct (Hfd fd) as [Hout Hin]. split.
    + intros Hnot. apply not_elem_of_cons in Hnot as [Hne Hnot].
      destruct (Hout Hnot) as [Hc Hk]. destruct (Hframe fd) as [Hc' Hk']; [congruence|].
      split; congruence.
    + intros Hmem. destruct (Z.eq_dec a fd) as [->|Hne].
      * destruct (Hout Ha) as [Hc Hk]. rewrite Hc, Hk.
        pose proof (broadcast_one_local data symbol_id now count 0 cm cm k k fd
                      eq_refl eq_refl eq_refl) as [Hc' Hk'].
        rewrite Hone in Hc', Hk'. cbn [fst snd] in Hc', Hk'. now split.
      * apply elem_of_cons in Hmem as [Heq|Hmem]; [congruence|].
        destruct (Hin Hmem) as [Hc Hk]. rewrite Hc, Hk.
        destruct (Hframe fd Hne) as [Hc' Hk'].
        apply broadcast_one_local; assumption.
Qed.


Lemma send_to_client_totals cm k fd data :
  total_messages_sent (send_to_client cm k fd data).1.2 = total_messages_sent cm /\
  total_bytes_sent (send_to_client cm k fd data).1.2 = total_bytes_sent cm.
Proof.
  unfold send_to_client. destruct (clients cm !! fd); [|now split].
  match goal with |- context [if ?b then _ else _] => destruct b end; [now split|].
  destruct (send k fd data) as [[n| |] k'];
    repeat match goal with |- context [if ?b then _ else _] => destruct b end;
    now split.
Qed.

Lemma broadcast_one_totals data symbol_id now acc fd :
  total_messages_sent (broadcast_one data symbol_id now acc fd).1.2 =
    total_messages_sent acc.1.2 /\
  total_bytes_sent (broadcast_one data symbol_id now acc fd).1.2 = total_bytes_sent acc.1.2.
Proof.
  destruct acc as [[count cm] k]. rewrite broadcast_one_unfold.
  pose proof (send_to_client_totals cm k fd data) as Ht.
  destruct (credited cm k data symbol_id fd);
    cbn [fst snd total_messages_sent total_bytes_sent with_clients]; [exact Ht|].
  destruct (clients cm !! fd) as [c|]; [destruct (eligible symbol_id c)|]; now cbn.
Qed.

Lemma broadcast_fold_totals data symbol_id now fds : forall acc,
  total_messages_sent (fold_left (broadcast_one data symbol_id now) fds acc).1.2 =
    total_messages_sent acc.1.2 /\
  total_bytes_sent (fold_left (broadcast_one data symbol_id now) fds acc).1.2 =
    total_bytes_sent acc.1.2.
Proof.
  induction fds as [|a fds IH]; intros acc; [now split|]. cbn [fold_left].
  destruct (IH (broadcast_one data symbol_id now acc a)) as [-> ->].
  apply broadcast_one_totals.
Qed.

Lemma broadcast_unfold cm k data symbol_id now :
  let r := fold_left (broadcast_one data symbol_id now) (get_all_client_fds cm) (0, cm, k) in
  broadcast cm k data symbol_id now =
  (r.1.1,
   mkManager (clients r.1.2) (slow_threshold r.1.2)
     (wrap64 (total_messages_sent r.1.2 + r.1.1))
     (wrap64 (total_bytes_sent r.1.2 + r.1.1 * size data)),
   r.2).
Proof. unfold broadcast. now destruct (fold_left _ _ _) as [[count cm'] k']. Qed.

Lemma fds_NoDup cm : NoDup (get_all_client_fds cm).
Proof. apply NoDup_fst_map_to_list. Qed.

Lemma fds_elem cm fd : fd ∈ get_all_client_fds cm <-> is_Some (clients cm !! fd).
Proof.
  unfold get_all_client_fds. rewrite list_elem_of_fmap. split.
  - intros ([fd' c] & -> & Hin). apply elem_of_map_to_list in Hin. now exists c.
  - intros [c Hc]. exists (fd, c). split; [reflexivity|]. now apply elem_of_map_to_list.
Qed.

(** [broadcast] and one subscriber.  A subscriber that neither subscribes
    to everything nor has the symbol in its set is left alone: its entry
    and its socket are as before.  A subscriber that is not slow and
    subscribes to the symbol gets exactly one [send_to_client], and is
    credited with the message when, and only when, that send returned
    true. *)
Theorem broadcast_respects_subscriptions cm k data symbol_id now fd c :
  clients cm !! fd = Some c ->
  let b := broadcast cm k data symbol_id now in
  let s := send_to_client cm k fd data in
  (subscribe_all c = false -> symbol_id ∉ subscribed_symbols c ->
   clients b.1.2 !! fd = Some c /\ b.2 !! fd = k !! fd) /\
  (is_slow c = false -> subscribe_all c = true \/ symbol_id ∈ subscribed_symbols c ->
   b.2 !! fd = s.2 !! fd /\
   clients b.1.2 !! fd =
     if s.1.1 then counted_send (size data) now <$> clients s.1.2 !! fd
     else clients s.1.2 !! fd).
Proof.
  intros Hc b s. subst b. rewrite broadcast_unfold. cbn zeta. cbn [fst snd clients].
  destruct (broadcast_fold_spec data symbol_id now (get_all_client_fds cm) 0 cm k (fds_NoDup cm))
    as (_ & _ & Hfd).
  destruct (Hfd fd) as [_ Hin]. destruct Hin as [Hc' Hk']; [apply fds_elem; eauto|].
  rewrite Hc', Hk', broadcast_one_unfold. unfold credited, eligible. rewrite Hc. fold s.
  split.
  - intros Hall Hnot. rewrite Hall, bool_decide_eq_false_2 by exact Hnot.
    rewrite andb_false_r. cbn [orb andb fst snd]. now split.
  - intros Hslow Hsub. rewrite Hslow. cbn [negb andb].
    assert (Hel : subscribe_all c || bool_decide (symbol_id ∈ subscribed_symbols c) = true).
    { destruct Hsub as [->|Hin]; [reflexivity|].
      rewrite bool_decide_eq_true_2 by exact Hin. apply orb_true_r. }
    rewrite Hel. destruct (s.1.1); cbn [andb fst snd clients with_clients].
    + now rewrite lookup_alter_eq.
    + now split.
Qed.

(** [broadcast] returns the number of subscribers that were tried and whose
    send was complete, at most [client_count]; the totals go up by that
    number and by that number times the message length (modulo 2^64), and
    the slow threshold stays. *)
Theorem broadcast_counts_complete_sends cm k data symbol_id now :
  let b := broadcast cm k data symbol_id now in
  b.1.1 = Z.of_nat (length (filter (fun fd => credited cm k data symbol_id fd = true)
                              (get_all_client_fds cm))) /\
  0 <= b.1.1 <= client_count cm /\
  total_messages_sent b.1.2 = wrap64 (total_messages_sent cm + b.1.1) /\
  total_bytes_sent b.1.2 = wrap64 (total_bytes_sent cm + b.1.1 * size data) /\
  slow_threshold b.1.2 = slow_threshold cm.
Proof.
  intros b. subst b. rewrite broadcast_unfold. cbn zeta.
  cbn [fst snd total_messages_sent total_bytes_sent slow_threshold].
  destruct (broadcast_fold_spec data symbol_id now (get_all_client_fds cm) 0 cm k (fds_NoDup cm))
    as (Hth & Hcnt & _).
  destruct (broadcast_fold_totals data symbol_id now (get_all_client_fds cm) (0, cm, k))
    as [Htm Htb].
  cbn [fst snd] in Htm, Htb. rewrite Htm, Htb, Hth, Hcnt, Z.add_0_l.
  conjs; try reflexivity; [lia|].
  unfold client_count, get_all_client_fds. apply Nat2Z.inj_le.
  etransitivity; [apply length_filter|]. now rewrite length_fmap.
Qed.

(** The order in which [broadcast] visits the table is immaterial: the loop
    body run over any permutation of the descriptors gives the same count,
    the same entries and the same sockets. *)
Theorem broadcast_order_is_immaterial cm k data symbol_id now fds :
  fds ≡ₚ get_all_client_fds cm ->
  let r := fold_left (broadcast_one data symbol_id now) fds (0, cm, k) in
  let b := broadcast cm k data symbol_id now in
  r.1.1 = b.1.1 /\ clients r.1.2 = clients b.1.2 /\ r.2 = b.2.
Proof.
  intros Hperm r b. subst r b. rewrite broadcast_unfold. cbn zeta. cbn [fst snd clients].
  assert (Hnd : NoDup fds) by (rewrite Hperm; apply fds_NoDup).
  destruct (broadcast_fold_spec data symbol_id now fds 0 cm k Hnd) as (_ & Hcnt & Hfd).
  destruct (broadcast_fold_spec data symbol_id now (get_all_client_fds cm) 0 cm k (fds_NoDup cm))
    as (_ & Hcnt' & Hfd').
  conjs.
  - rewrite Hcnt, Hcnt'. now rewrite Hperm.
  - apply map_eq. intros fd. destruct (Hfd fd) as [Hout Hin], (Hfd' fd) as [Hout' Hin'].
    destruct (decide (fd ∈ fds)) as [Hmem|Hmem].
    + destruct (Hin Hmem) as [-> _]. destruct Hin' as [-> _]; [now rewrite <- Hperm|reflexivity].
    + destruct (Hout Hmem) as [-> _]. destruct Hout' as [-> _]; [now rewrite <- Hperm|reflexivity].
  - apply map_eq. intros fd. destruct (Hfd fd) as [Hout Hin], (Hfd' fd) as [Hout' Hin'].
    destruct (decide (fd ∈ fds)) as [Hmem|Hmem].
    + destruct (Hin Hmem) as [_ ->]. destruct Hin' as [_ ->]; [now rewrite <- Hperm|reflexivity].
    + destruct (Hout Hmem) as [_ ->]. destruct Hout' as [_ ->]; [now rewrite <- Hperm|reflexivity].
Qed.



Lemma same_statistics_refl c : same_statistics c c.
Proof. now repeat split. Qed.

Lemma statistics_kept_refl cm : statistics_kept cm cm.
Proof.
  repeat split. intros fd. destruct (clients cm !! fd); constructor.
  apply same_statistics_refl.
Qed.

Lemma statistics_kept_trans cm1 cm2 cm3 :
  statistics_kept cm1 cm2 -> statistics_kept cm2 cm3 -> statistics_kept cm1 cm3.
Proof.
  intros (Hm & Hb & H12) (Hm' & Hb' & H23). repeat split; try congruence.
  intros fd. specialize (H12 fd). specialize (H23 fd).
  destruct H12 as [c1 c2 Hs|]; inversion H23 as [c2' c3 Hs' Ha Hb0|]; subst; constructor.
  destruct Hs as (?&?&?&?&?&?), Hs' as (?&?&?&?&?&?). repeat split; congruence.
Qed.

Lemma send_to_client_statistics cm k fd data :
  statistics_kept cm (send_to_client cm k fd data).1.2.
Proof.
  destruct (send_to_client_totals cm k fd data) as [Hm Hb].
  split; [exact Hm|]. split; [exact Hb|]. intros fd'.
  destruct (Z.eq_dec fd fd') as [<-|Hne].
  2: { destruct (send_to_client_frame cm k fd data fd' Hne) as [-> _].
       destruct (clients cm !! fd'); constructor. apply same_statistics_refl. }
  unfold send_to_client, mark_slow_consumer, clear_slow_status.
  destruct (clients cm !! fd) as [c|] eqn:Hc; [|cbn [fst snd]; rewrite Hc; constructor].
  cbn [slow_threshold with_clients clients]. rewrite lookup_alter_eq, Hc.
  cbn [fmap option_fmap option_map set_pending_bytes is_slow].
  destruct (slow_threshold cm <? get_pending_bytes k fd);
    [|destruct (send k fd data) as [[n| |] k']];
    cbn [fst]; [|destruct (n <? size data);
                  [|destruct (is_slow c), (get_pending_bytes k fd <? slow_threshold cm / 2)]|..];
    cbn [andb fst snd clients with_clients];
    rewrite !lookup_alter_eq, Hc; cbn [fmap option_fmap option_map];
    constructor; now repeat split.
Qed.

Lemma heartbeat_fold_statistics hb fds : forall acc,
  statistics_kept acc.1 (fold_left (heartbeat_one hb) fds acc).1.
Proof.
  induction fds as [|a fds IH]; intros acc; [apply statistics_kept_refl|].
  cbn [fold_left]. eapply statistics_kept_trans; [|apply IH].
  rewrite heartbeat_one_spec. apply send_to_client_statistics.
Qed.

(** Heartbeats go around the statistics: [send_heartbeat] leaves the totals
    and every subscriber's [messages_sent], [bytes_sent] and
    [last_activity] as they were. *)
Theorem heartbeats_are_not_counted cm k heartbeat :
  let cm' := (send_heartbeat cm k heartbeat).1 in
  total_messages_sent cm' = total_messages_sent cm /\
  total_bytes_sent cm' = total_bytes_sent cm /\
  forall fd c, clients cm !! fd = Some c ->
    exists c', clients cm' !! fd = Some c' /\
      messages_sent c' = messages_sent c /\ bytes_sent c' = bytes_sent c /\
      last_activity c' = last_activity c.
Proof.
  destruct (heartbeat_fold_statistics heartbeat (get_all_client_fds cm) (cm, k))
    as (Hm & Hb & Hfd).
  cbn zeta. rewrite send_heartbeat_fold. conjs; [exact Hm|exact Hb|].
  intros fd c Hc. specialize (Hfd fd). cbn [fst] in Hfd. rewrite Hc in Hfd.
  inversion Hfd as [c0 c' (H1 & H2 & H3 & _) Ha Hb0|]; subst.
  exists c'. now conjs.
Qed.

End ClientTableFacts.

Module SubscriberExamples.
Import Protocol Kernel ClientManager ClientTable Socket ExchangeSimulator.
Import ClientManagerScenarios SubscriberScenarios.
Import SubscriptionFacts ClientTableFacts.

(** Subscriber 8 asking for symbols 42 and 7. *)
Lemma subscription_round_trip_witness :
  process_subscription subscribers sockets 8 (Queued (subscription_request [42; 7])) =
    (true, ((handle_subscription subscribers 8 [42; 7]).2, sockets)) /\
  forall c, clients subscribers !! 8 = Some c ->
    exists c',
      get_client (handle_subscription subscribers 8 [42; 7]).2 8 = Some c' /\
      (forall id, id ∈ subscribed_symbols c' <-> id ∈ [42; 7]) /\
      (subscribe_all c' = true <-> [42; 7] = []) /\
      is_slow c' = is_slow c /\ messages_sent c' = messages_sent c.
Proof.
  apply (subscription_round_trip subscribers sockets 8 [42; 7]).
  - repeat constructor; discriminate.
  - cbn [length]. lia.
Defined.

Lemma oversized_subscription_is_ignored_witness :
  process_subscription subscribers sockets 8 (Queued (subscription_request too_many))
  = (false, (subscribers, sockets)).
Proof.
  apply (oversized_subscription_is_ignored subscribers sockets 8 too_many).
  unfold too_many. rewrite length_replicate. lia.
Defined.

(** Descriptor 9 joining [subscribers] and leaving again. *)
Lemma client_table_round_trip_witness :
  has_client (add_client subscribers 9 [] 5002 0).2 9 = true /\
  client_count (add_client subscribers 9 [] 5002 0).2 = client_count subscribers + 1 /\
  (remove_client (add_client subscribers 9 [] 5002 0).2 sockets 9).1 = subscribers.
Proof.
  destruct (client_table_round_trip subscribers sockets 9 [] 5002 0)
    as (_ & Hhas & _ & _ & Hcount & _ & Hremove & _).
  - vm_compute. reflexivity.
  - split; [exact Hhas|]. split; [exact Hcount|exact Hremove].
Defined.

Lemma subscriber8_entry : clients subscribers !! 8 = Some subscriber8.
Proof. vm_compute. reflexivity. Qed.

(** Subscriber 8, subscribed to everything and not slow, in a broadcast of
    symbol 42. *)
Lemma broadcast_respects_subscriptions_witness :
  (broadcast subscribers sockets heartbeat 42 5).2 !! 8 =
    (send_to_client subscribers sockets 8 heartbeat).2 !! 8 /\
  clients (broadcast subscribers sockets heartbeat 42 5).1.2 !! 8 =
    if (send_to_client subscribers sockets 8 heartbeat).1.1
    then counted_send (size heartbeat) 5 <$>
           clients (send_to_client subscribers sockets 8 heartbeat).1.2 !! 8
    else clients (send_to_client subscribers sockets 8 heartbeat).1.2 !! 8.
Proof.
  destruct (broadcast_respects_subscriptions subscribers sockets heartbeat 42 5 8
              subscriber8 subscriber8_entry) as [_ Hsent].
  apply Hsent; [reflexivity|now left].
Defined.

(** The table of [subscribers] visited in reverse. *)
Lemma broadcast_order_is_immaterial_witness :
  (fold_left (broadcast_one heartbeat 42 5) (reverse (get_all_client_fds subscribers))
     (0, subscribers, sockets)).1.1 =
  (broadcast subscribers sockets heartbeat 42 5).1.1.
Proof.
  destruct (broadcast_order_is_immaterial subscribers sockets heartbeat 42 5
              (reverse (get_all_client_fds subscribers))) as (Hcount & _).
  - apply reverse_Permutation.
  - exact Hcount.
Defined.

End SubscriberExamples.

Module CacheReaderFacts.
Import Cache CacheFacts CacheReader.


Lemma reach_trans e1 e2 e3 : reach e1 e2 -> reach e2 e3 -> reach e1 e3.
Proof. induction 1; [trivial|]. intros H3. eapply reach_step; eauto. Qed.

Lemma reach_one e e' : entry_step e e' -> reach e e'.
Proof. intros H. eapply reach_step; [exact H|apply reach_refl]. Qed.

(** The counter never goes back, and while it rests on an even value the
    entry rests with it. *)
Lemma reach_stable e e' :
  reach e e' ->
  sequence e <= sequence e' /\
  (sequence e = sequence e' -> Z.even (sequence e) = true -> e' = e).
Proof.
  induction 1 as [e|e e1 e' Hstep _ [Hle Hsame]]; [split; [lia|trivial]|].
  assert (Hmono : sequence e <= sequence e1)
    by (destruct Hstep as [[? _]|[[? _]| ->]]; lia).
  split; [lia|]. intros Heq Heven.
  assert (He1 : e1 = e).
  { destruct Hstep as [[? _]|[[_ Hodd]|?]]; [lia| |assumption].
    rewrite <- Z.negb_even, Heven in Hodd. discriminate. }
  subst e1. now apply Hsame.
Qed.



Lemma linked_weaken id e e' views : reach e e' -> linked id e' views -> linked id e views.
Proof.
  destruct views as [|v rest]; [trivial|]. intros He [Hv Hrest].
  split; [eapply reach_trans; eauto|exact Hrest].
Qed.


Lemma entry_after_cons id e v views :
  entry_after id e (v :: views) = entry_after id (entry v id) views.
Proof.
  unfold entry_after. destruct views as [|w views]; [reflexivity|].
  rewrite last_cons_cons. destruct (last (w :: views)) eqn:Hlast; [reflexivity|].
  now apply last_None in Hlast.
Qed.

Lemma linked_app id l1 : forall e l2,
  linked id e l1 -> linked id (entry_after id e l1) l2 -> linked id e (l1 ++ l2).
Proof.
  induction l1 as [|v l1 IH]; intros e l2 H1 H2; [exact H2|].
  destruct H1 as [Hv H1]. cbn [app linked]. split; [exact Hv|].
  apply IH; [exact H1|]. now rewrite entry_after_cons in H2.
Qed.

Lemma linked_same id e views :
  Forall (fun v => entry v id = e) views -> linked id e views.
Proof.
  induction 1 as [|v views Hv _ IH]; [exact I|].
  cbn [linked]. rewrite Hv. split; [apply reach_refl|exact IH].
Qed.

Lemma linked_lookup id h : forall e (t : nat) v,
  linked id e h -> h !! t = Some v ->
  reach e (entry v id) /\ linked id (entry v id) (skipn t h).
Proof.
  induction h as [|w h IH]; intros e t v Hl Ht; [discriminate|].
  destruct Hl as [Hw Hl]. destruct t as [|t].
  - injection Ht as <-. split; [exact Hw|]. cbn [skipn linked].
    split; [apply reach_refl|exact Hl].
  - cbn [lookup list_lookup] in Ht. destruct (IH _ t v Hl Ht) as [Hv Hrest].
    split; [eapply reach_trans; eauto|exact Hrest].
Qed.

Lemma linked_sampled id views : forall e h,
  linked id e h -> sampled h views -> linked id e views.
Proof.
  induction views as [|v views IH]; intros e h Hl Hs; [exact I|].
  destruct Hs as (t & Ht & Hs). destruct (linked_lookup id h e t v Hl Ht) as [Hv Hrest].
  split; [exact Hv|]. eapply IH; eauto.
Qed.

Lemma sampled_elem views : forall h v, sampled h views -> v ∈ views -> v ∈ h.
Proof.
  induction views as [|w views IH]; intros h v Hs Hin; [now apply elem_of_nil in Hin|].
  destruct Hs as (t & Ht & Hs). apply elem_of_cons in Hin as [->|Hin].
  - eapply list_elem_of_lookup_2; eauto.
  - specialize (IH _ v Hs Hin). rewrite <- (take_drop t h). apply elem_of_app. now right.
Qed.

(** ** The reader *)

Lemma await_even_spec id views : forall e seq1 rest,
  linked id e views -> await_even id views = Some (seq1, rest) ->
  exists a,
    a ∈ views /\ seq1 = sequence (entry a id) /\ Z.even seq1 = true /\
    linked id (entry a id) rest /\ (forall v, v ∈ rest -> v ∈ views).
Proof.
  induction views as [|v views IH]; intros e seq1 rest Hl Ha; [discriminate|].
  destruct Hl as [Hv Hl]. cbn [await_even] in Ha.
  destruct (Z.odd (sequence (entry v id))) eqn:Hodd.
  - destruct (IH _ _ _ Hl Ha) as (a & Hin & Hs & He & Hr & Hsub).
    exists a. conjs; try assumption; [now right|]. intros w Hw. right. now apply Hsub.
  - injection Ha as <- <-. exists v. conjs; [now left|reflexivity| |exact Hl|].
    + now rewrite <- Z.negb_odd, Hodd.
    + intros w Hw. now right.
Qed.

Lemma state_eta (s : MarketState) :
  mkState (best_bid s) (best_ask s) (bid_quantity s) (ask_quantity s)
    (last_traded_price s) (last_traded_quantity s) (last_update_time s)
    (update_count s) (opening_price s) = s.
Proof. now destruct s. Qed.

(** One round of the loop: a snapshot it accepts is the state of the entry
    as the first load showed it. *)
Lemma read_once_spec id views e result rest :
  linked id e views -> read_once id views = Some (result, rest) ->
  (exists e', linked id e' rest) /\ (forall v, v ∈ rest -> v ∈ views) /\
  forall s, result = Some s ->
    exists a, a ∈ views /\ Z.even (sequence (entry a id)) = true /\
              s = state (entry a id).
Proof.
  intros Hl Hread. unfold read_once in Hread.
  destruct (await_even id views) as [[seq1 views1]|] eqn:Hawait; [|discriminate].
  destruct (await_even_spec id views e seq1 views1 Hl Hawait)
    as (a & Hin & Hseq & Heven & Hl1 & Hsub).
  cbn [mbind option_bind] in Hread.
  destruct views1 as [|v1 [|v2 [|v3 [|v4 [|v5 [|v6 [|v7 [|v8 [|v9 [|z rest']]]]]]]]]];
    try discriminate.
  cbn [copy_state mbind option_bind] in Hread. injection Hread as <- <-.
  cbn [linked] in Hl1.
  destruct Hl1 as (H1 & H2 & H3 & H4 & H5 & H6 & H7 & H8 & H9 & Hz & Hrest).
  conjs.
  - now exists (entry z id).
  - intros v Hv. apply Hsub. do 10 right. exact Hv.
  - intros s Hs. destruct (Z.eqb_spec seq1 (sequence (entry z id))) as [Hsame|]; [|discriminate].
    injection Hs as <-. exists a. conjs; [exact Hin|now rewrite <- Hseq|].
    assert (Hmid : forall v, reach (entry a id) (entry v id) -> reach (entry v id) (entry z id) ->
                             entry v id = entry a id).
    { intros v Hav Hvz.
      destruct (reach_stable _ _ Hav) as [Hle1 Hsame1].
      destruct (reach_stable _ _ Hvz) as [Hle2 _].
      apply Hsame1; [lia|now rewrite <- Hseq]. }
    assert (R1 := H1).
    assert (R2 := reach_trans _ _ _ R1 H2). assert (R3 := reach_trans _ _ _ R2 H3).
    assert (R4 := reach_trans _ _ _ R3 H4). assert (R5 := reach_trans _ _ _ R4 H5).
    assert (R6 := reach_trans _ _ _ R5 H6). assert (R7 := reach_trans _ _ _ R6 H7).
    assert (R8 := reach_trans _ _ _ R7 H8). assert (R9 := reach_trans _ _ _ R8 H9).
    assert (Z9 := Hz).
    assert (Z8 := reach_trans _ _ _ H9 Z9). assert (Z7 := reach_trans _ _ _ H8 Z8).
    assert (Z6 := reach_trans _ _ _ H7 Z7). assert (Z5 := reach_trans _ _ _ H6 Z6).
    assert (Z4 := reach_trans _ _ _ H5 Z5). assert (Z3 := reach_trans _ _ _ H4 Z4).
    assert (Z2 := reach_trans _ _ _ H3 Z3). assert (Z1 := reach_trans _ _ _ H2 Z2).
    rewrite (Hmid v1 R1 Z1), (Hmid v2 R2 Z2), (Hmid v3 R3 Z3), (Hmid v4 R4 Z4),
      (Hmid v5 R5 Z5), (Hmid v6 R6 Z6), (Hmid v7 R7 Z7), (Hmid v8 R8 Z8), (Hmid v9 R9 Z9).
    apply state_eta.
Qed.

Lemma read_loop_spec id fuel : forall views e s,
  linked id e views -> read_loop fuel id views = Some s ->
  exists a, a ∈ views /\ Z.even (sequence (entry a id)) = true /\ s = state (entry a id).
Proof.
  induction fuel as [|fuel IH]; intros views e s Hl Hloop; [discriminate|].
  cbn [read_loop] in Hloop.
  destruct (read_once id views) as [[result rest]|] eqn:Hread; [|discriminate].
  destruct (read_once_spec id views e result rest Hl Hread) as ((e' & Hl') & Hsub & Hres).
  cbn [mbind option_bind] in Hloop. destruct result as [s'|].
  - injection Hloop as <-. now apply Hres.
  - destruct (IH rest e' s Hl' Hloop) as (a & Hin & Ha). exists a. split; [auto|exact Ha].
Qed.


(** ** The writer's steps *)

Lemma quiescent_sequence_range c j :
  quiescent c -> 0 <= j -> 0 <= sequence (entry c j) < 2 ^ 64.
Proof.
  induction 1 as [n|c id u Hq IH Hid]; intros Hj.
  - rewrite entry_new_cache. cbn. lia.
  - destruct (quiescent_even c Hq) as [Hok _]. rewrite apply_update_write.
    destruct (Z.le_gt_cases (num_symbols c) id) as [Hout|Hin].
    { rewrite write_out_of_range by exact Hout. now apply IH. }
    destruct (Z.eq_dec id j) as [<-|Hne].
    + rewrite entry_write by (exact Hok || lia). cbn [sequence]. unfold wrap64.
      apply Z.mod_pos_bound. lia.
    + rewrite entry_write_ne by lia. now apply IH.
Qed.

Lemma apply_update_num c id u : num_symbols (apply_update c id u) = num_symbols c.
Proof.
  rewrite apply_update_write. unfold write, end_write, begin_write.
  destruct (Z.leb_spec (num_symbols c) id); [reflexivity|].
  rewrite run_stores_num, with_entry_num.
  destruct (Z.leb_spec (num_symbols c) id); [lia|].
  now rewrite with_entry_num, run_stores_num, with_entry_num.
Qed.

Lemma store_length f id c : length (entries (store f id c)) = length (entries c).
Proof. apply with_entry_length. Qed.

(** While the counter is odd the assignments move the state only. *)
Lemma during_linked id stores : forall c,
  0 <= id < Z.of_nat (length (entries c)) -> Z.odd (sequence (entry c id)) = true ->
  linked id (entry c id) (during id stores c) /\
  Forall (fun v => Z.odd (sequence (entry v id)) = true) (during id stores c).
Proof.
  induction stores as [|f stores IH]; intros c Hid Hodd; cbn [during linked].
  - conjs; [apply reach_refl|exact I|]. now repeat constructor.
  - assert (Hentry : entry (store f id c) id =
                     mkEntry (sequence (entry c id)) (f (state (entry c id))))
      by (unfold store; now rewrite entry_with_entry).
    destruct (IH (store f id c)) as [Hl Hall].
    { now rewrite store_length. }
    { now rewrite Hentry. }
    conjs; [apply reach_refl| |constructor; assumption].
    eapply linked_weaken; [|exact Hl]. apply reach_one. right. left.
    rewrite Hentry. now split.
Qed.

Lemma during_other id id' stores : forall c,
  0 <= id -> 0 <= id' -> id' <> id ->
  Forall (fun v => entry v id = entry c id) (during id' stores c).
Proof.
  induction stores as [|f stores IH]; intros c Hid Hid' Hne; cbn [during].
  - now repeat constructor.
  - constructor; [reflexivity|].
    assert (Hsame : entry (store f id' c) id = entry c id)
      by (unfold store; now apply entry_with_entry_ne).
    rewrite <- Hsame. now apply IH.
Qed.

Lemma entry_after_app id e l v : entry_after id e (l ++ [v]) = entry v id.
Proof. unfold entry_after. now rewrite last_snoc. Qed.

(** One writer call, seen from the entry of [id]. *)
Lemma steps_of_linked c id id' u :
  quiescent c -> 0 <= id' -> 0 <= id < num_symbols c ->
  sequence (entry c id) + 2 < 2 ^ 64 ->
  let c' := apply_update c id' u in
  linked id (entry c id) (steps_of c id' u) /\
  entry_after id (entry c id) (steps_of c id' u) = entry c' id /\
  sequence (entry c' id) <= sequence (entry c id) + 2 /\
  Forall (fun v => Z.even (sequence (entry v id)) = true ->
                   entry v id = entry c id \/ entry v id = entry c' id)
    (steps_of c id' u).
Proof.
  intros Hq Hid' Hid Hbound c'. subst c'.
  destruct (quiescent_even c Hq) as [Hok Heven]. specialize (Heven id).
  pose proof (quiescent_sequence_range c id Hq ltac:(lia)) as Hrange.
  unfold cache_ok in Hok. unfold steps_of. rewrite apply_update_write.
  destruct (Z.leb_spec (num_symbols c) id') as [Hout|Hin].
  { rewrite write_out_of_range by exact Hout. cbn. conjs; [exact I|reflexivity|lia|constructor]. }
  rewrite entry_after_app.
  destruct (Z.eq_dec id' id) as [->|Hne].
  - set (b := begin_write c id).
    assert (Hb : entry b id = mkEntry (sequence (entry c id) + 1) (state (entry c id))).
    { subst b. unfold begin_write. destruct (Z.leb_spec (num_symbols c) id); [lia|].
      rewrite entry_with_entry by lia. unfold bump_sequence, wrap64.
      now rewrite Z.mod_small by lia. }
    assert (Hlen : length (entries b) = length (entries c)).
    { subst b. unfold begin_write. destruct (Z.leb_spec (num_symbols c) id); [lia|].
      apply with_entry_length. }
    assert (Hodd : Z.odd (sequence (entry b id)) = true).
    { rewrite Hb. cbn [sequence]. rewrite Z.odd_add, <- Z.negb_even, Heven. reflexivity. }
    destruct (during_linked id (stores_of u) b) as [Hl Hodds]; [lia|exact Hodd|].
    assert (Hfin : entry (write id (stores_of u) c) id =
                   mkEntry (sequence (entry c id) + 2)
                     (assign (stores_of u) (state (entry c id)))).
    { rewrite entry_write by (exact Hok || lia). unfold wrap64.
      rewrite !Z.mod_small by (rewrite ?Z.mod_small by lia; lia). f_equal. lia. }
    assert (Hlast : entry_after id (entry b id) (during id (stores_of u) b) =
                    mkEntry (sequence (entry c id) + 1)
                      (assign (stores_of u) (state (entry c id)))).
    { unfold entry_after. rewrite last_during, entry_run_stores by lia. now rewrite Hb. }
    conjs.
    + apply (linked_weaken id (entry c id) (entry b id));
        [apply reach_one; left; rewrite Hb; now split|].
      apply linked_app; [exact Hl|]. cbn [linked]. split; [|exact I].
      apply reach_one. left. rewrite Hlast, Hfin. cbn [sequence state].
      split; [lia|reflexivity].
    + reflexivity.
    + rewrite Hfin. cbn [sequence]. lia.
    + apply Forall_app. split.
      * eapply Forall_impl; [exact Hodds|]. intros v Hv Hev. cbv beta in Hv.
        rewrite <- Z.negb_even, Hev in Hv. discriminate.
      * constructor; [intros _; now right|constructor].
  - assert (Hsame : Forall (fun v => entry v id = entry c id)
                      (during id' (stores_of u) (begin_write c id') ++ [write id' (stores_of u) c])).
    { apply Forall_app. split.
      - assert (Hb : entry (begin_write c id') id = entry c id).
        { unfold begin_write. destruct (Z.leb_spec (num_symbols c) id'); [reflexivity|].
          apply entry_with_entry_ne; lia. }
        rewrite <- Hb. apply during_other; lia.
      - repeat constructor. apply entry_write_ne; lia. }
    rewrite entry_write_ne by lia.
    conjs; [now apply linked_same|reflexivity|lia|].
    eapply Forall_impl; [exact Hsame|]. intros v Hv _. now left.
Qed.


Lemma committed_cons c id u rest n :
  committed c ((id, u) :: rest) (S n) = committed (apply_update c id u) rest n.
Proof. reflexivity. Qed.

(** A run of writer calls, seen from the entry of [id]. *)
Lemma steps_all_spec id calls : forall c,
  quiescent c -> Forall (fun call => 0 <= call.1 < 2 ^ 16) calls ->
  0 <= id < num_symbols c ->
  sequence (entry c id) + 2 * Z.of_nat (length calls) < 2 ^ 64 ->
  linked id (entry c id) (steps_all c calls) /\
  Forall (fun v => Z.even (sequence (entry v id)) = true ->
                   exists n, (n <= length calls)%nat /\
                             entry v id = entry (committed c calls n) id)
    (steps_all c calls).
Proof.
  induction calls as [|[id' u] rest IH]; intros c Hq Hcalls Hid Hbound; cbn [steps_all].
  { split; [exact I|constructor]. }
  apply Forall_cons_1 in Hcalls as [Hid' Hcalls]. cbn [fst] in Hid'. cbn [length] in Hbound.
  destruct (steps_of_linked c id id' u Hq ltac:(lia) Hid ltac:(lia))
    as (Hl & Hafter & Hseq & Heven).
  destruct (IH (apply_update c id' u)) as [Hl' Heven'].
  { now constructor. }
  { exact Hcalls. }
  { now rewrite apply_update_num. }
  { lia. }
  split.
  - apply linked_app; [exact Hl|]. now rewrite Hafter.
  - apply Forall_app. split.
    + eapply Forall_impl; [exact Heven|]. intros v Hv Hev.
      destruct (Hv Hev) as [Hsame|Hsame].
      * exists 0%nat. split; [lia|exact Hsame].
      * exists 1%nat. split; [cbn [length]; lia|]. rewrite Hsame. reflexivity.
    + eapply Forall_impl; [exact Heven'|]. intros v Hv Hev.
      destruct (Hv Hev) as (n & Hn & Hsame).
      exists (S n). split; [cbn [length]; lia|]. now rewrite committed_cons.
Qed.

(** The seqlock reader never returns a torn state.  While one writer runs
    any sequence of update calls and the reader's loads fall anywhere
    between the writer's stores, a snapshot [get_snapshot] returns is the
    state of the symbol as some prefix of the calls left it.  The calls
    are taken not to wrap the symbol's 64-bit counter. *)
Theorem snapshot_is_consistent c calls views id s :
  quiescent c -> Forall (fun call => 0 <= call.1 < 2 ^ 16) calls ->
  0 <= id < num_symbols c ->
  sequence (entry c id) + 2 * Z.of_nat (length calls) < 2 ^ 64 ->
  sampled (history c calls) views ->
  get_snapshot (num_symbols c) id views = Some s ->
  exists n, (n <= length calls)%nat /\ s = state (entry (committed c calls n) id).
Proof.
  intros Hq Hcalls Hid Hbound Hviews Hget.
  destruct (steps_all_spec id calls c Hq Hcalls Hid Hbound) as [Hl Heven].
  unfold get_snapshot in Hget.
  destruct (Z.leb_spec (num_symbols c) id) as [|_]; [lia|].
  assert (Hh : linked id (entry c id) (history c calls))
    by (split; [apply reach_refl|exact Hl]).
  pose proof (linked_sampled id views _ _ Hh Hviews) as Hlv.
  destruct (read_loop_spec id _ views _ s Hlv Hget) as (a & Hin & Ha & ->).
  apply (sampled_elem views _ a Hviews) in Hin. unfold history in Hin.
  apply elem_of_cons in Hin as [->|Hin].
  - exists 0%nat. split; [lia|reflexivity].
  - rewrite Forall_forall in Heven. destruct (Heven a Hin Ha) as (n & Hn & Hsame).
    exists n. split; [exact Hn|now rewrite Hsame].
Qed.


(** With no writer running the reader returns at once. *)
Lemma snapshot_of_even c id :
  id < num_symbols c -> Z.even (sequence (entry c id)) = true ->
  snapshot_of c id = Some (state (entry c id)).
Proof.
  intros Hid Heven. unfold snapshot_of, get_snapshot.
  destruct (Z.leb_spec (num_symbols c) id) as [|_]; [lia|].
  change (replicate 11 c) with (c :: replicate 10 c).
  cbn [length read_loop]. unfold read_once. cbn [await_even].
  rewrite <- Z.negb_even, Heven. cbn [negb mbind option_bind].
  change (replicate 10 c) with [c; c; c; c; c; c; c; c; c; c].
  cbn [copy_state mbind option_bind]. rewrite Z.eqb_refl. cbn [mbind option_bind].
  now rewrite state_eta.
Qed.

Lemma snapshot_of_outside c id : num_symbols c <= id -> snapshot_of c id = Some empty_state.
Proof.
  intros Hid. unfold snapshot_of, get_snapshot.
  destruct (Z.leb_spec (num_symbols c) id); [reflexivity|lia].
Qed.

(** What a writer stored is what the reader copies.  After [update_quote]
    the snapshot of the symbol has the bid, the ask, their quantities and
    the time of the call, and the last trade as before; after
    [update_trade] it has the trade, and the quote as before.  Snapshots
    of other symbols do not change, and for a symbol outside the cache the
    writers do nothing and the snapshot is the empty state. *)
Theorem snapshot_round_trip c id :
  quiescent c -> 0 <= id < num_symbols c ->
  let old := state (entry c id) in
  (forall bid_price bid_qty ask_price ask_qty timestamp,
     exists s,
       snapshot_of (update_quote c id bid_price bid_qty ask_price ask_qty timestamp) id
         = Some s /\
       best_bid s = bid_price /\ bid_quantity s = bid_qty /\
       best_ask s = ask_price /\ ask_quantity s = ask_qty /\
       last_update_time s = timestamp /\
       last_traded_price s = last_traded_price old /\
       last_traded_quantity s = last_traded_quantity old) /\
  (forall price quantity timestamp,
     exists s,
       snapshot_of (update_trade c id price quantity timestamp) id = Some s /\
       last_traded_price s = price /\ last_traded_quantity s = quantity /\
       last_update_time s = timestamp /\
       best_bid s = best_bid old /\ bid_quantity s = bid_quantity old /\
       best_ask s = best_ask old /\ ask_quantity s = ask_quantity old) /\
  (forall u j, 0 <= j < num_symbols c -> j <> id ->
     snapshot_of (apply_update c id u) j = snapshot_of c j) /\
  (forall u j, num_symbols c <= j < 2 ^ 16 ->
     apply_update c j u = c /\ snapshot_of c j = Some empty_state).
Proof.
  intros Hq Hid old.
  destruct (quiescent_even c Hq) as [Hok Heven].
  assert (Hsnap : forall u, snapshot_of (apply_update c id u) id =
                            Some (assign (stores_of u) old)).
  { intros u.
    assert (Hentry : entry (apply_update c id u) id =
                     mkEntry (wrap64 (wrap64 (sequence (entry c id) + 1) + 1))
                       (assign (stores_of u) old))
      by (rewrite apply_update_write; apply entry_write; [exact Hok|lia]).
    rewrite snapshot_of_even; rewrite ?Hentry; [reflexivity|now rewrite apply_update_num|].
    cbn [sequence]. now rewrite !even_wrap64, Z.even_add, even_wrap64, Z.even_add, Heven. }
  conjs.
  - intros bp bq ap aq ts. eexists. split; [apply (Hsnap (Quote bp bq ap aq ts))|].
    unfold assign. cbn [stores_of quote_stores fold_left]. unfold open_at.
    cbn -[PrimFloat.eqb PrimFloat.div PrimFloat.add wrap64].
    destruct (PrimFloat.eqb (opening_price old) PrimFloat.zero); now conjs.
  - intros p q ts. eexists. split; [apply (Hsnap (Trade p q ts))|].
    unfold assign. cbn [stores_of trade_stores fold_left]. unfold open_at.
    cbn -[PrimFloat.eqb wrap64].
    destruct (PrimFloat.eqb (opening_price old) PrimFloat.zero); now conjs.
  - intros u j Hj Hne.
    assert (Hsame : entry (apply_update c id u) j = entry c j)
      by (rewrite apply_update_write; apply entry_write_ne; lia).
    rewrite !snapshot_of_even; rewrite ?Hsame, ?apply_update_num; try reflexivity;
      try lia; apply Heven.
  - intros u j Hj. split; [|apply snapshot_of_outside; lia].
    rewrite apply_update_write. apply write_out_of_range. lia.
Qed.

(** ** [get_total_updates] *)


Lemma tally_shift f ids : forall t,
  tally f ids (wrap64 (t + 1)) = wrap64 (tally f ids t + 1).
Proof.
  induction ids as [|i ids IH]; intros t; [reflexivity|].
  unfold tally in *. cbn [foldl].
  replace (wrap64 (wrap64 (t + 1) + f i)) with (wrap64 (wrap64 (t + f i) + 1)); [apply IH|].
  unfold wrap64. change (2 ^ 64) with 18446744073709551616.
  Z.div_mod_to_equations. lia.
Qed.

Lemma tally_ext f g ids : forall t,
  (forall i, i ∈ ids -> f i = g i) -> tally f ids t = tally g ids t.
Proof.
  induction ids as [|i ids IH]; intros t Hfg; [reflexivity|].
  unfold tally in *. cbn [foldl]. rewrite (Hfg i) by now left.
  apply IH. intros j Hj. apply Hfg. now right.
Qed.

Lemma tally_bump f g id ids : forall t,
  NoDup ids -> id ∈ ids ->
  (forall i, i ∈ ids -> i <> id -> g i = f i) -> g id = wrap64 (f id + 1) ->
  tally g ids t = wrap64 (tally f ids t + 1).
Proof.
  induction ids as [|i ids IH]; intros t Hnd Hin Hother Hid;
    [now apply elem_of_nil in Hin|].
  apply NoDup_cons in Hnd as [Hi Hnd].
  unfold tally in *. cbn [foldl].
  destruct (Z.eq_dec i id) as [->|Hne].
  - rewrite Hid.
    replace (wrap64 (t + wrap64 (f id + 1))) with (wrap64 (wrap64 (t + f id) + 1))
      by (unfold wrap64; change (2 ^ 64) with 18446744073709551616;
          Z.div_mod_to_equations; lia).
    fold (tally g ids (wrap64 (wrap64 (t + f id) + 1))).
    rewrite (tally_ext g f)
      by (intros j Hj; apply Hother; [now right|intros ->; contradiction]).
    apply tally_shift.
  - apply elem_of_cons in Hin as [->|Hin]; [contradiction|].
    rewrite (Hother i) by (left || exact Hne).
    apply IH; try assumption. intros j Hj. apply Hother. now right.
Qed.

Lemma get_total_updates_tally c :
  quiescent c ->
  get_total_updates c =
  Some (tally (fun i => update_count (state (entry c i))) (seqZ 0 (num_symbols c)) 0).
Proof.
  intros Hq. destruct (quiescent_even c Hq) as [_ Heven].
  unfold get_total_updates, tally.
  assert (Hin : forall i, i ∈ seqZ 0 (num_symbols c) -> i < num_symbols c)
    by (intros i Hi; apply elem_of_seqZ in Hi; lia).
  revert Hin. generalize (seqZ 0 (num_symbols c)) as ids. generalize 0 as t.
  intros t ids. revert t. induction ids as [|i ids IH]; intros t Hin; [reflexivity|].
  cbn [foldl mbind option_bind].
  rewrite snapshot_of_even by (try apply Heven; apply Hin; now left).
  cbn [mbind option_bind]. apply IH. intros j Hj. apply Hin. now right.
Qed.

Lemma update_count_assign u s :
  update_count (assign (stores_of u) s) = wrap64 (update_count s + 1).
Proof.
  unfold assign. destruct u; cbn [stores_of quote_stores trade_stores bid_stores ask_stores fold_left];
    unfold open_at; cbn -[PrimFloat.eqb PrimFloat.div PrimFloat.add wrap64];
    try reflexivity;
    match goal with |- context [PrimFloat.eqb ?a ?b] => destruct (PrimFloat.eqb a b) end;
    reflexivity.
Qed.

(** [get_total_updates] counts the writer calls: one call, of any of the
    four writers, on a symbol of the cache takes the total up by one
    (modulo 2^64); a call on a symbol outside the cache leaves it. *)
Theorem total_updates_counts_calls c id u :
  quiescent c -> 0 <= id < 2 ^ 16 ->
  exists total,
    get_total_updates c = Some total /\
    get_total_updates (apply_update c id u) =
      Some (if id <? num_symbols c then wrap64 (total + 1) else total).
Proof.
  intros Hq Hid. destruct (quiescent_even c Hq) as [Hok _].
  eexists. split; [now apply get_total_updates_tally|].
  rewrite get_total_updates_tally by now constructor.
  rewrite apply_update_num. f_equal.
  destruct (Z.ltb_spec id (num_symbols c)) as [Hin|Hout].
  - apply (tally_bump _ _ id).
    + apply NoDup_seqZ.
    + apply elem_of_seqZ. lia.
    + intros i Hi Hne. apply elem_of_seqZ in Hi. rewrite apply_update_write.
      rewrite entry_write_ne; [reflexivity|lia..].
    + rewrite apply_update_write, entry_write by (exact Hok || lia). cbn [state].
      apply update_count_assign.
  - rewrite apply_update_write, write_out_of_range by lia. reflexivity.
Qed.

End CacheReaderFacts.

Module CacheReaderExamples.
Import Cache CacheFacts CacheReader CacheScenarios CacheReaderScenarios.
Import CacheExamples CacheReaderFacts.

Lemma torn_views_sampled : sampled (history quoted trade_call) torn_views.
Proof.
  unfold torn_views. cbn [replicate app].
  exists 0%nat. split; [reflexivity|].
  exists 1%nat. split; [vm_compute; reflexivity|].
  do 8 (exists 0%nat; split; [vm_compute; reflexivity|]).
  exists 6%nat. split; [vm_compute; reflexivity|].
  do 11 (exists 0%nat; split; [vm_compute; reflexivity|]).
  exact I.
Qed.

(** The reader overtaken by a trade returns the state after the trade. *)
Lemma snapshot_is_consistent_witness :
  get_snapshot (num_symbols quoted) 0 torn_views = Some (state (entry traded 0)) /\
  exists n, (n <= length trade_call)%nat /\
    state (entry traded 0) = state (entry (committed quoted trade_call n) 0).
Proof.
  assert (Hget : get_snapshot (num_symbols quoted) 0 torn_views
                 = Some (state (entry traded 0))) by (vm_compute; reflexivity).
  split; [exact Hget|].
  apply (snapshot_is_consistent quoted trade_call torn_views 0 (state (entry traded 0))).
  - exact quoted_quiescent.
  - repeat constructor; cbn; (discriminate || reflexivity).
  - vm_compute. split; [discriminate|reflexivity].
  - vm_compute. reflexivity.
  - exact torn_views_sampled.
  - exact Hget.
Defined.

(** The trade read back beside the quote. *)
Lemma snapshot_round_trip_witness :
  exists s,
    snapshot_of (update_trade quoted 0 100.25%float 500 1234567891) 0 = Some s /\
    last_traded_price s = 100.25%float /\ last_traded_quantity s = 500 /\
    last_update_time s = 1234567891 /\
    best_bid s = best_bid (state (entry quoted 0)) /\
    bid_quantity s = bid_quantity (state (entry quoted 0)) /\
    best_ask s = best_ask (state (entry quoted 0)) /\
    ask_quantity s = ask_quantity (state (entry quoted 0)).
Proof.
  destruct (snapshot_round_trip quoted 0 quoted_quiescent) as (_ & Htrade & _).
  - vm_compute. split; [discriminate|reflexivity].
  - exact (Htrade 100.25%float 500 1234567891).
Defined.

(** The trade counted. *)
Lemma total_updates_counts_calls_witness :
  exists total,
    get_total_updates quoted = Some total /\
    get_total_updates (apply_update quoted 0 (Trade 100.25%float 500 1234567891)) =
      Some (if 0 <? num_symbols quoted then wrap64 (total + 1) else total).
Proof.
  apply (total_updates_counts_calls quoted 0 (Trade 100.25%float 500 1234567891)).
  - exact quoted_quiescent.
  - split; [discriminate|reflexivity].
Defined.

End CacheReaderExamples.

Module LatencyRunFacts.
Import Protocol Latency LatencyRuns.


Lemma wrap64_succ n : wrap64 (wrap64 n + 1) = wrap64 (n + 1).
Proof. unfold wrap64. change (2 ^ 64) with 18446744073709551616. Z.div_mod_to_equations. lia. Qed.

Lemma wrap64_add n m : wrap64 (wrap64 n + m) = wrap64 (n + m).
Proof. unfold wrap64. change (2 ^ 64) with 18446744073709551616. Z.div_mod_to_equations. lia. Qed.

Lemma how_many_snoc (P : Z -> Prop) `{forall x, Decision (P x)} samples x :
  how_many P (samples ++ [x]) = how_many P samples + (if decide (P x) then 1 else 0).
Proof.
  unfold how_many. rewrite filter_app, length_app, filter_cons, filter_nil.
  destruct (decide (P x)); cbn [length]; lia.
Qed.

Lemma tracks_new : tracks new_tracker [].
Proof.
  unfold tracks, new_tracker, reset. cbn [sample_count_ sum_ min_ max_ histogram overflow_count].
  conjs; try reflexivity; try apply length_replicate.
  intros i Hi. now apply lookup_replicate_2.
Qed.

Lemma tracks_record t samples x :
  tracks t samples -> fits 64 x -> tracks (record t x) (samples ++ [x]).
Proof.
  intros (Hn & Hsum & Hmin & Hmax & Hlen & Hhist & Hover) Hx.
  unfold tracks, record. cbn [sample_count_ sum_ min_ max_ histogram overflow_count].
  conjs.
  - rewrite Hn, length_app, wrap64_succ. cbn [length]. f_equal. lia.
  - rewrite Hsum. unfold total. rewrite fold_left_app. cbn [fold_left]. apply wrap64_add.
  - rewrite Hmin. unfold lowest. rewrite fold_left_app. cbn [fold_left].
    destruct (Z.ltb_spec x (fold_left Z.min samples UINT64_MAX)); lia.
  - rewrite Hmax. unfold highest. rewrite fold_left_app. cbn [fold_left].
    destruct (Z.ltb_spec (fold_left Z.max samples 0) x); lia.
  - destruct (x <? MAX_TRACKED_NS); [rewrite length_alter|]; exact Hlen.
  - intros i Hi. rewrite how_many_snoc.
    destruct (decide (bucket_of x = Some i)) as [Hd|Hd]; unfold bucket_of in Hd;
      destruct (Z.ltb_spec x MAX_TRACKED_NS) as [Hlt|Hge]; try discriminate.
    + injection Hd as <-. rewrite list_lookup_alter_eq, Hhist by exact Hi.
      cbn [fmap option_fmap option_map]. now rewrite wrap64_succ.
    + rewrite list_lookup_alter_ne by congruence. rewrite Hhist by exact Hi.
      now rewrite Z.add_0_r.
    + rewrite Hhist by exact Hi. now rewrite Z.add_0_r.
  - rewrite how_many_snoc.
    destruct (decide (bucket_of x = None)) as [Hd|Hd]; unfold bucket_of in Hd;
      destruct (Z.ltb_spec x MAX_TRACKED_NS) as [Hlt|Hge]; try discriminate;
      try congruence.
    + rewrite Hover. apply wrap64_succ.
    + now rewrite Z.add_0_r.
Qed.

Lemma tracks_recorded samples : Forall (fits 64) samples -> tracks (recorded samples) samples.
Proof.
  unfold recorded. intros Hfits.
  enough (H : forall t before, tracks t before ->
                tracks (fold_left record samples t) (before ++ samples))
    by (apply (H new_tracker []), tracks_new).
  induction Hfits as [|x samples Hx _ IH]; intros t before Ht.
  - now rewrite app_nil_r.
  - cbn [fold_left]. rewrite (cons_middle x before samples), app_assoc.
    apply IH. now apply tracks_record.
Qed.


Lemma fold_min_spec l : forall a,
  fold_left Z.min l a <= a /\ (forall x, x ∈ l -> fold_left Z.min l a <= x) /\
  (fold_left Z.min l a = a \/ fold_left Z.min l a ∈ l).
Proof.
  induction l as [|y l IH]; intros a; cbn [fold_left].
  - conjs; [lia| |now left]. intros x Hx. now apply elem_of_nil in Hx.
  - destruct (IH (Z.min a y)) as (Hle & Hall & Hin). conjs; [lia| |].
    + intros x Hx. apply elem_of_cons in Hx as [->|Hx]; [lia|now apply Hall].
    + destruct Hin as [Heq|Hin]; [|right; now right].
      destruct (Z.min_spec a y) as [[_ Hm]|[_ Hm]]; rewrite Hm in *;
        [now left|right; rewrite Heq; left].
Qed.

Lemma fold_max_spec l : forall a,
  a <= fold_left Z.max l a /\ (forall x, x ∈ l -> x <= fold_left Z.max l a) /\
  (fold_left Z.max l a = a \/ fold_left Z.max l a ∈ l).
Proof.
  induction l as [|y l IH]; intros a; cbn [fold_left].
  - conjs; [lia| |now left]. intros x Hx. now apply elem_of_nil in Hx.
  - destruct (IH (Z.max a y)) as (Hle & Hall & Hin). conjs; [lia| |].
    + intros x Hx. apply elem_of_cons in Hx as [->|Hx]; [lia|now apply Hall].
    + destruct Hin as [Heq|Hin]; [|right; now right].
      destruct (Z.max_spec a y) as [[_ Hm]|[_ Hm]]; rewrite Hm in *;
        [right; rewrite Heq; left|now left].
Qed.

Lemma fold_add_bounds lo hi l : forall a,
  (forall x, x ∈ l -> lo <= x <= hi) ->
  a + lo * Z.of_nat (length l) <= fold_left Z.add l a <= a + hi * Z.of_nat (length l).
Proof.
  induction l as [|y l IH]; intros a Hall; cbn [fold_left length]; [lia|].
  assert (Hrest : forall x, x ∈ l -> lo <= x <= hi) by (intros x Hx; apply Hall; now right).
  specialize (IH (a + y) Hrest).
  assert (Hy : lo <= y <= hi) by (apply Hall; left). lia.
Qed.

(** What [lowest] and [highest] are for samples that were recorded. *)
Lemma extremes samples :
  samples <> [] -> Forall (fits 64) samples ->
  lowest samples ∈ samples /\ highest samples ∈ samples /\
  forall x, x ∈ samples -> lowest samples <= x <= highest samples.
Proof.
  intros Hne Hfits. unfold lowest, highest.
  destruct (fold_min_spec samples UINT64_MAX) as (_ & Hmin & Hmin_in).
  destruct (fold_max_spec samples 0) as (_ & Hmax & Hmax_in).
  rewrite Forall_forall in Hfits.
  destruct samples as [|y rest]; [contradiction|].
  assert (Hy : fits 64 y) by (apply Hfits; left).
  assert (Hly := Hmin y ltac:(left)).
  assert (Hhy := Hmax y ltac:(left)).
  unfold fits, UINT64_MAX in *.
  conjs.
  - destruct Hmin_in as [Heq|Hin]; [|exact Hin].
    assert (y = fold_left Z.min (y :: rest) (2 ^ 64 - 1)) as Hy' by lia.
    rewrite <- Hy'. left.
  - destruct Hmax_in as [Heq|Hin]; [|exact Hin].
    assert (y = fold_left Z.max (y :: rest) 0) as Hy' by lia.
    rewrite <- Hy'. left.
  - intros x Hx. split; [now apply Hmin|now apply Hmax].
Qed.

(** The histogram partitions the samples.  After any run of [record], the
    sample count is the number of calls, bucket [i] counts the samples
    below [MAX_TRACKED_NS] with [latency / BUCKET_WIDTH_NS = i], and the
    overflow counter counts the samples at or above [MAX_TRACKED_NS] (all
    modulo 2^64): every sample is counted exactly once. *)
Theorem histogram_partitions_samples samples :
  Forall (fits 64) samples ->
  let t := recorded samples in
  sample_count_ t = wrap64 (Z.of_nat (length samples)) /\
  length (histogram t) = Z.to_nat NUM_BUCKETS /\
  (forall i : nat, (i < Z.to_nat NUM_BUCKETS)%nat ->
     histogram t !! i =
     Some (wrap64 (how_many (fun x => x < MAX_TRACKED_NS /\
                                      Z.to_nat (x / BUCKET_WIDTH_NS) = i) samples))) /\
  overflow_count t = wrap64 (how_many (fun x => MAX_TRACKED_NS <= x) samples).
Proof.
  intros Hfits t. subst t.
  destruct (tracks_recorded samples Hfits) as (Hn & _ & _ & _ & Hlen & Hhist & Hover).
  conjs; [exact Hn|exact Hlen| |].
  - intros i Hi. rewrite (Hhist i Hi). do 2 f_equal. unfold how_many. do 2 f_equal.
    apply list_filter_iff. intros x. unfold bucket_of.
    destruct (Z.ltb_spec x MAX_TRACKED_NS); split; try intros [= <-]; try (intros [? <-]);
      try tauto; try lia; try discriminate.
  - rewrite Hover. do 2 f_equal. unfold how_many. do 2 f_equal.
    apply list_filter_iff. intros x. unfold bucket_of.
    destruct (Z.ltb_spec x MAX_TRACKED_NS); split; try discriminate; try lia; try reflexivity.
Qed.

(** [get_stats] after at least one sample, while the count and the sum fit
    64 bits: the count is the number of samples, the minimum and the
    maximum are samples and bound every sample, the mean is the sum
    divided by the count with the remainder dropped, and it lies between
    the minimum and the maximum. *)
Theorem get_stats_orders samples :
  samples <> [] -> Forall (fits 64) samples ->
  Z.of_nat (length samples) < 2 ^ 64 -> total samples < 2 ^ 64 ->
  let stats := get_stats (recorded samples) in
  sample_count stats = Z.of_nat (length samples) /\
  min stats ∈ samples /\ max stats ∈ samples /\
  (forall x, x ∈ samples -> min stats <= x <= max stats) /\
  mean stats = total samples / Z.of_nat (length samples) /\
  min stats <= mean stats <= max stats.
Proof.
  intros Hne Hfits Hlen Hsum stats.
  destruct (tracks_recorded samples Hfits) as (Hn & Hs & Hmin & Hmax & _).
  destruct (extremes samples Hne Hfits) as (Hlo & Hhi & Hall).
  assert (Hpos : 0 < Z.of_nat (length samples)) by (destruct samples; [contradiction|cbn; lia]).
  assert (Hcount : sample_count_ (recorded samples) = Z.of_nat (length samples))
    by (rewrite Hn; unfold wrap64; apply Z.mod_small; lia).
  pose proof (fold_add_bounds (lowest samples) (highest samples) samples 0 Hall) as Hb.
  fold (total samples) in Hb.
  assert (Htot : sum_ (recorded samples) = total samples).
  { rewrite Hs. unfold wrap64. apply Z.mod_small.
    rewrite Forall_forall in Hfits. pose proof (Hfits _ Hlo) as Hl. unfold fits in Hl. nia. }
  subst stats. unfold get_stats. rewrite Hcount.
  destruct (Z.eqb_spec (Z.of_nat (length samples)) 0) as [|_]; [lia|].
  cbn [min max mean sample_count]. rewrite Hmin, Hmax, Htot.
  conjs; try assumption; try reflexivity.
  - apply Z.div_le_lower_bound; lia.
  - apply Z.div_le_upper_bound; lia.
Qed.


(** Where the scan stops when at least one sample is asked for. *)
Lemma scan_hits buckets : forall target max_seen i start,
  0 <= start < 2 ^ 64 -> start < target ->
  scan target max_seen i start buckets = max_seen \/
  exists (k : nat) n,
    buckets !! k = Some n /\ n <> 0 /\
    scan target max_seen i start buckets =
      (i + Z.of_nat k) * BUCKET_WIDTH_NS + BUCKET_WIDTH_NS / 2.
Proof.
  induction buckets as [|count rest IH]; intros target max_seen i start Hstart Hlt;
    cbn [scan]; [now left|].
  destruct (Z.leb_spec target (wrap64 (start + count))) as [Hhit|Hmiss].
  - right. exists 0%nat, count. conjs; [reflexivity| |f_equal; lia].
    intros ->. rewrite Z.add_0_r in Hhit. unfold wrap64 in Hhit.
    rewrite Z.mod_small in Hhit by lia. lia.
  - destruct (IH target max_seen (i + 1) (wrap64 (start + count))) as [Hmax|(k & n & Hk & Hn & Hscan)].
    + unfold wrap64. apply Z.mod_pos_bound. lia.
    + exact Hmiss.
    + now left.
    + right. exists (S k), n. conjs; [exact Hk|exact Hn|]. rewrite Hscan. f_equal. lia.
Qed.

(** When the target count of a percentile is at least 1, the answer of
    [percentile_from_histogram] is within half a bucket (500 ns) of a
    recorded sample: the midpoint of a bucket that holds a sample, or the
    largest sample itself. *)
Theorem percentile_is_near_a_sample samples percentile :
  samples <> [] -> Forall (fits 64) samples -> Z.of_nat (length samples) < 2 ^ 64 ->
  let t := recorded samples in
  1 <= target_count percentile (sample_count_ t) ->
  exists x, x ∈ samples /\
    Z.abs (percentile_from_histogram t percentile - x) <= BUCKET_WIDTH_NS / 2.
Proof.
  intros Hne Hfits Hlen t Htarget. subst t.
  destruct (tracks_recorded samples Hfits) as (Hn & _ & _ & Hmax & Hhlen & Hhist & _).
  destruct (extremes samples Hne Hfits) as (_ & Hhi & _).
  assert (Hpos : 0 < Z.of_nat (length samples)) by (destruct samples; [contradiction|cbn; lia]).
  assert (Hcount : sample_count_ (recorded samples) = Z.of_nat (length samples))
    by (rewrite Hn; unfold wrap64; apply Z.mod_small; lia).
  unfold percentile_from_histogram. rewrite Hcount in *.
  destruct (Z.eqb_spec (Z.of_nat (length samples)) 0) as [|_]; [lia|].
  destruct (scan_hits (histogram (recorded samples))
              (target_count percentile (Z.of_nat (length samples)))
              (max_ (recorded samples)) 0 0) as [Hfall|(k & n & Hk & Hnz & Hscan)];
    [lia|lia| |].
  - rewrite Hfall, Hmax. exists (highest samples). split; [exact Hhi|].
    rewrite Z.sub_diag. vm_compute. discriminate.
  - assert (Hklt : (k < Z.to_nat NUM_BUCKETS)%nat)
      by (rewrite <- Hhlen; apply lookup_lt_is_Some; eauto).
    rewrite (Hhist k Hklt) in Hk. injection Hk as <-.
    assert (Hsome : filter (fun x => bucket_of x = Some k) samples <> []).
    { intros Hnil. apply Hnz. unfold how_many. now rewrite Hnil. }
    destruct (filter (fun x => bucket_of x = Some k) samples) as [|x rest] eqn:Hfilter;
      [contradiction|].
    assert (Hx : x ∈ filter (fun x => bucket_of x = Some k) samples)
      by (rewrite Hfilter; left).
    apply list_elem_of_filter in Hx as [Hbucket Hin].
    exists x. split; [exact Hin|]. rewrite Hscan.
    rewrite Forall_forall in Hfits. pose proof (Hfits x Hin) as Hfx.
    unfold bucket_of, fits, MAX_TRACKED_NS, NUM_BUCKETS, BUCKET_WIDTH_NS in *.
    destruct (Z.ltb_spec x (1000 * 1000)); [|discriminate]. injection Hbucket as <-.
    rewrite Z2Nat.id by (apply Z.div_pos; lia).
    change (1000 / 2) with 500. Z.div_mod_to_equations. lia.
Qed.

End LatencyRunFacts.

Module LatencyRunExamples.
Import Protocol Latency LatencyRuns LatencyRunScenarios LatencyRunFacts.

Lemma unit_samples_fit : Forall (fits 64) unit_samples.
Proof. repeat constructor; discriminate. Qed.

(** 1000, 2000 and 3000 ns: three samples, none in the overflow counter. *)
Lemma histogram_partitions_samples_witness :
  sample_count_ (recorded unit_samples) = wrap64 (Z.of_nat (length unit_samples)) /\
  overflow_count (recorded unit_samples) =
    wrap64 (how_many (fun x => MAX_TRACKED_NS <= x) unit_samples).
Proof.
  destruct (histogram_partitions_samples unit_samples unit_samples_fit)
    as (Hcount & _ & _ & Hover).
  split; [exact Hcount|exact Hover].
Defined.

Lemma get_stats_orders_witness :
  min (get_stats (recorded unit_samples)) ∈ unit_samples /\
  max (get_stats (recorded unit_samples)) ∈ unit_samples /\
  mean (get_stats (recorded unit_samples)) =
    total unit_samples / Z.of_nat (length unit_samples).
Proof.
  destruct (get_stats_orders unit_samples) as (_ & Hmin & Hmax & _ & Hmean & _).
  - discriminate.
  - exact unit_samples_fit.
  - reflexivity.
  - vm_compute. reflexivity.
  - split; [exact Hmin|]. split; [exact Hmax|exact Hmean].
Defined.

(** The 99th percentile of the three samples: the target is 2. *)
Lemma percentile_is_near_a_sample_witness :
  exists x, x ∈ unit_samples /\
    Z.abs (percentile_from_histogram (recorded unit_samples) 99%float - x)
    <= BUCKET_WIDTH_NS / 2.
Proof.
  apply (percentile_is_near_a_sample unit_samples 99%float).
  - discriminate.
  - exact unit_samples_fit.
  - reflexivity.
  - vm_compute. discriminate.
Defined.

End LatencyRunExamples.

Module MemoryPoolRunFacts.
Import MemoryPool MemoryPoolRuns MemoryPoolFacts.

Lemma testbit_mask n :
  0 <= n -> Z.testbit (wrap64 (Z.lnot (CACHE_LINE_SIZE - 1))) n = (6 <=? n) && (n <? 64).
Proof.
  intros Hn. unfold wrap64, CACHE_LINE_SIZE.
  destruct (Z.ltb_spec n 64) as [Hlt|Hge].
  - rewrite Z.mod_pow2_bits_low by lia. rewrite Z.lnot_spec by lia.
    change (64 - 1) with (Z.ones 6).
    destruct (Z.leb_spec 6 n).
    + now rewrite Z.ones_spec_high by lia.
    + now rewrite Z.ones_spec_low by lia.
  - rewrite Z.mod_pow2_bits_high by lia. now rewrite andb_false_r.
Qed.

(** Rounding up to the cache line. *)
Lemma align_up_spec x :
  0 <= x -> x + CACHE_LINE_SIZE - 1 < 2 ^ 64 ->
  align_up x = CACHE_LINE_SIZE * ((x + CACHE_LINE_SIZE - 1) / CACHE_LINE_SIZE).
Proof.
  intros Hx Hfit. unfold align_up.
  set (y := x + CACHE_LINE_SIZE - 1) in *.
  assert (Hy : 0 <= y < 2 ^ 64) by (unfold y, CACHE_LINE_SIZE in *; lia).
  replace (wrap64 y) with y by (unfold wrap64; now rewrite Z.mod_small).
  replace (CACHE_LINE_SIZE * (y / CACHE_LINE_SIZE)) with (Z.shiftl (Z.shiftr y 6) 6)
    by (rewrite Z.shiftl_mul_pow2, Z.shiftr_div_pow2 by lia; unfold CACHE_LINE_SIZE;
        change (2 ^ 6) with 64; lia).
  apply Z.bits_inj'. intros n Hn.
  rewrite Z.land_spec, testbit_mask by exact Hn.
  destruct (Z.leb_spec 6 n) as [H6|H6].
  - rewrite Z.shiftl_spec, Z.shiftr_spec by lia. replace (n - 6 + 6) with n by lia.
    destruct (Z.ltb_spec n 64) as [|H64]; [now rewrite andb_true_r|].
    rewrite andb_false_r. symmetry.
    destruct (Z.eq_dec y 0) as [->|Hnz]; [apply Z.bits_0|].
    apply Z.bits_above_log2; [lia|].
    assert (Z.log2 y < 64) by (apply Z.log2_lt_pow2; lia). lia.
  - rewrite Z.shiftl_spec_low by lia. now rewrite andb_false_r.
Qed.

Lemma align_up_bounds x :
  0 <= x -> x + CACHE_LINE_SIZE - 1 < 2 ^ 64 ->
  x <= align_up x < x + CACHE_LINE_SIZE /\ align_up x mod CACHE_LINE_SIZE = 0.
Proof.
  intros Hx Hfit. rewrite align_up_spec by assumption. unfold CACHE_LINE_SIZE in *.
  split; [Z.div_mod_to_equations; lia|].
  rewrite Z.mul_comm. apply Z.mod_mul. lia.
Qed.

(** Products that fit a [size_t] are not wrapped. *)
Lemma block_at_exact base size i :
  0 <= i -> 0 <= size -> i * size < 2 ^ 64 -> block_at base size i = base + i * size.
Proof.
  intros Hi Hsize Hfit. unfold block_at, wrap64. rewrite Z.mod_small; [reflexivity|nia].
Qed.

Lemma chained_store_far next head l tail q v :
  Forall (fun p => SIZEOF_POINTER <= Z.abs (p - q)) l ->
  chained next head l tail -> chained (store_next next q v) head l tail.
Proof.
  revert head. induction l as [|p l IH]; intros head Hfar Hc; cbn [chained] in *.
  { exact Hc. }
  apply Forall_cons in Hfar as [Hp Hfar].
  destruct Hc as (Hhead & Hnonnull & after & Hlink & Hc).
  conjs; [exact Hhead|exact Hnonnull|]. exists after.
  split; [now rewrite lookup_store_next_far|]. now apply IH.
Qed.

(** Pushing a node in front of a chain it does not overlap. *)
Lemma chained_push next head l tail q :
  q <> nullptr -> Forall (fun p => SIZEOF_POINTER <= Z.abs (p - q)) l ->
  chained next head l tail -> chained (store_next next q head) q (q :: l) tail.
Proof.
  intros Hq Hfar Hc. cbn [chained]. conjs; [reflexivity|exact Hq|].
  exists head. split; [apply lookup_store_next_eq|]. now apply chained_store_far.
Qed.

(** The loop of [reset] over the first [k] blocks links them into a chain,
    the last one first. *)
Lemma push_blocks_chain base size links (k : nat) :
  0 < base -> SIZEOF_POINTER <= size -> Z.of_nat k * size < 2 ^ 64 ->
  let r := fold_left (push_block base size) (seqZ 0 (Z.of_nat k)) (links, nullptr) in
  chained r.1 r.2 (reverse (map (block_at base size) (seqZ 0 (Z.of_nat k)))) nullptr /\
  (forall q, Forall (fun p => SIZEOF_POINTER <= Z.abs (q - p))
               (map (block_at base size) (seqZ 0 (Z.of_nat k))) ->
     r.1 !! q = links !! q).
Proof.
  intros Hbase Hsize. unfold SIZEOF_POINTER in *.
  induction k as [|k IH]; intros Hfit; cbn zeta.
  { cbn. split; [reflexivity|]. intros q _. reflexivity. }
  replace (Z.of_nat (S k)) with (Z.of_nat k + 1) in * by lia.
  rewrite seqZ_app by lia. rewrite fold_left_app, map_app, reverse_app.
  destruct IH as [Hchain Hframe]; [nia|]. cbn zeta in Hchain, Hframe.
  destruct (fold_left (push_block base size) (seqZ 0 (Z.of_nat k)) (links, nullptr))
    as [m head]. cbn [fst snd] in Hchain, Hframe.
  change (seqZ (0 + Z.of_nat k) 1) with [0 + Z.of_nat k].
  cbn [fold_left push_block fst snd map reverse app]. rewrite Z.add_0_l.
  change (reverse [block_at base size (Z.of_nat k)]) with [block_at base size (Z.of_nat k)].
  cbn [app].
  assert (Hnode : block_at base size (Z.of_nat k) = base + Z.of_nat k * size)
    by (apply block_at_exact; nia).
  split.
  - apply chained_push; [unfold nullptr; rewrite Hnode; nia| |exact Hchain].
    apply Forall_reverse, Forall_fmap, Forall_forall. intros i Hi.
    apply elem_of_seqZ in Hi. cbn [compose].
    rewrite Hnode, block_at_exact by nia. unfold SIZEOF_POINTER. nia.
  - intros q Hq. apply Forall_app in Hq as [Hq Hlast].
    apply Forall_cons in Hlast as [Hlast _].
    rewrite lookup_store_next_far by exact Hlast. now apply Hframe.
Qed.

(** Allocating along a chain. *)
Lemma allocate_chain l : forall pool tail,
  chained (next_of pool) (free_list pool) l tail ->
  exists pool',
    allocate_n (length l) pool = Some (l, pool') /\
    free_list pool' = tail /\ next_of pool' = next_of pool /\
    block_size pool' = block_size pool /\ num_blocks pool' = num_blocks pool /\
    aligned_base pool' = aligned_base pool /\
    wrap64 (allocated_count pool') = wrap64 (allocated_count pool + Z.of_nat (length l)) /\
    (0 <= allocated_count pool < 2 ^ 64 -> 0 <= allocated_count pool' < 2 ^ 64).
Proof.
  induction l as [|p l IH]; intros pool tail Hc; cbn [chained] in Hc.
  { exists pool. cbn [allocate_n length]. rewrite Z.add_0_r. subst. now conjs. }
  destruct Hc as (Hhead & Hp & after & Hlink & Hc).
  set (pool1 := mkPool (block_size pool) (num_blocks pool) (aligned_base pool)
                  (next_of pool) after (wrap64 (allocated_count pool + 1))).
  assert (Halloc : allocate pool = Some (p, pool1)).
  { unfold allocate. rewrite Hhead. destruct (Z.eqb_spec p nullptr); [contradiction|].
    rewrite Hlink. reflexivity. }
  destruct (IH pool1 tail Hc) as (pool' & Hrun & Hfree & Hnext & Hbs & Hnb & Hab & Hcnt & Hrange).
  exists pool'. cbn [allocate_n length]. rewrite Halloc. cbn [mbind option_bind].
  rewrite Hrun. cbn [mbind option_bind].
  conjs; try assumption; try reflexivity.
  - rewrite Hcnt. subst pool1. cbn [allocated_count]. unfold wrap64.
    change (2 ^ 64) with 18446744073709551616. Z.div_mod_to_equations. lia.
  - intros _. apply Hrange. subst pool1. cbn [allocated_count]. unfold wrap64.
    apply Z.mod_pos_bound. lia.
Qed.

(** The blocks of a pool whose arena fits the address space: where they
    lie, and that [deallocate] accepts them. *)
Lemma block_exact pool i :
  0 <= block_size pool -> block_size pool * num_blocks pool < 2 ^ 64 ->
  0 <= i < num_blocks pool -> block pool i = aligned_base pool + i * block_size pool.
Proof. intros Hsize Hfit Hi. apply block_at_exact; nia. Qed.

Lemma arena_end_exact pool :
  0 <= block_size pool -> 0 <= num_blocks pool ->
  block_size pool * num_blocks pool < 2 ^ 64 ->
  arena_end pool = aligned_base pool + block_size pool * num_blocks pool.
Proof.
  intros Hsize Hcount Hfit. unfold arena_end, arena_size, wrap64.
  rewrite Z.mod_small; [reflexivity|nia].
Qed.

Lemma block_in_arena pool p :
  0 < aligned_base pool -> SIZEOF_POINTER <= block_size pool ->
  block_size pool * num_blocks pool < 2 ^ 64 ->
  is_block pool p -> in_arena pool p.
Proof.
  unfold SIZEOF_POINTER. intros Hbase Hsize Hfit (i & Hi & ->).
  unfold in_arena, nullptr. rewrite arena_end_exact, block_exact by lia. nia.
Qed.

Lemma blocks_apart pool p q :
  SIZEOF_POINTER <= block_size pool -> block_size pool * num_blocks pool < 2 ^ 64 ->
  is_block pool p -> is_block pool q -> p <> q -> SIZEOF_POINTER <= Z.abs (p - q).
Proof.
  unfold SIZEOF_POINTER. intros Hsize Hfit (i & Hi & ->) (j & Hj & ->) Hne.
  assert (Hij : i <> j) by congruence.
  rewrite (block_exact pool i), (block_exact pool j) by lia.
  destruct (Z.lt_ge_cases i j); [rewrite Z.abs_neq by nia|rewrite Z.abs_eq by nia]; nia.
Qed.

Lemma deallocate_in_arena pool ptr :
  in_arena pool ptr ->
  deallocate pool ptr =
  mkPool (block_size pool) (num_blocks pool) (aligned_base pool)
    (store_next (next_of pool) ptr (free_list pool)) ptr
    (wrap64 (allocated_count pool - 1)).
Proof.
  intros (Hnonnull & Hlow & Hhigh). unfold deallocate.
  destruct (Z.eqb_spec ptr nullptr); [contradiction|].
  destruct (Z.ltb_spec ptr (aligned_base pool)); [lia|].
  destruct (Z.leb_spec (arena_end pool) ptr); [lia|]. reflexivity.
Qed.

(** Returning distinct blocks builds a chain of them, the last one
    returned first. *)
Lemma deallocate_chain ptrs : forall pool,
  0 < aligned_base pool -> SIZEOF_POINTER <= block_size pool ->
  block_size pool * num_blocks pool < 2 ^ 64 ->
  NoDup ptrs -> Forall (is_block pool) ptrs ->
  let freed := fold_left deallocate ptrs pool in
  chained (next_of freed) (free_list freed) (reverse ptrs) (free_list pool) /\
  (forall q, Forall (fun p => SIZEOF_POINTER <= Z.abs (q - p)) ptrs ->
     next_of freed !! q = next_of pool !! q) /\
  block_size freed = block_size pool /\ num_blocks freed = num_blocks pool /\
  aligned_base freed = aligned_base pool /\
  wrap64 (allocated_count freed) = wrap64 (allocated_count pool - Z.of_nat (length ptrs)).
Proof.
  induction ptrs as [|p ptrs IH] using rev_ind; intros pool Hbase Hsize Hfit Hnd Hall;
    cbn zeta.
  { cbn [fold_left reverse chained length]. rewrite Z.sub_0_r. now conjs. }
  apply NoDup_app in Hnd. destruct Hnd as (Hnd & Hnotin & _).
  apply Forall_app in Hall. destruct Hall as [Hall Hp].
  apply Forall_cons in Hp. destruct Hp as [Hp _].
  destruct (IH pool Hbase Hsize Hfit Hnd Hall) as (Hc & Hframe & Hbs & Hnb & Hab & Hcnt).
  rewrite fold_left_app, reverse_app, length_app. cbn [fold_left length].
  change (reverse [p]) with [p]. cbn [app].
  set (freed := fold_left deallocate ptrs pool) in *.
  assert (Harena : in_arena freed p).
  { pose proof (block_in_arena pool p Hbase Hsize Hfit Hp) as (Hnn & Hlo & Hhi).
    unfold in_arena, arena_end, arena_size in *. rewrite Hbs, Hnb, Hab. now conjs. }
  rewrite (deallocate_in_arena freed p Harena).
  cbn [next_of free_list block_size num_blocks aligned_base allocated_count].
  assert (Hapart : Forall (fun q => SIZEOF_POINTER <= Z.abs (q - p)) ptrs).
  { apply Forall_forall. intros q Hq. rewrite Forall_forall in Hall.
    apply (blocks_apart pool q p Hsize Hfit); [now apply Hall|exact Hp|].
    intros ->. apply (Hnotin p Hq). now left. }
  conjs; try assumption.
  - apply chained_push; [apply Harena| |exact Hc].
    now apply Forall_reverse.
  - intros q Hq. apply Forall_app in Hq as [Hq Hlast].
    apply Forall_cons in Hlast as [Hlast _].
    rewrite lookup_store_next_far by exact Hlast. now apply Hframe.
  - replace (Z.of_nat (length ptrs + 1)) with (Z.of_nat (length ptrs) + 1) by lia.
    revert Hcnt. unfold wrap64. change (2 ^ 64) with 18446744073709551616.
    generalize (allocated_count freed) (allocated_count pool) (Z.of_nat (length ptrs)).
    intros a b c Hcnt. Z.div_mod_to_equations. lia.
Qed.

(** Allocating from a block that is linked to itself. *)
Lemma allocate_self_loop k : forall pool ptr,
  ptr <> nullptr -> next_of pool !! ptr = Some ptr -> free_list pool = ptr ->
  exists pool',
    allocate_n k pool = Some (replicate k ptr, pool') /\
    free_list pool' = ptr /\
    wrap64 (allocated_count pool') = wrap64 (allocated_count pool + Z.of_nat k).
Proof.
  induction k as [|k IH]; intros pool ptr Hnonnull Hself Hhead.
  { exists pool. cbn [allocate_n replicate]. rewrite Z.add_0_r. now conjs. }
  set (pool1 := mkPool (block_size pool) (num_blocks pool) (aligned_base pool)
                  (next_of pool) ptr (wrap64 (allocated_count pool + 1))).
  assert (Halloc : allocate pool = Some (ptr, pool1)).
  { unfold allocate. rewrite Hhead. destruct (Z.eqb_spec ptr nullptr); [contradiction|].
    rewrite Hself. reflexivity. }
  destruct (IH pool1 ptr) as (pool' & Hrun & Hfree & Hcnt1);
    [exact Hnonnull|exact Hself|reflexivity|].
  exists pool'. cbn [allocate_n replicate]. rewrite Halloc. cbn [mbind option_bind].
  rewrite Hrun. cbn [mbind option_bind].
  conjs; [reflexivity|exact Hfree|].
  rewrite Hcnt1. subst pool1. cbn [allocated_count].
  unfold wrap64 in *. change (2 ^ 64) with 18446744073709551616 in *.
  Z.div_mod_to_equations. lia.
Qed.

(** Blocks come back last in, first out.  In a pool whose arena fits the
    address space and whose blocks hold a link, after distinct blocks have
    been returned with [deallocate], as many calls of [allocate] hand them
    out again in the reverse order; the free list is then as it was before,
    and so are the allocated count (modulo 2^64) and every link stored 8
    bytes or more away from the blocks returned. *)
Theorem freed_blocks_return_last_in_first_out pool ptrs :
  0 < aligned_base pool -> SIZEOF_POINTER <= block_size pool ->
  block_size pool * num_blocks pool < 2 ^ 64 ->
  NoDup ptrs -> Forall (is_block pool) ptrs ->
  let freed := fold_left deallocate ptrs pool in
  exists pool',
    allocate_n (length ptrs) freed = Some (reverse ptrs, pool') /\
    free_list pool' = free_list pool /\
    (forall q, Forall (fun p => SIZEOF_POINTER <= Z.abs (q - p)) ptrs ->
       next_of pool' !! q = next_of pool !! q) /\
    wrap64 (allocated_count pool') = wrap64 (allocated_count pool) /\
    block_size pool' = block_size pool /\ num_blocks pool' = num_blocks pool /\
    aligned_base pool' = aligned_base pool.
Proof.
  intros Hbase Hsize Hfit Hnd Hall freed. subst freed.
  destruct (deallocate_chain ptrs pool Hbase Hsize Hfit Hnd Hall)
    as (Hc & Hframe & Hbs & Hnb & Hab & Hcnt).
  set (freed := fold_left deallocate ptrs pool) in *.
  destruct (allocate_chain (reverse ptrs) freed (free_list pool) Hc)
    as (pool' & Hrun & Hfree & Hnext & Hbs' & Hnb' & Hab' & Hcnt' & _).
  rewrite length_reverse in *.
  exists pool'. conjs; try congruence.
  - intros q Hq. rewrite Hnext. now apply Hframe.
  - rewrite Hcnt'. unfold wrap64 in *. change (2 ^ 64) with 18446744073709551616 in *.
    Z.div_mod_to_equations. lia.
Qed.

(** A block returned twice is not noticed.  After two calls of
    [deallocate] with the same block, the block is linked to itself: every
    later [allocate] returns that same block, however many are made, so
    the rest of the free list is lost; and the allocated count has gone
    down by two. *)
Theorem double_free_is_not_detected pool ptr k :
  in_arena pool ptr ->
  let twice := deallocate (deallocate pool ptr) ptr in
  next_of twice !! ptr = Some ptr /\
  exists pool',
    allocate_n k twice = Some (replicate k ptr, pool') /\
    free_list pool' = ptr /\
    wrap64 (allocated_count pool') = wrap64 (allocated_count pool - 2 + Z.of_nat k).
Proof.
  intros Harena twice.
  assert (Htwice : next_of twice !! ptr = Some ptr /\ free_list twice = ptr /\
                   wrap64 (allocated_count twice) = wrap64 (allocated_count pool - 2)).
  { subst twice. rewrite (deallocate_in_arena pool ptr Harena).
    rewrite deallocate_in_arena by exact Harena.
    cbn [next_of free_list allocated_count]. conjs.
    - apply lookup_store_next_eq.
    - reflexivity.
    - unfold wrap64. change (2 ^ 64) with 18446744073709551616.
      Z.div_mod_to_equations. lia. }
  destruct Htwice as (Hself & Hhead & Hcnt). split; [exact Hself|].
  destruct (allocate_self_loop k twice ptr (proj1 Harena) Hself Hhead)
    as (pool' & Hrun & Hfree & Hcnt').
  exists pool'. conjs; [exact Hrun|exact Hfree|].
  rewrite Hcnt'. unfold wrap64 in *. change (2 ^ 64) with 18446744073709551616 in *.
  Z.div_mod_to_equations. lia.
Qed.

(** A new pool hands out every block once.  Where the storage of
    [block_size * num_blocks + 64] bytes the constructor asks for fits the
    address space, so that no product wraps: blocks are at least the size
    asked for and a multiple of the cache line, the arena starts on a cache
    line and lies inside the storage, and [num_blocks] calls of [allocate]
    return the blocks from the last to the first: pointers that are
    non-null, aligned to the cache line, inside the arena and pairwise
    distinct.  The next [allocate] returns [nullptr]; the allocated count
    is then [num_blocks] and the available count 0. *)
Theorem new_pool_hands_out_every_block size count storage :
  0 <= size -> size + CACHE_LINE_SIZE < 2 ^ 64 -> 0 < storage -> 0 <= count ->
  storage + (block_size (new_pool size count storage) * count + CACHE_LINE_SIZE)
    <= 2 ^ 64 ->
  let pool := new_pool size count storage in
  let blocks := map (block pool) (seqZ 0 count) in
  (size <= block_size pool /\ SIZEOF_FREE_NODE <= block_size pool /\
   block_size pool mod CACHE_LINE_SIZE = 0) /\
  (storage <= aligned_base pool < storage + CACHE_LINE_SIZE /\
   aligned_base pool mod CACHE_LINE_SIZE = 0) /\
  (total_size pool = block_size pool * count + CACHE_LINE_SIZE /\
   arena_end pool = aligned_base pool + block_size pool * count /\
   arena_end pool <= storage + total_size pool) /\
  (forall i, 0 <= i < count -> block pool i = aligned_base pool + i * block_size pool) /\
  Forall (fun ptr => ptr <> nullptr /\ ptr mod CACHE_LINE_SIZE = 0 /\
                     aligned_base pool <= ptr /\ ptr + block_size pool <= arena_end pool)
    blocks /\
  NoDup blocks /\
  exists pool',
    allocate_n (Z.to_nat count) pool = Some (reverse blocks, pool') /\
    allocate pool' = Some (nullptr, pool') /\
    get_allocated_count pool' = count /\ get_available_count pool' = 0.
Proof.
  intros Hsize Hsfit Hstorage Hcount Hfits pool blocks. subst blocks pool.
  destruct (align_up_bounds (Z.max size SIZEOF_FREE_NODE)) as [Hb Hbmod];
    [unfold SIZEOF_FREE_NODE; lia|unfold SIZEOF_FREE_NODE, CACHE_LINE_SIZE in *; lia|].
  set (raw := mkPool (align_up (Z.max size SIZEOF_FREE_NODE)) count (align_up storage)
                ∅ nullptr 0) in *.
  change (new_pool size count storage) with (reset raw) in *.
  set (bs := align_up (Z.max size SIZEOF_FREE_NODE)) in *.
  assert (Hbs : block_size (reset raw) = bs) by reflexivity.
  assert (Hnb : num_blocks (reset raw) = count) by reflexivity.
  assert (Hab : aligned_base (reset raw) = align_up storage) by reflexivity.
  assert (Hac : allocated_count (reset raw) = 0) by reflexivity.
  rewrite Hbs in Hfits.
  assert (Hbs64 : 64 <= bs) by (unfold SIZEOF_FREE_NODE in *; lia).
  destruct (align_up_bounds storage) as [Ha Hamod];
    [lia|unfold CACHE_LINE_SIZE in *; nia|].
  set (base := align_up storage) in *.
  assert (Hprod : bs * count < 2 ^ 64) by (unfold CACHE_LINE_SIZE in *; lia).
  assert (Hexact : forall i, 0 <= i < count -> block (reset raw) i = base + i * bs).
  { intros i Hi. apply block_exact; rewrite ?Hbs, ?Hnb; lia. }
  assert (Hend : arena_end (reset raw) = base + bs * count)
    by (rewrite arena_end_exact; rewrite ?Hbs, ?Hnb; try lia; reflexivity).
  assert (Htotal : total_size (reset raw) = bs * count + CACHE_LINE_SIZE).
  { unfold total_size, arena_size. rewrite Hbs, Hnb. unfold wrap64, CACHE_LINE_SIZE in *.
    rewrite (Z.mod_small (bs * count)) by nia. apply Z.mod_small. nia. }
  destruct (push_blocks_chain base bs ∅ (Z.to_nat count)) as [Hchain _];
    [lia|unfold SIZEOF_POINTER; lia|rewrite Z2Nat.id by lia; lia|].
  rewrite Z2Nat.id in Hchain by lia.
  destruct (allocate_chain _ (reset raw) nullptr Hchain)
    as (pool' & Hrun & Hfree & _ & _ & Hnb' & _ & Hcnt & Hrange).
  rewrite length_reverse, length_map, length_seqZ in Hrun, Hcnt.
  rewrite Hac, Z.add_0_l, Z2Nat.id in Hcnt by lia.
  assert (Hallocated : allocated_count pool' = count).
  { specialize (Hrange ltac:(rewrite Hac; lia)). unfold wrap64 in Hcnt.
    rewrite !Z.mod_small in Hcnt by lia. exact Hcnt. }
  rewrite Hbs, Hab, Hend, Htotal.
  conjs.
  - lia.
  - unfold SIZEOF_FREE_NODE in *. lia.
  - exact Hbmod.
  - lia.
  - lia.
  - exact Hamod.
  - reflexivity.
  - reflexivity.
  - unfold CACHE_LINE_SIZE in *. lia.
  - exact Hexact.
  - apply Forall_fmap, Forall_forall. intros i Hi. apply elem_of_seqZ in Hi.
    cbn [compose]. rewrite Hexact by lia. unfold nullptr, CACHE_LINE_SIZE in *.
    conjs; try nia.
    rewrite Z.add_mod, Z.mul_mod, Hbmod, Hamod by lia.
    rewrite Z.mul_0_r. reflexivity.
  - apply NoDup_fmap_2_strong; [|apply NoDup_seqZ].
    intros i i' Hi Hi' Heq. apply elem_of_seqZ in Hi, Hi'.
    rewrite !Hexact in Heq by lia. nia.
  - exists pool'. conjs.
    + exact Hrun.
    + unfold allocate. rewrite Hfree. reflexivity.
    + exact Hallocated.
    + unfold get_available_count, get_allocated_count.
      rewrite Hallocated, Hnb', Hnb, Z.sub_diag. reflexivity.
Qed.

End MemoryPoolRunFacts.

Module MemoryPoolRunExamples.
Import MemoryPool MemoryPoolRuns MemoryPoolScenarios MemoryPoolRunScenarios.
Import MemoryPoolRunFacts.

(** Four blocks of 4096 bytes from storage at address 1000. *)
Lemma new_pool_hands_out_every_block_witness :
  map (block (new_pool 4096 4 1000)) (seqZ 0 4) = [1024; 5120; 9216; 13312] /\
  NoDup (map (block (new_pool 4096 4 1000)) (seqZ 0 4)) /\
  exists pool',
    allocate_n (Z.to_nat 4) (new_pool 4096 4 1000)
      = Some (reverse (map (block (new_pool 4096 4 1000)) (seqZ 0 4)), pool') /\
    allocate pool' = Some (nullptr, pool') /\
    get_allocated_count pool' = 4 /\ get_available_count pool' = 0.
Proof.
  destruct (new_pool_hands_out_every_block 4096 4 1000)
    as (_ & _ & _ & _ & _ & Hnodup & Hrun).
  - discriminate.
  - reflexivity.
  - reflexivity.
  - discriminate.
  - vm_compute. discriminate.
  - split; [vm_compute; reflexivity|]. split; [exact Hnodup|exact Hrun].
Defined.

Lemma two_blocks : Forall (is_block two_out) [13312; 9216].
Proof.
  apply Forall_cons_2; [exists 3; split; [|vm_compute; reflexivity]|].
  { vm_compute. split; [discriminate|reflexivity]. }
  apply Forall_cons_2; [exists 2; split; [|vm_compute; reflexivity]|apply Forall_nil_2].
  vm_compute. split; [discriminate|reflexivity].
Qed.

(** The two blocks returned in the order 13312, 9216 come out as 9216,
    13312. *)
Lemma freed_blocks_return_last_in_first_out_witness :
  exists pool',
    allocate_n (length [13312; 9216]) (fold_left deallocate [13312; 9216] two_out)
      = Some (reverse [13312; 9216], pool') /\
    free_list pool' = free_list two_out.
Proof.
  destruct (freed_blocks_return_last_in_first_out two_out [13312; 9216])
    as (pool' & Hrun & Hfree & _).
  - reflexivity.
  - vm_compute. discriminate.
  - reflexivity.
  - apply (bool_decide_unpack _). vm_compute. exact I.
  - exact two_blocks.
  - exists pool'. split; [exact Hrun|exact Hfree].
Defined.

(** Block 13312 returned twice to [one_out], then three allocations. *)
Lemma double_free_is_not_detected_witness :
  exists pool',
    allocate_n 3 (deallocate (deallocate one_out 13312) 13312)
      = Some (replicate 3 13312, pool') /\
    free_list pool' = 13312.
Proof.
  destruct (double_free_is_not_detected one_out 13312 3) as (_ & pool' & Hrun & Hfree & _).
  - vm_compute. split; [discriminate|]. split; [discriminate|reflexivity].
  - exists pool'. split; [exact Hrun|exact Hfree].
Defined.

End MemoryPoolRunExamples.

Module TickLoopFacts.
Import Protocol TickGenerator Parser Frames Kernel ClientManager TickLoop.
Import ProtocolFacts ParserFacts.

Lemma wrap32_fits z : fits 32 (wrap32 z).
Proof. unfold fits, wrap32. apply Z.mod_pos_bound. lia. Qed.

Lemma wrap32_succ z : wrap32 (wrap32 z + 1) = wrap32 (z + 1).
Proof.
  unfold wrap32. change (2 ^ 32) with 4294967296. Z.div_mod_to_equations. lia.
Qed.

(** One call on the generator writes the frame numbered with the next
    sequence number. *)
Lemma emit_frame num_symbols sequence_ e :
  emission_ok num_symbols e ->
  emit num_symbols sequence_ e =
    (wrap32 (sequence_ + 1), frame_bytes (frame_of (wrap32 (sequence_ + 1)) e)) /\
  frame_ok (frame_of (wrap32 (sequence_ + 1)) e) /\
  frame_seq (frame_of (wrap32 (sequence_ + 1)) e) = wrap32 (sequence_ + 1).
Proof.
  pose proof (wrap32_fits (sequence_ + 1)) as Hseq.
  assert (Hkind : fits 16 TRADE /\ fits 16 QUOTE /\ fits 16 HEARTBEAT /\ fits 16 0)
    by (vm_compute; repeat split; congruence).
  destruct Hkind as (Ht & Hq & Hh & H0).
  destruct e as [symbol [now p|now p]|now]; cbn [emission_ok emit frame_of].
  - intros (Hsym & Hlt & Hnow & Hp). unfold generate_tick_for_symbol.
    destruct (Z.leb_spec num_symbols symbol); [lia|].
    split; [reflexivity|]. split; [|reflexivity].
    unfold frame_ok, header_fits.
    cbn [frame_header frame_kind message_type sequence_number timestamp_ns symbol_id].
    now conjs.
  - intros (Hsym & Hlt & Hnow & Hp). unfold generate_tick_for_symbol.
    destruct (Z.leb_spec num_symbols symbol); [lia|].
    split; [reflexivity|]. split; [|reflexivity].
    unfold frame_ok, header_fits.
    cbn [frame_header frame_kind message_type sequence_number timestamp_ns symbol_id].
    now conjs.
  - intros Hnow. unfold generate_heartbeat.
    split; [reflexivity|]. split; [|reflexivity].
    unfold frame_ok, header_fits.
    cbn [frame_header frame_kind message_type sequence_number timestamp_ns symbol_id].
    now conjs.
Qed.

Lemma emit_all_frames num_symbols es : forall sequence_,
  Forall (emission_ok num_symbols) es ->
  emit_all num_symbols sequence_ es =
    (fold_left (fun s _ => wrap32 (s + 1)) es sequence_,
     map frame_bytes (frames_of sequence_ es)) /\
  Forall frame_ok (frames_of sequence_ es) /\
  consecutive (frames_of sequence_ es) /\
  length (frames_of sequence_ es) = length es /\
  (forall f, head (frames_of sequence_ es) = Some f -> frame_seq f = wrap32 (sequence_ + 1)).
Proof.
  induction es as [|e es IH]; intros s Hok.
  { cbn. conjs; try reflexivity; try constructor. discriminate. }
  apply Forall_cons in Hok as [He Hes].
  destruct (emit_frame num_symbols s e He) as (Hemit & Hfok & Hfseq).
  destruct (IH (wrap32 (s + 1)) Hes) as (Hall & Hoks & Hcons & Hlen & Hhead).
  cbn [emit_all frames_of fold_left map length]. rewrite Hemit, Hall.
  conjs.
  - reflexivity.
  - now constructor.
  - destruct (frames_of (wrap32 (s + 1)) es) as [|g gs] eqn:Hfs; [exact I|].
    cbn [consecutive]. split; [|exact Hcons].
    rewrite Hfseq. now apply Hhead.
  - now rewrite Hlen.
  - intros f [= <-]. exact Hfseq.
Qed.

Lemma fold_wrap32_count {A} (es : list A) : forall s,
  fits 32 s ->
  fold_left (fun s _ => wrap32 (s + 1)) es s = wrap32 (s + Z.of_nat (length es)).
Proof.
  induction es as [|e es IH]; intros s Hs.
  { cbn. rewrite Z.add_0_r. unfold wrap32, fits in *. now rewrite Z.mod_small. }
  cbn [fold_left length]. rewrite IH by apply wrap32_fits.
  unfold wrap32. change (2 ^ 32) with 4294967296. Z.div_mod_to_equations. lia.
Qed.

(** What the generator writes, the parser delivers.  The messages of any
    run of [generate_tick] and [generate_heartbeat] calls, cut into chunks
    the buffer can take, are all delivered to the callbacks of a new
    parser, in order and with the fields the generator wrote; no gap, no
    checksum error and no malformed message is counted, and nothing is
    left unread.  The generator's counter has advanced by one per call
    (modulo 2^32). *)
Theorem generated_stream_is_delivered num_symbols sequence_ es chunks :
  fits 32 sequence_ ->
  Forall (emission_ok num_symbols) es ->
  concat chunks = concat (emit_all num_symbols sequence_ es).2 ->
  Forall (fun c => size c <= MAX_CHUNK) chunks ->
  (emit_all num_symbols sequence_ es).1 = wrap32 (sequence_ + Z.of_nat (length es)) /\
  exists p',
    feed_all (new_parser all_callbacks) chunks = Some (Z.of_nat (length es), p') /\
    calls p' = map frame_call (frames_of sequence_ es) /\
    sequence_gaps (stats p') = 0 /\
    checksum_errors (stats p') = 0 /\
    malformed_messages (stats p') = 0 /\
    pending p' = [].
Proof.
  intros Hseq Hok Hcat Hchunks.
  destruct (emit_all_frames num_symbols es sequence_ Hok) as (Hall & Hoks & Hcons & Hlen & _).
  rewrite Hall in *. cbn [fst snd] in *. split; [now apply fold_wrap32_count|].
  destruct (feed_all_stream chunks (new_parser all_callbacks) (frames_of sequence_ es))
    as (p' & Hfeed & Hcalls & Hg & Hc & Hm & Hnil); try assumption.
  - apply new_parser_ok.
  - reflexivity.
  - destruct (frames_of sequence_ es); [exact I|]. now left.
  - now apply short_empty.
  - exists p'. rewrite Hlen in Hfeed. now conjs.
Qed.

(** ** Fault injection *)

Lemma generate_tick_numbered num_symbols s symbol d :
  emission_ok num_symbols (Tick symbol d) ->
  generate_tick_for_symbol num_symbols s symbol d =
    (wrap32 (s + 1), frame_bytes (frame_of (wrap32 (s + 1)) (Tick symbol d))).
Proof. intros Hok. now destruct (emit_frame num_symbols s (Tick symbol d) Hok). Qed.

(** One call: the counter, the sequence number and the message. *)
Lemma generate_and_broadcast_tick_step sim k i :
  input_ok (num_symbols_ sim) i ->
  let r := generate_and_broadcast_tick sim k i in
  let counter := if fault_injection_ sim then wrap32 (fault_skip_counter_ sim + 1)
                 else fault_skip_counter_ sim in
  let skip := if fault_injection_ sim && (counter mod 100 =? 0) then 1 else 0 in
  num_symbols_ r.1.1 = num_symbols_ sim /\
  fault_injection_ r.1.1 = fault_injection_ sim /\
  fault_skip_counter_ r.1.1 = counter /\
  sequence_ r.1.1 = wrap32 (sequence_ sim + skip + 1) /\
  r.2 = frame_bytes (frame_of (wrap32 (sequence_ sim + skip + 1))
                       (Tick (tick_symbol i) (tick_draw i))).
Proof.
  intros [Hskipped Htick]. cbn zeta. unfold generate_and_broadcast_tick.
  set (counter := if fault_injection_ sim then wrap32 (fault_skip_counter_ sim + 1)
                  else fault_skip_counter_ sim).
  rewrite (generate_tick_numbered _ (sequence_ sim) _ _ Hskipped). cbn [fst].
  set (sequence1 := if fault_injection_ sim && (counter mod 100 =? 0)
                    then wrap32 (sequence_ sim + 1) else sequence_ sim).
  rewrite (generate_tick_numbered _ sequence1 _ _ Htick).
  destruct (broadcast _ _ _ _ _) as [[sent cm] k'].
  cbn [fst snd num_symbols_ fault_injection_ fault_skip_counter_ sequence_].
  assert (Hs : wrap32 (sequence1 + 1) =
               wrap32 (sequence_ sim +
                       (if fault_injection_ sim && (counter mod 100 =? 0) then 1 else 0) + 1)).
  { subst sequence1. destruct (fault_injection_ sim && (counter mod 100 =? 0)).
    - apply wrap32_succ.
    - now rewrite Z.add_0_r. }
  rewrite Hs. now conjs.
Qed.

Lemma wrap32_add_l a b : wrap32 (wrap32 a + b) = wrap32 (a + b).
Proof.
  unfold wrap32. change (2 ^ 32) with 4294967296. Z.div_mod_to_equations. lia.
Qed.

(** Passing a multiple of 100. *)
Lemma hundredth c :
  0 <= c -> (c + 1) / 100 - c / 100 = if (c + 1) mod 100 =? 0 then 1 else 0.
Proof.
  intros Hc. destruct (Z.eqb_spec ((c + 1) mod 100) 0); Z.div_mod_to_equations; lia.
Qed.

(** A run of calls from the counter [c]: call [j] (from 0) sends the number
    [sequence_ + (j + 1) + skips], where the skips are those multiples of
    100 the counter has passed. *)
Lemma run_ticks_numbered inputs : forall sim k,
  Forall (input_ok (num_symbols_ sim)) inputs ->
  fault_injection_ sim = true ->
  0 <= fault_skip_counter_ sim ->
  fault_skip_counter_ sim + Z.of_nat (length inputs) < 2 ^ 32 ->
  let r := run_ticks sim k inputs in
  let c := fault_skip_counter_ sim in
  length r.2 = length inputs /\
  fault_skip_counter_ r.1.1 = c + Z.of_nat (length inputs) /\
  wrap32 (sequence_ r.1.1) =
    wrap32 (sequence_ sim + Z.of_nat (length inputs)
            + ((c + Z.of_nat (length inputs)) / 100 - c / 100)) /\
  forall (j : nat) i,
    inputs !! j = Some i ->
    r.2 !! j =
      Some (frame_bytes
              (frame_of (wrap32 (sequence_ sim + (Z.of_nat j + 1)
                                 + ((c + Z.of_nat j + 1) / 100 - c / 100)))
                 (Tick (tick_symbol i) (tick_draw i)))).
Proof.
  induction inputs as [|i inputs IH]; intros sim k Hok Hon Hc0 Hc; cbn zeta.
  { cbn [run_ticks length fst snd]. rewrite !Z.add_0_r, Z.sub_diag, Z.add_0_r.
    conjs; try reflexivity. intros j i Hj. discriminate. }
  apply Forall_cons in Hok as [Hi Hrest]. cbn [length] in Hc.
  pose proof (generate_and_broadcast_tick_step sim k i Hi) as Hstep. cbn zeta in Hstep.
  rewrite Hon in Hstep. cbn [andb] in Hstep.
  assert (Hcount : wrap32 (fault_skip_counter_ sim + 1) = fault_skip_counter_ sim + 1)
    by (unfold wrap32; apply Z.mod_small; lia).
  rewrite Hcount, <- hundredth in Hstep by exact Hc0.
  cbn [run_ticks].
  destruct (generate_and_broadcast_tick sim k i) as [[sim1 k1] buffer].
  cbn [fst snd] in Hstep. destruct Hstep as (Hn1 & Hon1 & Hc1 & Hs1 & Hbuf).
  destruct (IH sim1 k1) as (Hlen & Hcnt & Hseq & Hnth).
  { now rewrite Hn1. }
  { now rewrite Hon1. }
  { rewrite Hc1. lia. }
  { rewrite Hc1. lia. }
  destruct (run_ticks sim1 k1 inputs) as [[sim2 k2] buffers].
  cbn [fst snd length] in *. rewrite Hc1, Hs1 in *.
  set (c := fault_skip_counter_ sim) in *. set (s := sequence_ sim) in *.
  conjs.
  - now rewrite Hlen.
  - rewrite Hcnt. lia.
  - rewrite Hseq, <- Z.add_assoc, wrap32_add_l. f_equal.
    replace (c + 1 + Z.of_nat (length inputs)) with (c + Z.of_nat (S (length inputs))) by lia.
    lia.
  - intros [|j] i' Hj.
    + injection Hj as <-. change ((buffer :: buffers) !! 0%nat) with (Some buffer).
      rewrite Hbuf. do 4 f_equal.
      change (Z.of_nat 0) with 0. rewrite Z.add_0_r. lia.
    + change (inputs !! j = Some i') in Hj.
      change ((buffer :: buffers) !! S j) with (buffers !! j). rewrite (Hnth j i' Hj). do 3 f_equal.
      rewrite <- Z.add_assoc, wrap32_add_l. f_equal.
      replace (c + 1 + Z.of_nat j + 1) with (c + Z.of_nat (S j) + 1) by lia.
      lia.
Qed.

(** With fault injection off no number is skipped. *)
Lemma run_ticks_plain inputs : forall sim k,
  Forall (input_ok (num_symbols_ sim)) inputs ->
  fault_injection_ sim = false ->
  let r := run_ticks sim k inputs in
  length r.2 = length inputs /\
  wrap32 (sequence_ r.1.1) = wrap32 (sequence_ sim + Z.of_nat (length inputs)) /\
  forall (j : nat) i,
    inputs !! j = Some i ->
    r.2 !! j =
      Some (frame_bytes
              (frame_of (wrap32 (sequence_ sim + (Z.of_nat j + 1)))
                 (Tick (tick_symbol i) (tick_draw i)))).
Proof.
  induction inputs as [|i inputs IH]; intros sim k Hok Hoff; cbn zeta.
  { cbn [run_ticks length fst snd]. rewrite !Z.add_0_r.
    conjs; try reflexivity. intros j i Hj. discriminate. }
  apply Forall_cons in Hok as [Hi Hrest].
  pose proof (generate_and_broadcast_tick_step sim k i Hi) as Hstep. cbn zeta in Hstep.
  rewrite Hoff in Hstep. cbn [andb] in Hstep. rewrite Z.add_0_r in Hstep.
  cbn [run_ticks].
  destruct (generate_and_broadcast_tick sim k i) as [[sim1 k1] buffer].
  cbn [fst snd] in Hstep. destruct Hstep as (Hn1 & Hon1 & Hc1 & Hs1 & Hbuf).
  destruct (IH sim1 k1) as (Hlen & Hseq & Hnth).
  { now rewrite Hn1. }
  { now rewrite Hon1. }
  destruct (run_ticks sim1 k1 inputs) as [[sim2 k2] buffers].
  cbn [fst snd length] in *. rewrite Hs1 in *.
  conjs.
  - now rewrite Hlen.
  - rewrite Hseq, wrap32_add_l. f_equal. lia.
  - intros [|j] i' Hj.
    + injection Hj as <-. change ((buffer :: buffers) !! 0%nat) with (Some buffer).
      rewrite Hbuf. do 4 f_equal.
    + change (inputs !! j = Some i') in Hj.
      change ((buffer :: buffers) !! S j) with (buffers !! j). rewrite (Hnth j i' Hj). do 3 f_equal.
      rewrite wrap32_add_l. f_equal. lia.
Qed.

(** Fault injection skips one sequence number in a hundred.  After
    [enable_fault_injection(true)], call [j] (counted from 1) of
    [generate_and_broadcast_tick] hands [broadcast] the tick numbered
    [sequence_ + j + j / 100]: every hundredth call uses up one number more,
    which is never sent.  After [enable_fault_injection(false)] call [j]
    sends the number [sequence_ + j].  The calls are fewer than 2^32, so
    that the 32-bit counter of calls does not wrap. *)
Theorem fault_injection_skips_every_hundredth sim k inputs :
  Forall (input_ok (num_symbols_ sim)) inputs ->
  Z.of_nat (length inputs) < 2 ^ 32 ->
  let faulty := run_ticks (enable_fault_injection sim true) k inputs in
  let plain := run_ticks (enable_fault_injection sim false) k inputs in
  (forall (j : nat) i,
     inputs !! j = Some i ->
     faulty.2 !! j =
       Some (frame_bytes
               (frame_of (wrap32 (sequence_ sim + (Z.of_nat j + 1) + (Z.of_nat j + 1) / 100))
                  (Tick (tick_symbol i) (tick_draw i))))) /\
  wrap32 (sequence_ faulty.1.1) =
    wrap32 (sequence_ sim + Z.of_nat (length inputs) + Z.of_nat (length inputs) / 100) /\
  (forall (j : nat) i,
     inputs !! j = Some i ->
     plain.2 !! j =
       Some (frame_bytes
               (frame_of (wrap32 (sequence_ sim + (Z.of_nat j + 1)))
                  (Tick (tick_symbol i) (tick_draw i))))) /\
  wrap32 (sequence_ plain.1.1) = wrap32 (sequence_ sim + Z.of_nat (length inputs)).
Proof.
  intros Hok Hlen faulty plain. subst faulty plain.
  destruct (run_ticks_numbered inputs (enable_fault_injection sim true) k)
    as (_ & _ & Hseq & Hnth); try assumption; try reflexivity.
  destruct (run_ticks_plain inputs (enable_fault_injection sim false) k)
    as (_ & Hseq' & Hnth'); try assumption; try reflexivity.
  cbn [enable_fault_injection fault_skip_counter_ sequence_] in *.
  change (0 / 100) with 0 in *. rewrite Z.sub_0_r, Z.add_0_l in Hseq.
  conjs; try assumption.
  intros j i Hj. rewrite (Hnth j i Hj). rewrite Z.sub_0_r, Z.add_0_l. reflexivity.
Qed.

End TickLoopFacts.

Module TickLoopExamples.
Import Protocol TickGenerator Parser Frames Kernel ClientManager TickLoop.
Import ParserScenarios TickLoopScenarios ParserExamples TickLoopFacts.

Lemma three_emissions_ok : Forall (emission_ok 100) three_emissions.
Proof.
  repeat (apply Forall_cons_2 || apply Forall_nil_2); vm_compute; repeat split; congruence.
Qed.

(** The generator at number 6 asked for a quote, a trade and a heartbeat;
    the parser fed one byte at a time. *)
Lemma generated_stream_is_delivered_witness :
  (emit_all 100 6 three_emissions).1 = wrap32 (6 + Z.of_nat (length three_emissions)) /\
  exists p',
    feed_all (new_parser all_callbacks)
      (bytewise (concat (emit_all 100 6 three_emissions).2))
      = Some (Z.of_nat (length three_emissions), p') /\
    calls p' = map frame_call (frames_of 6 three_emissions) /\
    sequence_gaps (stats p') = 0 /\
    checksum_errors (stats p') = 0 /\
    malformed_messages (stats p') = 0 /\
    pending p' = [].
Proof.
  apply (generated_stream_is_delivered 100 6 three_emissions
           (bytewise (concat (emit_all 100 6 three_emissions).2))).
  - split; [discriminate|reflexivity].
  - exact three_emissions_ok.
  - apply concat_bytewise.
  - apply bytewise_small.
Defined.

Lemma quote_input_ok : input_ok 100 quote_input.
Proof. vm_compute. repeat split; congruence. Qed.

(** The hundredth call after fault injection was switched on sends number
    101. *)
Lemma fault_injection_skips_every_hundredth_witness :
  (run_ticks (enable_fault_injection idle true) ∅ hundred_ticks).2 !! 99%nat =
    Some (frame_bytes
            (frame_of (wrap32 (sequence_ idle + (Z.of_nat 99 + 1) + (Z.of_nat 99 + 1) / 100))
               (Tick (tick_symbol quote_input) (tick_draw quote_input)))) /\
  wrap32 (sequence_ idle + (Z.of_nat 99 + 1) + (Z.of_nat 99 + 1) / 100) = 101.
Proof.
  destruct (fault_injection_skips_every_hundredth idle ∅ hundred_ticks) as (Hnth & _).
  - apply Forall_replicate. exact quote_input_ok.
  - unfold hundred_ticks. rewrite length_replicate. reflexivity.
  - split; [|reflexivity]. apply Hnth. apply lookup_replicate_2. lia.
Defined.

End TickLoopExamples.

Module CacheRankingFacts.
Import Cache CacheFacts CacheReader CacheRanking.

Lemma greater_cases a b :
  greater a b = true <-> b.1 < a.1 \/ (b.1 = a.1 /\ b.2 < a.2).
Proof.
  unfold greater.
  destruct (Z.ltb_spec b.1 a.1), (Z.ltb_spec a.1 b.1), (Z.ltb_spec b.2 a.2);
    cbn [orb andb negb]; split; intros; try discriminate; try reflexivity; lia.
Qed.

Lemma ranks_before_cases a b :
  ranks_before a b <-> b.1 < a.1 \/ (b.1 = a.1 /\ b.2 <= a.2).
Proof.
  unfold ranks_before. destruct (greater b a) eqn:Hg.
  - apply greater_cases in Hg. split; [discriminate|lia].
  - split; [intros _|reflexivity].
    assert (Hn : ~ (a.1 < b.1 \/ (a.1 = b.1 /\ a.2 < b.2)))
      by (rewrite <- greater_cases, Hg; discriminate).
    lia.
Qed.

#[local] Instance ranks_before_total : Total ranks_before.
Proof. intros a b. rewrite !ranks_before_cases. lia. Qed.

#[local] Instance ranks_before_trans : Transitive ranks_before.
Proof. intros a b d. rewrite !ranks_before_cases. lia. Qed.

Lemma collect_fold c ids : forall acc,
  (forall j, Z.even (sequence (entry c j)) = true) ->
  Forall (fun i => i < num_symbols c) ids ->
  foldl (fun acc i =>
           symbols ← acc; s ← snapshot_of c i;
           Some (if 0 <? update_count s then symbols ++ [(update_count s, i)]
                 else symbols))
    (Some acc) ids
  = Some (acc ++ map (counted c)
                   (filter (fun i => 0 < update_count (state (entry c i))) ids)).
Proof.
  induction ids as [|i ids IH]; intros acc Heven Hids.
  { cbn. now rewrite app_nil_r. }
  apply Forall_cons in Hids as [Hi Hids].
  cbn [foldl mbind option_bind]. rewrite (CacheReaderFacts.snapshot_of_even c i Hi (Heven i)).
  cbn [mbind option_bind]. rewrite filter_cons.
  destruct (Z.ltb_spec 0 (update_count (state (entry c i)))) as [Hpos|Hzero];
    destruct (decide (0 < update_count (state (entry c i)))) as [Hd|Hd]; try lia;
    rewrite IH by assumption.
  - cbn [map]. now rewrite <- app_assoc.
  - reflexivity.
Qed.

Lemma collect_spec c :
  quiescent c -> collect c = Some (map (counted c) (updated c)).
Proof.
  intros Hq. destruct (quiescent_even c Hq) as [_ Heven].
  unfold collect, updated. rewrite (collect_fold c _ [] Heven); [reflexivity|].
  apply Forall_forall. intros i Hi. apply elem_of_seqZ in Hi. lia.
Qed.

Lemma mapM_total {A B} (f : A -> option B) (g : A -> B) l :
  Forall (fun x => f x = Some (g x)) l -> mapM f l = Some (map g l).
Proof.
  induction 1 as [|x l Hx _ IH]; [reflexivity|].
  cbn [mapM map]. rewrite Hx. cbn [mbind option_bind]. rewrite IH. reflexivity.
Qed.

Lemma StronglySorted_lookup {A} (R : relation A) l : forall (k k' : nat) x y,
  StronglySorted R l -> (k < k')%nat -> l !! k = Some x -> l !! k' = Some y -> R x y.
Proof.
  induction l as [|a l IH]; intros k k' x y Hs Hk Hx Hy; [discriminate|].
  apply StronglySorted_inv in Hs as [Hs Hall].
  destruct k' as [|k']; [lia|]. change (l !! k' = Some y) in Hy.
  destruct k as [|k].
  - injection Hx as <-. rewrite List.Forall_forall in Hall. apply Hall.
    apply list_elem_of_In. eapply list_elem_of_lookup_2; eauto.
  - change (l !! k = Some x) in Hx. apply (IH k k' x y Hs); [lia|assumption..].
Qed.

Lemma counted_snd c l : (map (counted c) l).*2 = l.
Proof. induction l as [|i l IH]; [reflexivity|]. cbn. now rewrite IH. Qed.

Lemma updated_NoDup c : NoDup (updated c).
Proof. unfold updated. apply NoDup_filter, NoDup_seqZ. Qed.

Lemma updated_spec c i :
  i ∈ updated c <-> 0 <= i < num_symbols c /\ 0 < update_count (state (entry c i)).
Proof.
  unfold updated. rewrite list_elem_of_filter, elem_of_seqZ. lia.
Qed.

(** [get_top_symbols] ranks the symbols.  With no writer running and
    [count] slots, the first [min count u] slots, [u] being the number of
    symbols that have updates, hold distinct symbols of the cache that have
    updates, each with its current state, ordered by update count from the
    largest down, the larger index first among equal counts; every symbol
    with updates that is left out is outranked by every symbol listed; and
    the slots after them hold symbol 0 with the empty state. *)
Theorem top_symbols_are_ranked c count :
  quiescent c -> 0 <= count ->
  exists top : list Z,
    get_top_symbols c count =
      Some (map (fun i => (i, state (entry c i))) top
            ++ replicate (Z.to_nat (count - Z.of_nat (length top))) (0, empty_state)) /\
    Z.of_nat (length top) = Z.min count (Z.of_nat (length (updated c))) /\
    NoDup top /\
    (forall i, i ∈ top ->
       0 <= i < num_symbols c /\ 0 < update_count (state (entry c i))) /\
    (forall (k k' : nat) a b,
       (k < k')%nat -> top !! k = Some a -> top !! k' = Some b -> outranks c a b) /\
    (forall a j,
       a ∈ top -> 0 <= j < num_symbols c -> 0 < update_count (state (entry c j)) ->
       j ∉ top -> outranks c a j).
Proof.
  intros Hq Hcount.
  destruct (quiescent_even c Hq) as [_ Heven].
  set (symbols := map (counted c) (updated c)).
  set (sorted := merge_sort ranks_before symbols).
  set (n := Z.min count (Z.of_nat (length symbols))).
  assert (Hperm : sorted ≡ₚ symbols) by apply merge_sort_Permutation.
  assert (Hsorted : StronglySorted ranks_before sorted)
    by (apply StronglySorted_merge_sort; apply _).
  assert (Hsnd : sorted.*2 ≡ₚ updated c).
  { rewrite Hperm. unfold symbols. now rewrite counted_snd. }
  assert (Hpair : forall p, p ∈ sorted -> p = counted c p.2 /\ p.2 ∈ updated c).
  { intros p Hp. rewrite Hperm in Hp. unfold symbols in Hp.
    apply list_elem_of_fmap in Hp as (i & -> & Hi). now split. }
  assert (Hlen : length sorted = length (updated c)).
  { rewrite (Permutation_length Hperm). unfold symbols. now rewrite length_map. }
  assert (Hlens : length symbols = length (updated c))
    by (unfold symbols; now rewrite length_map).
  exists (firstn (Z.to_nat n) sorted).*2.
  assert (Htop : forall p, p ∈ firstn (Z.to_nat n) sorted -> p ∈ sorted).
  { intros p Hp. eapply elem_of_sublist; [exact Hp|apply sublist_take]. }
  assert (Hn : Z.of_nat (length (firstn (Z.to_nat n) sorted).*2)
               = Z.min count (Z.of_nat (length (updated c)))).
  { rewrite length_fmap, length_take, Hlen. subst n. rewrite Hlens. lia. }
  conjs.
  - unfold get_top_symbols. rewrite (collect_spec c Hq). cbn [mbind option_bind].
    fold symbols. fold n. fold sorted.
    rewrite (mapM_total _ (fun p => (p.2, state (entry c p.2)))).
    + cbn [mbind option_bind]. rewrite <- list_fmap_compose.
      do 3 f_equal. rewrite Hn. subst n. rewrite Hlens. reflexivity.
    + apply Forall_forall. intros p Hp. apply Htop, Hpair in Hp as [_ Hp].
      apply updated_spec in Hp.
      rewrite (CacheReaderFacts.snapshot_of_even c p.2); [reflexivity|lia|apply Heven].
  - exact Hn.
  - rewrite fmap_take. eapply sublist_NoDup; [|apply sublist_take].
    rewrite Hsnd. apply updated_NoDup.
  - intros i Hi. apply list_elem_of_fmap in Hi as (p & -> & Hp).
    apply Htop, Hpair in Hp as [_ Hp]. now apply updated_spec.
  - intros k k' a b Hk Ha Hb.
    rewrite list_lookup_fmap in Ha, Hb.
    destruct (firstn (Z.to_nat n) sorted !! k) as [p|] eqn:Hp; [|discriminate].
    destruct (firstn (Z.to_nat n) sorted !! k') as [q|] eqn:Hq'; [|discriminate].
    injection Ha as <-. injection Hb as <-.
    assert (Hne : p.2 <> q.2).
    { intros Heq.
      assert (Hnd : NoDup (firstn (Z.to_nat n) sorted).*2).
      { rewrite fmap_take. eapply sublist_NoDup; [|apply sublist_take].
        rewrite Hsnd. apply updated_NoDup. }
      assert (k = k'); [|lia].
      apply (NoDup_lookup _ k k' p.2 Hnd); rewrite list_lookup_fmap.
      - now rewrite Hp.
      - rewrite Hq'. cbn. now rewrite Heq. }
    pose proof (list_elem_of_lookup_2 _ _ _ Hp) as Hpin.
    pose proof (list_elem_of_lookup_2 _ _ _ Hq') as Hqin.
    apply Htop, Hpair in Hpin as [Hpc _]. apply Htop, Hpair in Hqin as [Hqc _].
    apply lookup_take_Some in Hp as [Hp _]. apply lookup_take_Some in Hq' as [Hq' _].
    pose proof (StronglySorted_lookup ranks_before sorted k k' p q Hsorted Hk Hp Hq') as HR.
    apply ranks_before_cases in HR.
    apply (f_equal fst) in Hpc, Hqc. cbn [fst counted] in Hpc, Hqc.
    unfold outranks. lia.
  - intros a j Ha Hj Hupd Hnot.
    apply list_elem_of_fmap in Ha as (p & -> & Hp).
    assert (Hjin : counted c j ∈ sorted).
    { rewrite Hperm. unfold symbols. apply list_elem_of_fmap. exists j.
      split; [reflexivity|]. now apply updated_spec. }
    rewrite <- (take_drop (Z.to_nat n) sorted) in Hjin, Hsorted.
    apply elem_of_app in Hjin as [Hjin|Hjin].
    { exfalso. apply Hnot. apply list_elem_of_fmap. now exists (counted c j). }
    pose proof (StronglySorted_app_1_elem_of ranks_before _ _ p (counted c j) Hsorted Hp Hjin)
      as HR.
    assert (Hne : p.2 <> j).
    { intros <-. apply Hnot. apply list_elem_of_fmap. now exists p. }
    apply Htop, Hpair in Hp as [Hpc _].
    apply ranks_before_cases in HR. cbn [fst snd counted] in HR.
    apply (f_equal fst) in Hpc. cbn [fst counted] in Hpc.
    unfold outranks. lia.
Qed.

End CacheRankingFacts.

Module CacheRankingExamples.
Import Cache CacheFacts CacheReader CacheRanking CacheScenarios CacheRankingScenarios.
Import CacheExamples CacheRankingFacts.

Lemma busy_quiescent : quiescent busy.
Proof.
  unfold busy.
  do 3 (apply (quiescent_update _ _ (Trade _ _ _)); [|split; [discriminate|reflexivity]]).
  exact quoted_quiescent.
Qed.

(** Four slots for three symbols with updates: 3 with two updates, then 5
    before 0 with one update each, then an empty slot. *)
Lemma top_symbols_are_ranked_witness :
  (exists top : list Z,
     get_top_symbols busy 4 =
       Some (map (fun i => (i, state (entry busy i))) top
             ++ replicate (Z.to_nat (4 - Z.of_nat (length top))) (0, empty_state)) /\
     Z.of_nat (length top) = Z.min 4 (Z.of_nat (length (updated busy))) /\
     NoDup top) /\
  fmap (M := option) (fmap fst) (get_top_symbols busy 4) = Some [3; 5; 0; 0].
Proof.
  split; [|vm_compute; reflexivity].
  destruct (top_symbols_are_ranked busy 4 busy_quiescent) as (top & Hget & Hlen & Hnd & _).
  - discriminate.
  - exists top. split; [exact Hget|]. split; [exact Hlen|exact Hnd].
Defined.

End CacheRankingExamples.

Module SlowListFacts.
Import Kernel ClientManager ClientTable ClientManagerFacts ClientTableFacts.

Lemma get_slow_clients_spec cm fd :
  fd ∈ get_slow_clients cm <-> exists c, clients cm !! fd = Some c /\ is_slow c = true.
Proof.
  unfold get_slow_clients. rewrite list_elem_of_fmap. split.
  - intros ([fd' c] & -> & Hin). apply list_elem_of_filter in Hin as [Hslow Hin].
    apply elem_of_map_to_list in Hin. now exists c.
  - intros (c & Hc & Hslow). exists (fd, c). split; [reflexivity|].
    apply list_elem_of_filter. split; [exact Hslow|]. now apply elem_of_map_to_list.
Qed.

(** The entry of [fd] after the loop body of [broadcast] ran for it. *)
Lemma broadcast_one_entry data symbol_id now cm k fd c :
  clients cm !! fd = Some c ->
  exists c',
    clients (broadcast_one data symbol_id now (0, cm, k) fd).1.2 !! fd = Some c' /\
    (is_slow c = true -> c' = c).
Proof.
  intros Hc. rewrite broadcast_one_unfold. unfold credited, eligible. rewrite Hc.
  pose proof (send_to_client_statistics cm k fd data) as (_ & _ & Hkept).
  specialize (Hkept fd). rewrite Hc in Hkept.
  inversion Hkept as [c0 c1 _ Hc0 Hc1|]; subst.
  destruct (is_slow c) eqn:Hslow; cbn [negb andb fst snd].
  { exists c. now split. }
  destruct (subscribe_all c || bool_decide (symbol_id ∈ subscribed_symbols c));
    cbn [andb fst snd]; [|exists c; split; [exact Hc|discriminate]].
  destruct ((send_to_client cm k fd data).1.1); cbn [fst snd clients with_clients].
  - rewrite lookup_alter_eq, <- Hc1. eexists. split; [reflexivity|discriminate].
  - rewrite <- Hc1. eexists. split; [reflexivity|discriminate].
Qed.

(** [broadcast] neither adds nor drops a subscriber, and it never takes
    one off the slow list: the table holds the same descriptors afterwards,
    [client_count] is the same, and every descriptor [get_slow_clients]
    listed before the call is listed after it. *)
Theorem broadcast_keeps_the_table cm k data symbol_id now :
  let cm' := (broadcast cm k data symbol_id now).1.2 in
  get_all_client_fds cm' ≡ₚ get_all_client_fds cm /\
  client_count cm' = client_count cm /\
  (forall fd, has_client cm' fd = has_client cm fd) /\
  (forall fd, fd ∈ get_slow_clients cm -> fd ∈ get_slow_clients cm').
Proof.
  cbn zeta.
  assert (Hhas : forall fd,
            has_client (broadcast cm k data symbol_id now).1.2 fd = has_client cm fd).
  { rewrite broadcast_unfold. cbn zeta. cbn [fst snd].
    destruct (broadcast_fold_spec data symbol_id now (get_all_client_fds cm) 0 cm k
                (fds_NoDup cm)) as (_ & _ & Hfd).
    intros fd. unfold has_client. cbn [clients]. destruct (Hfd fd) as [Hout Hin].
    destruct (clients cm !! fd) as [c|] eqn:Hc.
    + destruct Hin as [-> _]; [apply fds_elem; eauto|].
      destruct (broadcast_one_entry data symbol_id now cm k fd c Hc) as (c' & -> & _).
      reflexivity.
    + destruct Hout as [-> _]; [|reflexivity].
      intros Hin'. apply fds_elem in Hin' as [c Hc']. congruence. }
  assert (Hperm : get_all_client_fds (broadcast cm k data symbol_id now).1.2
                  ≡ₚ get_all_client_fds cm).
  { apply NoDup_Permutation; try apply fds_NoDup.
    intros fd. rewrite !fds_elem. specialize (Hhas fd). unfold has_client in Hhas.
    destruct (clients (broadcast cm k data symbol_id now).1.2 !! fd),
      (clients cm !! fd); try discriminate; split; intros [? ?]; try discriminate; eauto. }
  conjs.
  - exact Hperm.
  - apply Permutation_length in Hperm. unfold get_all_client_fds in Hperm.
    rewrite !length_fmap in Hperm. unfold client_count. now rewrite Hperm.
  - exact Hhas.
  - intros fd Hslow. apply get_slow_clients_spec in Hslow as (c & Hc & Hslow).
    rewrite broadcast_unfold. cbn zeta. cbn [fst snd].
    destruct (broadcast_fold_spec data symbol_id now (get_all_client_fds cm) 0 cm k
                (fds_NoDup cm)) as (_ & _ & Hfd).
    destruct (Hfd fd) as [_ Hin]. destruct Hin as [Hentry _]; [apply fds_elem; eauto|].
    destruct (broadcast_one_entry data symbol_id now cm k fd c Hc) as (c' & Hc' & Hsame).
    rewrite (Hsame Hslow) in Hc'. rewrite Hc' in Hentry.
    apply get_slow_clients_spec. exists c. cbn [clients]. now split.
Qed.

End SlowListFacts.
